(** * HYEOKSIN-INSTA: the carousel workflow, its generation client and its
      credential store

    A shallow embedding of [src/App.tsx] (the workflow orchestrator and the
    reference-image upload) and of [src/components/ApiKeyManager.tsx] (the
    credential dialog, followed in the same file by the generation client
    [services/ai]), with the properties of the specification stated and
    settled over it.

    Conventions.
    - A JavaScript string is a [string]: the sequence of its bytes in UTF-8.
    - A thrown exception is a value of [Thrown]; a function that can throw
      returns a [Result].
    - The AI provider, the cipher and the file reader are outside the
      repository.  The provider is a function from the call number and the
      request to an outcome, the cipher a pair of functions with its laws as
      section hypotheses, a file read a pending task of the event loop.
    - User-visible texts in Korean are constructors of [Alert] and
      [Message]; each constructor quotes the line it stands for. *)

From Stdlib Require Import String Ascii ZArith List Lia Bool DecimalString DecimalNat.
From stdpp Require Import base option list strings.

Set Warnings "-register-all,-unused-pattern-matching-variable".


(** ** JavaScript values used by the code *)

Module JS.

(** The double quote and the backslash, by their codes. *)
Definition dq : ascii := "034"%char.
Definition bs : ascii := "092"%char.

(** [!s] is false exactly for the empty string. *)
Definition truthy (s : string) : bool :=
  match s with EmptyString => false | String _ _ => true end.

(** [!!x] for a value that may be [undefined] or [null]. *)
Definition truthy_opt (o : option string) : bool :=
  match o with Some s => truthy s | None => false end.

(** [a || b] on possibly absent strings. *)
Definition or_else (a b : option string) : option string :=
  if truthy_opt a then a else b.

(** [s.includes(sub)]. *)
Fixpoint includes (s sub : string) : bool :=
  String.prefix sub s ||
  match s with
  | EmptyString => false
  | String _ r => includes r sub
  end.

(** [`${x}`] for a possibly undefined string. *)
Definition template (o : option string) : string :=
  match o with Some s => s | None => "undefined" end.

(** [xs.join(sep)]. *)
Fixpoint join (sep : string) (xs : list string) : string :=
  match xs with
  | [] => EmptyString
  | [x] => x
  | x :: r => x +:+ sep +:+ join sep r
  end.

End JS.

(** ** JSON

    [JSON.parse] and [JSON.stringify] on the part of the grammar the code
    exchanges: objects, arrays, strings with every escape, integer number
    literals, [true], [false], [null].  A number literal with a fraction or
    an exponent is outside this grammar. *)

Module JSON.

Inductive json : Type :=
| JNull
| JBool (b : bool)
| JNum (z : Z)
| JStr (s : string)
| JArr (items : list json)
| JObj (members : list (string * json)).

(** [o[k]] on the members of an object: the last member named [k], as
    [JSON.parse] keeps the last of duplicate names. *)
Fixpoint get (k : string) (ms : list (string * json)) : option json :=
  match ms with
  | [] => None
  | (k', v) :: r =>
      match get k r with
      | Some v' => Some v'
      | None => if String.eqb k k' then Some v else None
      end
  end.

(** *** Lexing *)

Inductive token : Type :=
| TLBrace | TRBrace | TLBracket | TRBracket | TColon | TComma
| TStr (s : string) | TNum (z : Z) | TTrue | TFalse | TNull.

Inductive lmode : Type :=
| LNorm
| LStr (acc : string)
| LEsc (acc : string)
| LUni (acc : string) (k : nat) (v : N)
| LNum (lit : string)
| LWord (w : string).

Definition code (c : ascii) : N := N_of_ascii c.

Definition is_ws (c : ascii) : bool :=
  (code c =? 32)%N || (code c =? 9)%N || (code c =? 10)%N || (code c =? 13)%N.
Definition is_digit (c : ascii) : bool := (48 <=? code c)%N && (code c <=? 57)%N.
Definition is_lower (c : ascii) : bool := (97 <=? code c)%N && (code c <=? 122)%N.

Definition hex_val (c : ascii) : option N :=
  let n := code c in
  if ((48 <=? n) && (n <=? 57))%N then Some (n - 48)%N
  else if ((97 <=? n) && (n <=? 102))%N then Some (n - 87)%N
  else if ((65 <=? n) && (n <=? 70))%N then Some (n - 55)%N
  else None.

Definition chr (n : N) : ascii := ascii_of_N n.
Definition snoc (s : string) (c : ascii) : string := s +:+ String c EmptyString.

(** The UTF-8 bytes of a code unit below 0x10000; each half of a
    surrogate pair is kept as a unit of its own. *)
Definition utf8 (v : N) : string :=
  if (v <? 128)%N then String (chr v) EmptyString
  else if (v <? 2048)%N then
    String (chr (192 + v / 64)) (String (chr (128 + v mod 64)) EmptyString)
  else
    String (chr (224 + v / 4096))
      (String (chr (128 + (v / 64) mod 64))
         (String (chr (128 + v mod 64)) EmptyString)).

(** The value of a number literal: an optional minus, then [0] or a digit
    sequence that does not start with [0]. *)
Fixpoint digits_val (s : string) (acc : N) : N :=
  match s with
  | EmptyString => acc
  | String c r => digits_val r (10 * acc + (code c - 48))%N
  end.

Definition num_val (lit : string) : option Z :=
  let body (ds : string) : option N :=
    match ds with
    | EmptyString => None
    | String c EmptyString => Some (code c - 48)%N
    | String c r => if (code c =? 48)%N then None else Some (digits_val ds 0)
    end in
  match lit with
  | String c r =>
      if (code c =? 45)%N then (fun n => (- Z.of_N n)%Z) <$> body r
      else Z.of_N <$> body lit
  | EmptyString => None
  end.

Definition word_tok (w : string) : option token :=
  if String.eqb w "true" then Some TTrue
  else if String.eqb w "false" then Some TFalse
  else if String.eqb w "null" then Some TNull
  else None.

(** One character outside a string, a number and a word.  [toks] is the
    token list so far, latest first. *)
Definition lex_norm (c : ascii) (toks : list token) : option (lmode * list token) :=
  let n := code c in
  if is_ws c then Some (LNorm, toks)
  else if (n =? 123)%N then Some (LNorm, TLBrace :: toks)
  else if (n =? 125)%N then Some (LNorm, TRBrace :: toks)
  else if (n =? 91)%N then Some (LNorm, TLBracket :: toks)
  else if (n =? 93)%N then Some (LNorm, TRBracket :: toks)
  else if (n =? 58)%N then Some (LNorm, TColon :: toks)
  else if (n =? 44)%N then Some (LNorm, TComma :: toks)
  else if (n =? 34)%N then Some (LStr EmptyString, toks)
  else if (n =? 45)%N || is_digit c then Some (LNum (String c EmptyString), toks)
  else if is_lower c then Some (LWord (String c EmptyString), toks)
  else None.

Definition lex_step (m : lmode) (c : ascii) (toks : list token)
  : option (lmode * list token) :=
  let n := code c in
  match m with
  | LNorm => lex_norm c toks
  | LStr acc =>
      if (n =? 34)%N then Some (LNorm, TStr acc :: toks)
      else if (n =? 92)%N then Some (LEsc acc, toks)
      else if (n <? 32)%N then None
      else Some (LStr (snoc acc c), toks)
  | LEsc acc =>
      if (n =? 34)%N || (n =? 92)%N || (n =? 47)%N then Some (LStr (snoc acc c), toks)
      else if (n =? 98)%N then Some (LStr (snoc acc (chr 8)), toks)
      else if (n =? 102)%N then Some (LStr (snoc acc (chr 12)), toks)
      else if (n =? 110)%N then Some (LStr (snoc acc (chr 10)), toks)
      else if (n =? 114)%N then Some (LStr (snoc acc (chr 13)), toks)
      else if (n =? 116)%N then Some (LStr (snoc acc (chr 9)), toks)
      else if (n =? 117)%N then Some (LUni acc 0 0%N, toks)
      else None
  | LUni acc k v =>
      match hex_val c with
      | Some d =>
          let v' := (16 * v + d)%N in
          if (k =? 3)%nat then Some (LStr (acc +:+ utf8 v'), toks)
          else Some (LUni acc (S k) v', toks)
      | None => None
      end
  | LNum lit =>
      if is_digit c then Some (LNum (snoc lit c), toks)
      else match num_val lit with
           | Some z => lex_norm c (TNum z :: toks)
           | None => None
           end
  | LWord w =>
      if is_lower c then Some (LWord (snoc w c), toks)
      else match word_tok w with
           | Some t => lex_norm c (t :: toks)
           | None => None
           end
  end.

Definition lex_end (m : lmode) (toks : list token) : option (list token) :=
  match m with
  | LNorm => Some (rev toks)
  | LNum lit => (fun z => rev (TNum z :: toks)) <$> num_val lit
  | LWord w => (fun t => rev (t :: toks)) <$> word_tok w
  | LStr _ | LEsc _ | LUni _ _ _ => None
  end.

Fixpoint lex_from (m : lmode) (s : string) (toks : list token) : option (list token) :=
  match s with
  | EmptyString => lex_end m toks
  | String c r =>
      match lex_step m c toks with
      | Some (m', toks') => lex_from m' r toks'
      | None => None
      end
  end.

Definition lex (s : string) : option (list token) := lex_from LNorm s [].

(** *** Parsing the tokens *)

Inductive goal : Type :=
| GValue
| GElems (acc : list json)
| GMembers (acc : list (string * json)).

Fixpoint parse (fuel : nat) (g : goal) (ts : list token) : option (json * list token) :=
  match fuel with
  | O => None
  | S f =>
      match g with
      | GValue =>
          match ts with
          | TNull :: r => Some (JNull, r)
          | TTrue :: r => Some (JBool true, r)
          | TFalse :: r => Some (JBool false, r)
          | TNum z :: r => Some (JNum z, r)
          | TStr s :: r => Some (JStr s, r)
          | TLBracket :: TRBracket :: r => Some (JArr [], r)
          | TLBracket :: r => parse f (GElems []) r
          | TLBrace :: TRBrace :: r => Some (JObj [], r)
          | TLBrace :: r => parse f (GMembers []) r
          | _ => None
          end
      | GElems acc =>
          match parse f GValue ts with
          | Some (v, TComma :: r) => parse f (GElems (acc ++ [v])) r
          | Some (v, TRBracket :: r) => Some (JArr (acc ++ [v]), r)
          | _ => None
          end
      | GMembers acc =>
          match ts with
          | TStr k :: TColon :: r =>
              match parse f GValue r with
              | Some (v, TComma :: r') => parse f (GMembers (acc ++ [(k, v)])) r'
              | Some (v, TRBrace :: r') => Some (JObj (acc ++ [(k, v)]), r')
              | _ => None
              end
          | _ => None
          end
      end
  end.

(** [JSON.parse(text)]; [None] is the thrown [SyntaxError].  The grammar
    is the one above: on a text with a number literal that has a fraction or
    an exponent, which the real parser accepts, the answer here is [None]
    too, and an integer literal is kept exact whatever its size.  The
    statements below take the answer of the parser as it comes; none of them
    is about such a text. *)
Definition JSON_parse (text : string) : option json :=
  match lex text with
  | Some ts =>
      match parse (2 * List.length ts + 2) GValue ts with
      | Some (v, []) => Some v
      | _ => None
      end
  | None => None
  end.

(** *** Printing

    Every printer takes the text that follows, so that the output of
    [JSON_stringify] is built front to back. *)

Definition hex_digit (n : N) : ascii :=
  if (n <? 10)%N then chr (48 + n) else chr (87 + n).

Definition escape_char (c : ascii) (tail : string) : string :=
  let n := code c in
  if (n =? 34)%N then String JS.bs (String JS.dq tail)
  else if (n =? 92)%N then String JS.bs (String JS.bs tail)
  else if (n =? 8)%N then String JS.bs (String "b" tail)
  else if (n =? 12)%N then String JS.bs (String "f" tail)
  else if (n =? 10)%N then String JS.bs (String "n" tail)
  else if (n =? 13)%N then String JS.bs (String "r" tail)
  else if (n =? 9)%N then String JS.bs (String "t" tail)
  else if (n <? 32)%N then
    String JS.bs (String "u" (String "0" (String "0"
      (String (hex_digit (n / 16)) (String (hex_digit (n mod 16)) tail)))))
  else String c tail.

Fixpoint escape (s : string) (tail : string) : string :=
  match s with
  | EmptyString => tail
  | String c r => escape_char c (escape r tail)
  end.

Definition quote (s : string) (tail : string) : string :=
  String JS.dq (escape s (String JS.dq tail)).

Definition string_of_Z (z : Z) : string := NilZero.string_of_int (Z.to_int z).

Fixpoint stringify_to (v : json) (tail : string) : string :=
  match v with
  | JNull => "null" +:+ tail
  | JBool true => "true" +:+ tail
  | JBool false => "false" +:+ tail
  | JNum z => string_of_Z z +:+ tail
  | JStr s => quote s tail
  | JArr items =>
      String "[" ((fix elems (l : list json) (first : bool) : string :=
                     match l with
                     | [] => String "]" tail
                     | x :: r =>
                         (if first then EmptyString else ",") +:+
                         stringify_to x (elems r false)
                     end) items true)
  | JObj members =>
      String "{" ((fix mems (l : list (string * json)) (first : bool) : string :=
                     match l with
                     | [] => String "}" tail
                     | (k, x) :: r =>
                         (if first then EmptyString else ",") +:+
                         quote k (String ":" (stringify_to x (mems r false)))
                     end) members true)
  end.

(** [JSON.stringify(v)]. *)
Definition JSON_stringify (v : json) : string := stringify_to v EmptyString.

(** A JSON text typed with [']; for the double quote. *)
Fixpoint dquote (s : string) : string :=
  match s with
  | EmptyString => EmptyString
  | String c r => String (if (code c =? 39)%N then JS.dq else c) (dquote r)
  end.

End JSON.

Import JSON.


(** ** [src/types.ts] *)

Module Types.

Record CarouselSegment : Type := {
  id : Z;
  logicalStep : string;
  keyMessage : string;
  visualPrompt : string;
  imageUrl : option string
}.

Inductive AspectRatio : Type := Ratio_1_1 | Ratio_4_5.

Inductive WorkflowState : Type :=
| idle | planning | generating_images | generating_caption | completed.

Inductive ScreenState : Type := home | planner.

Definition with_imageUrl (s : CarouselSegment) (url : string) : CarouselSegment :=
  {| id := id s; logicalStep := logicalStep s; keyMessage := keyMessage s;
     visualPrompt := visualPrompt s; imageUrl := Some url |}.

(** A parsed value read at the type [CarouselSegment]: an object with the
    four required members at their types and, when it has one, a string
    [imageUrl].  Other members are allowed, as in TypeScript. *)
Definition as_CarouselSegment (v : json) : option CarouselSegment :=
  match v with
  | JObj ms =>
      match get "id" ms, get "logicalStep" ms, get "keyMessage" ms,
            get "visualPrompt" ms with
      | Some (JNum i), Some (JStr a), Some (JStr b), Some (JStr c) =>
          match get "imageUrl" ms with
          | None =>
              Some {| id := i; logicalStep := a; keyMessage := b;
                      visualPrompt := c; imageUrl := None |}
          | Some (JStr u) =>
              Some {| id := i; logicalStep := a; keyMessage := b;
                      visualPrompt := c; imageUrl := Some u |}
          | Some _ => None
          end
      | _, _, _, _ => None
      end
  | _ => None
  end.

(** [v as CarouselSegment[]], where [v] has that type. *)
Definition as_CarouselSegments (v : json) : option (list CarouselSegment) :=
  match v with
  | JArr items => mapM as_CarouselSegment items
  | _ => None
  end.

End Types.

Import Types.

(** ** Exceptions *)

(** What a [catch (e)] receives: a thrown string, or an [Error] object given
    by its own properties in order ([stack], [message] and whatever the
    thrower added). *)
Inductive Thrown : Type :=
| ThrownString (s : string)
| ThrownError (own : list (string * json)).

(** [e.message], when it is a string. *)
Definition message_of (e : Thrown) : option string :=
  match e with
  | ThrownString _ => None
  | ThrownError own =>
      match get "message" own with
      | Some (JStr m) => Some m
      | _ => None
      end
  end.

(** What the JavaScript engine adds to the code's own errors: the frames of
    the stack text and the message of a [SyntaxError] of [JSON.parse]. *)
Record Engine : Type := {
  stack_frames : string;
  syntax_message : string → string
}.

(** [new Error(msg)]. *)
Definition new_Error (eng : Engine) (msg : string) : Thrown :=
  ThrownError [("stack", JStr ("Error: " +:+ msg +:+ stack_frames eng));
               ("message", JStr msg)].

(** The [SyntaxError] thrown by [JSON.parse(text)]. *)
Definition SyntaxError (eng : Engine) (text : string) : Thrown :=
  ThrownError [("stack", JStr ("SyntaxError: " +:+ syntax_message eng text +:+
                               stack_frames eng));
               ("message", JStr (syntax_message eng text))].

Inductive Result (A : Type) : Type :=
| Ok (a : A)
| Throw (e : Thrown).
Arguments Ok {A} a.
Arguments Throw {A} e.

(** ** The provider: [ai.models.generateContent] *)

(** A request, by what the code puts into it.  The model name, the prompt
    text and the inline parts made of the reference images are functions of
    these arguments. *)
Inductive Request : Type :=
| ReqTest (apiKey : string)
| ReqPlan (apiKey topic : string) (count : Z) (ratio : AspectRatio)
          (referenceImages : list string)
| ReqImage (apiKey : string) (segment : CarouselSegment) (ratio : AspectRatio)
           (referenceImages : list string)
| ReqPost (apiKey topic summary : string).

Record InlineData : Type := { data : option string; mimeType : option string }.

Record Part : Type := { part_text : option string; inlineData : option InlineData }.

(** [response.text] and [response.candidates?.[0]?.content?.parts]. *)
Record Response : Type := { text : option string; parts : option (list Part) }.

Inductive Outcome : Type :=
| Resolves (r : Response)
| Rejects (e : Thrown).

(** The provider answers the [n]-th call of the session. *)
Definition Provider : Type := nat → Request → Outcome.

(** ** What the user sees *)

Inductive Alert : Type :=
| AlertTooManyImages
    (* "Up to 20 reference images can be uploaded." *)
| AlertInvalidKey
    (* "The API key is not valid. Please select it again." *)
| AlertAutomationFailed (message : option string)
    (* "An error occurred during automation: ${e.message}" *)
| AlertSaveNeedsBoth
    (* "Enter both the API key and the encryption password." *)
| AlertSaved
    (* "Saved safely to the local drive." *)
| AlertNeedPassword
    (* "Enter the password first, for decryption." *)
| AlertLoaded
    (* "The API key was loaded. Run the connection test." *)
| AlertLoadFailed.
    (* "Reading or decrypting the file failed. Check the password." *)

Inductive Status : Type := st_idle | st_testing | st_success | st_error.

Inductive Message : Type :=
| MsgNone
| MsgEnterKey
    (* "Enter an API key." *)
| MsgTestOk
    (* "Connection test succeeded! This key is applied to the app." *)
| MsgValidOverloaded
    (* "The API key is valid! (Google's servers are busy at the moment, but
       the key has been registered.)" *)
| MsgConnFailed (detail : option string).
    (* "Connection failed: ${e.message || 'unknown error'}" *)

(** What happens, in order. *)
Inductive Event : Type :=
| EvIssue (n : nat) (req : Request)
| EvSettle (n : nat) (o : Outcome)
| EvSetWorkflowState (s : WorkflowState)
| EvSetSegments (published : list CarouselSegment)
| EvSetImageUrl (ref : nat) (url : string)
| EvSetPostData (post : option json)
| EvSetHasApiKey (b : bool)
| EvStorageSet (value : string)
| EvKeyUpdated
| EvSaveAs (name content : string)
| EvConsoleError (e : Thrown)
| EvAlert (a : Alert).

(** ** The state *)

(** [localStorage]'s slot [CUSTOM_GEMINI_API_KEY] and the two environment
    values. *)
Record Storage : Type := {
  stored : option string;
  env_API_KEY : option string;
  env_GEMINI_API_KEY : option string
}.

(** The state of [App].  [segments] is an array of references into the
    [heap] of the world: the objects of a plan are shared by every array
    made from it. *)
Record AppState : Type := {
  screen : ScreenState;
  topic : string;
  count : Z;
  ratio : AspectRatio;
  referenceImages : list string;
  segments : list nat;
  postData : option json;
  workflowState : WorkflowState;
  hasApiKey : bool;
  isKeyManagerOpen : bool;
  copied : bool
}.

(** The state of [ApiKeyManager]. *)
Record MgrState : Type := {
  apiKey : string;
  password : string;
  status : Status;
  message : Message
}.

Record World : Type := {
  storage : Storage;
  app : AppState;
  mgr : MgrState;
  heap : list CarouselSegment;
  pending_reads : list string;
  calls : nat;
  trace : list Event;
  engine : Engine
}.

Definition with_storage (f : Storage → Storage) (w : World) : World :=
  {| storage := f (storage w); app := app w; mgr := mgr w; heap := heap w;
     pending_reads := pending_reads w; calls := calls w; trace := trace w;
     engine := engine w |}.

Definition with_app (f : AppState → AppState) (w : World) : World :=
  {| storage := storage w; app := f (app w); mgr := mgr w; heap := heap w;
     pending_reads := pending_reads w; calls := calls w; trace := trace w;
     engine := engine w |}.

Definition with_mgr (f : MgrState → MgrState) (w : World) : World :=
  {| storage := storage w; app := app w; mgr := f (mgr w); heap := heap w;
     pending_reads := pending_reads w; calls := calls w; trace := trace w;
     engine := engine w |}.

Definition with_heap (f : list CarouselSegment → list CarouselSegment) (w : World) : World :=
  {| storage := storage w; app := app w; mgr := mgr w; heap := f (heap w);
     pending_reads := pending_reads w; calls := calls w; trace := trace w;
     engine := engine w |}.

Definition with_pending (f : list string → list string) (w : World) : World :=
  {| storage := storage w; app := app w; mgr := mgr w; heap := heap w;
     pending_reads := f (pending_reads w); calls := calls w; trace := trace w;
     engine := engine w |}.

Definition tick (w : World) : World :=
  {| storage := storage w; app := app w; mgr := mgr w; heap := heap w;
     pending_reads := pending_reads w; calls := S (calls w); trace := trace w;
     engine := engine w |}.

Definition log (ev : Event) (w : World) : World :=
  {| storage := storage w; app := app w; mgr := mgr w; heap := heap w;
     pending_reads := pending_reads w; calls := calls w;
     trace := trace w ++ [ev]; engine := engine w |}.

(** The segments as an observer of the state reads them. *)
Definition deref (h : list CarouselSegment) (refs : list nat) : list CarouselSegment :=
  omap (λ r, h !! r) refs.

Definition view (w : World) : list CarouselSegment :=
  deref (heap w) (segments (app w)).

(** *** The setters of [useState] *)

Definition app_set_screen (v : ScreenState) (a : AppState) : AppState :=
  {| screen := v; topic := topic a; count := count a; ratio := ratio a;
     referenceImages := referenceImages a; segments := segments a;
     postData := postData a; workflowState := workflowState a;
     hasApiKey := hasApiKey a; isKeyManagerOpen := isKeyManagerOpen a;
     copied := copied a |}.

Definition app_set_topic (v : string) (a : AppState) : AppState :=
  {| screen := screen a; topic := v; count := count a; ratio := ratio a;
     referenceImages := referenceImages a; segments := segments a;
     postData := postData a; workflowState := workflowState a;
     hasApiKey := hasApiKey a; isKeyManagerOpen := isKeyManagerOpen a;
     copied := copied a |}.

Definition app_set_referenceImages (v : list string) (a : AppState) : AppState :=
  {| screen := screen a; topic := topic a; count := count a;
     ratio := ratio a; referenceImages := v; segments := segments a;
     postData := postData a; workflowState := workflowState a;
     hasApiKey := hasApiKey a; isKeyManagerOpen := isKeyManagerOpen a;
     copied := copied a |}.

Definition app_set_segments (v : list nat) (a : AppState) : AppState :=
  {| screen := screen a; topic := topic a; count := count a;
     ratio := ratio a; referenceImages := referenceImages a; segments := v;
     postData := postData a; workflowState := workflowState a;
     hasApiKey := hasApiKey a; isKeyManagerOpen := isKeyManagerOpen a;
     copied := copied a |}.

Definition app_set_postData (v : option json) (a : AppState) : AppState :=
  {| screen := screen a; topic := topic a; count := count a;
     ratio := ratio a; referenceImages := referenceImages a;
     segments := segments a; postData := v; workflowState := workflowState a;
     hasApiKey := hasApiKey a; isKeyManagerOpen := isKeyManagerOpen a;
     copied := copied a |}.

Definition app_set_workflowState (v : WorkflowState) (a : AppState) : AppState :=
  {| screen := screen a; topic := topic a; count := count a;
     ratio := ratio a; referenceImages := referenceImages a;
     segments := segments a; postData := postData a; workflowState := v;
     hasApiKey := hasApiKey a; isKeyManagerOpen := isKeyManagerOpen a;
     copied := copied a |}.

Definition app_set_hasApiKey (v : bool) (a : AppState) : AppState :=
  {| screen := screen a; topic := topic a; count := count a;
     ratio := ratio a; referenceImages := referenceImages a;
     segments := segments a; postData := postData a;
     workflowState := workflowState a; hasApiKey := v;
     isKeyManagerOpen := isKeyManagerOpen a; copied := copied a |}.

Definition app_set_isKeyManagerOpen (v : bool) (a : AppState) : AppState :=
  {| screen := screen a; topic := topic a; count := count a;
     ratio := ratio a; referenceImages := referenceImages a;
     segments := segments a; postData := postData a;
     workflowState := workflowState a; hasApiKey := hasApiKey a;
     isKeyManagerOpen := v; copied := copied a |}.

Definition app_set_copied (v : bool) (a : AppState) : AppState :=
  {| screen := screen a; topic := topic a; count := count a;
     ratio := ratio a; referenceImages := referenceImages a;
     segments := segments a; postData := postData a;
     workflowState := workflowState a; hasApiKey := hasApiKey a;
     isKeyManagerOpen := isKeyManagerOpen a; copied := v |}.

Definition mgr_set_apiKey (v : string) (m : MgrState) : MgrState :=
  {| apiKey := v; password := password m; status := status m;
     message := message m |}.

Definition mgr_set_password (v : string) (m : MgrState) : MgrState :=
  {| apiKey := apiKey m; password := v; status := status m;
     message := message m |}.

Definition mgr_set_status (v : Status) (m : MgrState) : MgrState :=
  {| apiKey := apiKey m; password := password m; status := v;
     message := message m |}.

Definition mgr_set_message (v : Message) (m : MgrState) : MgrState :=
  {| apiKey := apiKey m; password := password m; status := status m;
     message := v |}.

Definition storage_set (v : string) (s : Storage) : Storage :=
  {| stored := Some v; env_API_KEY := env_API_KEY s;
     env_GEMINI_API_KEY := env_GEMINI_API_KEY s |}.

Definition setScreen (v : ScreenState) : World → World := with_app (app_set_screen v).
Definition setTopic (v : string) : World → World := with_app (app_set_topic v).
Definition setReferenceImages (v : list string) : World → World :=
  with_app (app_set_referenceImages v).
Definition setCopied (v : bool) : World → World := with_app (app_set_copied v).
Definition setIsKeyManagerOpen (v : bool) : World → World :=
  with_app (app_set_isKeyManagerOpen v).

(** [setSegments(arr)] publishes the array: observers read its objects from
    the heap as they are at that moment. *)
Definition setSegments (arr : list nat) (w : World) : World :=
  log (EvSetSegments (deref (heap w) arr)) (with_app (app_set_segments arr) w).

Definition setPostData (v : option json) (w : World) : World :=
  log (EvSetPostData v) (with_app (app_set_postData v) w).

Definition setWorkflowState (v : WorkflowState) (w : World) : World :=
  log (EvSetWorkflowState v) (with_app (app_set_workflowState v) w).

Definition setHasApiKey (v : bool) (w : World) : World :=
  log (EvSetHasApiKey v) (with_app (app_set_hasApiKey v) w).

Definition setApiKey (v : string) : World → World := with_mgr (mgr_set_apiKey v).
Definition setPassword (v : string) : World → World := with_mgr (mgr_set_password v).
Definition setStatus (v : Status) : World → World := with_mgr (mgr_set_status v).
Definition setMessage (v : Message) : World → World := with_mgr (mgr_set_message v).

Definition alert (a : Alert) : World → World := log (EvAlert a).

(** [localStorage.setItem('CUSTOM_GEMINI_API_KEY', v)]. *)
Definition localStorage_setItem (v : string) (w : World) : World :=
  log (EvStorageSet v) (with_storage (storage_set v) w).

(** [obj.imageUrl = url] on the object behind reference [r]. *)
Definition set_imageUrl (r : nat) (url : string) (w : World) : World :=
  log (EvSetImageUrl r url)
      (with_heap (λ h, match h !! r with
                       | Some s => <[r := with_imageUrl s url]> h
                       | None => h
                       end) w).

(** ** The generation client ([services/ai]) *)

(** [getApiKey]: the stored value, or else [process.env.API_KEY], or else
    [process.env.GEMINI_API_KEY]. *)
Definition getApiKey (w : World) : option string :=
  JS.or_else (JS.or_else (stored (storage w)) (env_API_KEY (storage w)))
             (env_GEMINI_API_KEY (storage w)).

(** [await ai.models.generateContent(...)]: the call is issued, the task is
    suspended, and it resumes with the provider's outcome. *)
Definition generateContent (prov : Provider) (req : Request) (w : World)
  : Outcome * World :=
  let n := calls w in
  let o := prov n req in
  (o, log (EvSettle n o) (log (EvIssue n req) (tick w))).

Definition generatePlan (prov : Provider) (topic : string) (count : Z)
    (ratio : AspectRatio) (referenceImages : list string) (w : World)
  : Result json * World :=
  match getApiKey w with
  | Some key =>
      if JS.truthy key then
        match generateContent prov (ReqPlan key topic count ratio referenceImages) w with
        | (Rejects e, w1) => (Throw e, w1)
        | (Resolves r, w1) =>
            match text r with
            | Some t =>
                if JS.truthy t then
                  match JSON_parse t with
                  | Some v => (Ok v, w1)
                  | None => (Throw (SyntaxError (engine w) t), w1)
                  end
                else (Throw (new_Error (engine w) "Failed to generate plan"), w1)
            | None => (Throw (new_Error (engine w) "Failed to generate plan"), w1)
            end
        end
      else (Throw (new_Error (engine w) "API Key is missing."), w)
  | None => (Throw (new_Error (engine w) "API Key is missing."), w)
  end.

(** The first part of the response that has [inlineData]. *)
Definition first_inline (ps : list Part) : option InlineData :=
  match List.find (λ p, match inlineData p with Some _ => true | None => false end) ps with
  | Some p => inlineData p
  | None => None
  end.

Definition png_prefix : string := "data:image/png;base64,".

Definition generateImage (prov : Provider) (segment : CarouselSegment)
    (ratio : AspectRatio) (referenceImages : list string) (w : World)
  : Result string * World :=
  match getApiKey w with
  | Some key =>
      if JS.truthy key then
        match generateContent prov (ReqImage key segment ratio referenceImages) w with
        | (Rejects e, w1) => (Throw e, w1)
        | (Resolves r, w1) =>
            match first_inline (default [] (parts r)) with
            | Some d => (Ok (png_prefix +:+ JS.template (data d)), w1)
            | None => (Throw (new_Error (engine w) "Failed to generate image"), w1)
            end
        end
      else (Throw (new_Error (engine w) "API Key is missing."), w)
  | None => (Throw (new_Error (engine w) "API Key is missing."), w)
  end.

Definition newline : string := String (chr 10) EmptyString.

(** [segments.map(s => `- ${s.logicalStep}: ${s.keyMessage}`).join('\n')]. *)
Definition summary_of (segs : list CarouselSegment) : string :=
  JS.join newline (map (λ s, "- " +:+ logicalStep s +:+ ": " +:+ keyMessage s) segs).

Definition generateInstagramPost (prov : Provider) (topic : string)
    (segs : list CarouselSegment) (w : World) : Result json * World :=
  match getApiKey w with
  | Some key =>
      if JS.truthy key then
        match generateContent prov (ReqPost key topic (summary_of segs)) w with
        | (Rejects e, w1) => (Throw e, w1)
        | (Resolves r, w1) =>
            match text r with
            | Some t =>
                if JS.truthy t then
                  match JSON_parse t with
                  | Some v => (Ok v, w1)
                  | None => (Throw (SyntaxError (engine w) t), w1)
                  end
                else (Throw (new_Error (engine w) "Failed to generate post data"), w1)
            | None => (Throw (new_Error (engine w) "Failed to generate post data"), w1)
            end
        end
      else (Throw (new_Error (engine w) "API Key is missing."), w)
  | None => (Throw (new_Error (engine w) "API Key is missing."), w)
  end.

(** ** The application ([App.tsx]) *)

Definition checkApiKey (w : World) : World :=
  setHasApiKey (JS.truthy_opt (getApiKey w)) w.

Definition handleGoHome (w : World) : World :=
  setScreen home
    (setWorkflowState idle
       (setPostData None
          (setReferenceImages []
             (setSegments [] (setTopic EmptyString w))))).

(** *** Reference images

    A file is given by the data URL its read produces.  [handleImageUpload]
    starts one read per file and returns; each read ends later, in its own
    turn of the event loop, with [reader.onload]. *)

Definition handleImageUpload (files : list string) (w : World) : World :=
  if (20 <? length (referenceImages (app w)) + length files)%nat
  then alert AlertTooManyImages w
  else with_pending (λ p, p ++ files) w.

(** The [j]-th read still pending ends:
    [setReferenceImages(prev => [...prev, result])] when the result is
    truthy. *)
Definition reader_onload (j : nat) (w : World) : World :=
  match pending_reads w !! j with
  | Some result =>
      let w1 := with_pending (delete j) w in
      if JS.truthy result
      then setReferenceImages (referenceImages (app w1) ++ [result]) w1
      else w1
  | None => w
  end.

(** [prev.filter((_, i) => i !== index)]. *)
Definition removeReferenceImage (index : nat) (w : World) : World :=
  setReferenceImages (delete index (referenceImages (app w))) w.

(** What can happen to the reference images, one turn of the event loop at
    a time. *)
Inductive UiEvent : Type :=
| Upload (files : list string)
| ReadDone (j : nat)
| Remove (index : nat)
| GoHome.

Definition ui_step (w : World) (ev : UiEvent) : World :=
  match ev with
  | Upload files => handleImageUpload files w
  | ReadDone j => reader_onload j w
  | Remove index => removeReferenceImage index w
  | GoHome => handleGoHome w
  end.

Definition ui_run (evs : list UiEvent) (w : World) : World :=
  fold_left ui_step evs w.

(** *** The workflow *)

(** The [catch] block of [handleStartAutomation]. *)
Definition entity_not_found (e : Thrown) : bool :=
  match message_of e with
  | Some m => JS.includes m "Requested entity was not found"
  | None => false
  end.

Definition catch (e : Thrown) (w : World) : World :=
  let w := setWorkflowState idle (log (EvConsoleError e) w) in
  if entity_not_found e
  then alert AlertInvalidKey (setHasApiKey false w)
  else alert (AlertAutomationFailed (message_of e)) w.

(** The loop [for (let i = 0; i < newSegments.length; i++)], with [todo]
    iterations left: the image of [newSegments[i]] is awaited, stored in the
    object and a copy of the array is published.  It returns the exception
    that ended it, if one did. *)
Fixpoint image_loop (prov : Provider) (ratio : AspectRatio)
    (referenceImages : list string) (newSegments : list nat)
    (todo i : nat) (w : World) : option Thrown * World :=
  match todo with
  | O => (None, w)
  | S todo' =>
      match newSegments !! i ≫= (λ r, (λ s, (r, s)) <$> heap w !! r) with
      | Some (r, seg) =>
          match generateImage prov seg ratio referenceImages w with
          | (Throw e, w1) => (Some e, w1)
          | (Ok imgUrl, w1) =>
              let w2 := set_imageUrl r imgUrl w1 in
              let w3 := setSegments newSegments w2 in
              image_loop prov ratio referenceImages newSegments todo' (S i) w3
          end
      | None => (None, w)
      end
  end.

(** How a run of [handleStartAutomation] ends.  [JSON.parse(text) as
    CarouselSegment[]] is not checked: a parsed plan that is not of that
    type leaves the typed embedding, and the run is [OutsideTypes]. *)
Inductive Run : Type :=
| Done (w : World)
| OutsideTypes (v : json).

(** [handleStartAutomation], from the click to the end of the task.  The
    values of the render in which the button was clicked ([topic], [count],
    [ratio], [referenceImages], [hasApiKey]) are those of [w0]; no other
    handler runs in between. *)
Definition handleStartAutomation (prov : Provider) (w0 : World) : Run :=
  let a := app w0 in
  if negb (hasApiKey a) then Done (setIsKeyManagerOpen true w0)
  else if negb (JS.truthy (topic a)) then Done w0
  else
    let w := setCopied false (setPostData None (setSegments [] w0)) in
    let w := setWorkflowState planning w in
    match generatePlan prov (topic a) (count a) (ratio a) (referenceImages a) w with
    | (Throw e, w) => Done (catch e w)
    | (Ok v, w) =>
        match as_CarouselSegments v with
        | None => OutsideTypes v
        | Some objects =>
            let plan := seq 0 (length objects) in
            let w := setSegments plan (with_heap (λ _, objects) w) in
            let w := setWorkflowState generating_images w in
            let newSegments := plan in
            match image_loop prov (ratio a) (referenceImages a) newSegments
                    (length newSegments) 0 w with
            | (Some e, w) => Done (catch e w)
            | (None, w) =>
                let w := setWorkflowState generating_caption w in
                match generateInstagramPost prov (topic a)
                        (deref (heap w) newSegments) w with
                | (Throw e, w) => Done (catch e w)
                | (Ok post, w) =>
                    Done (setWorkflowState completed (setPostData (Some post) w))
                end
            end
        end
    end.

(** ** The credential dialog ([ApiKeyManager.tsx]) *)

Definition onKeyUpdated (w : World) : World := checkApiKey (log EvKeyUpdated w).

(** [JSON.stringify(v, names)]: in every object only the members named in
    [names] are printed, in the order of [names]. *)
Definition select (names : list string) (ms : list (string * json))
  : list (string * json) :=
  omap (λ n, (λ v, (n, v)) <$> get n ms) (remove_dups names).

Fixpoint restrict (names : list string) (v : json) : json :=
  match v with
  | JArr items => JArr (map (restrict names) items)
  | JObj ms =>
      JObj (select names
              ((fix members (l : list (string * json)) : list (string * json) :=
                  match l with
                  | [] => []
                  | (k, x) :: r => (k, restrict names x) :: members r
                  end) ms))
  | _ => v
  end.

(** [typeof e === 'string' ? e
      : JSON.stringify(e, Object.getOwnPropertyNames(e))]. *)
Definition errorString (e : Thrown) : string :=
  match e with
  | ThrownString s => s
  | ThrownError own => JSON_stringify (restrict (map fst own) (JObj own))
  end.

(** The test of line 52: a 503, that is, the model is overloaded and the
    key itself is valid. *)
Definition is_overloaded (errorString : string) : bool :=
  JS.includes errorString "503" || JS.includes errorString "UNAVAILABLE"
  || JS.includes errorString "high demand".

Definition handleTest_catch (e : Thrown) (w : World) : World :=
  if is_overloaded (errorString e) then
    onKeyUpdated
      (localStorage_setItem (apiKey (mgr w))
         (setMessage MsgValidOverloaded (setStatus st_success w)))
  else
    setMessage
      (MsgConnFailed (match message_of e with
                      | Some m => if JS.truthy m then Some m else None
                      | None => None
                      end))
      (setStatus st_error w).

(** [handleTest], the [await] included. *)
Definition handleTest (prov : Provider) (w0 : World) : World :=
  let key := apiKey (mgr w0) in
  if negb (JS.truthy key) then setStatus st_error (setMessage MsgEnterKey w0)
  else
    match generateContent prov (ReqTest key) (setStatus st_testing w0) with
    | (Resolves r, w) =>
        if JS.truthy_opt (text r) then
          onKeyUpdated
            (localStorage_setItem key
               (setMessage MsgTestOk (setStatus st_success w)))
        else handleTest_catch (new_Error (engine w) "No response") w
    | (Rejects e, w) => handleTest_catch e w
    end.

(** [!!v] and [String(v)] for a parsed value. *)
Definition js_truthy (v : json) : bool :=
  match v with
  | JNull => false
  | JBool b => b
  | JNum z => negb (z =? 0)%Z
  | JStr s => JS.truthy s
  | JArr _ | JObj _ => true
  end.

Fixpoint js_String (v : json) : string :=
  match v with
  | JNull => "null"
  | JBool true => "true"
  | JBool false => "false"
  | JNum z => string_of_Z z
  | JStr s => s
  | JArr items =>
      JS.join "," (map (λ x, match x with JNull => EmptyString | _ => js_String x end) items)
  | JObj _ => "[object Object]"
  end.

Section Cipher.

(** [CryptoJS.AES] with a passphrase.  Encryption draws a random salt;
    [AES_encrypt salt data pass] is the text of the result for that salt.
    [AES_decrypt_Utf8 blob pass] is
    [CryptoJS.AES.decrypt(blob, pass).toString(CryptoJS.enc.Utf8)]: [None]
    when the bytes are not UTF-8 and [toString] throws. *)
Variable Salt : Type.
Variable AES_encrypt : Salt → string → string → string.
Variable AES_decrypt_Utf8 : string → string → option string.

(** [JSON.stringify({ GEMINI_API_KEY: apiKey })]. *)
Definition key_file (key : string) : string :=
  JSON_stringify (JObj [("GEMINI_API_KEY", JStr key)]).

(** [handleSave].  The cipher and [saveAs] are total here, so the [catch]
    of the handler is not reached. *)
Definition handleSave (salt : Salt) (w : World) : World :=
  let key := apiKey (mgr w) in
  let pass := password (mgr w) in
  if negb (JS.truthy key) || negb (JS.truthy pass) then alert AlertSaveNeedsBoth w
  else
    let encrypted := AES_encrypt salt (key_file key) pass in
    alert AlertSaved
      (onKeyUpdated
         (localStorage_setItem key
            (log (EvSaveAs "api-keys.enc" encrypted) w))).

(** [reader.onload] of [handleLoad], with the password of the handler's
    closure.  Every exception of the [try] block ends in the same alert. *)
Definition handleLoad_onload (encrypted pass : string) (w : World) : World :=
  match AES_decrypt_Utf8 encrypted pass with
  | None => alert AlertLoadFailed w
  | Some decryptedText =>
      if negb (JS.truthy decryptedText) then alert AlertLoadFailed w
      else
        match JSON_parse decryptedText with
        | None => alert AlertLoadFailed w
        | Some JNull => alert AlertLoadFailed w
        | Some (JObj ms) =>
            match get "GEMINI_API_KEY" ms with
            | Some v =>
                if js_truthy v then
                  alert AlertLoaded
                    (onKeyUpdated
                       (localStorage_setItem (js_String v)
                          (setApiKey (js_String v) w)))
                else w
            | None => w
            end
        | Some _ => w
        end
  end.

(** [handleLoad]: [file] is the text of the chosen file, if one was
    chosen.  The read of the file and its [onload] are taken in one step;
    the reset of the input element is not part of the state. *)
Definition handleLoad (file : option string) (w : World) : World :=
  match file with
  | None => w
  | Some encrypted =>
      let pass := password (mgr w) in
      if negb (JS.truthy pass) then alert AlertNeedPassword w
      else handleLoad_onload encrypted pass w
  end.

End Cipher.

(** ** Definitions used in the statements *)

(** A cipher for the examples: the blob is the passphrase, each character
    behind a [k], then a dot, then the data.  It keeps the two laws that the
    theorems on export and import assume of the real one. *)
Module ToyCipher.

Fixpoint tag (pass : string) : string :=
  match pass with
  | EmptyString => "."
  | String c r => String "k" (String c (tag r))
  end.

Definition encrypt (salt : unit) (data pass : string) : string := tag pass +:+ data.

Fixpoint strip (pre s : string) : option string :=
  match pre with
  | EmptyString => Some s
  | String c r =>
      match s with
      | String d t => if Ascii.eqb c d then strip r t else None
      | EmptyString => None
      end
  end.

Definition decrypt_Utf8 (blob pass : string) : option string := strip (tag pass) blob.

End ToyCipher.

(** The state after the first render: nothing stored, nothing typed. *)
Definition engine0 : Engine :=
  {| stack_frames := newline +:+ "    at handleTest (ApiKeyManager.tsx:46:15)";
     syntax_message := λ _, "Unexpected token in JSON" |}.

Definition app0 : AppState :=
  {| screen := home; topic := EmptyString; count := 5%Z; ratio := Ratio_1_1;
     referenceImages := []; segments := []; postData := None;
     workflowState := idle; hasApiKey := true; isKeyManagerOpen := false;
     copied := false |}.

Definition mgr0 : MgrState :=
  {| apiKey := EmptyString; password := EmptyString; status := st_idle;
     message := MsgNone |}.

Definition world0 (key : option string) : World :=
  checkApiKey
    {| storage := {| stored := key; env_API_KEY := None; env_GEMINI_API_KEY := None |};
       app := app0; mgr := mgr0; heap := []; pending_reads := []; calls := 0;
       trace := []; engine := engine0 |}.

(** The last alert shown. *)
Definition last_alert (w : World) : option Alert :=
  last (omap (λ ev, match ev with EvAlert a => Some a | _ => None end) (trace w)).

(** [n] segments whose ids are 1..n in order. *)
Definition ids_1_to (n : Z) (segs : list CarouselSegment) : Prop :=
  Z.of_nat (length segs) = n ∧
  ∀ i s, segs !! i = Some s → id s = (Z.of_nat i + 1)%Z.

(** The part [d] is the first of [ps] that carries inline data. *)
Definition first_inline_at (ps : list Part) (i : nat) (d : InlineData) : Prop :=
  (∃ p, ps !! i = Some p ∧ inlineData p = Some d) ∧
  ∀ j q, j < i → ps !! j = Some q → inlineData q = None.

(** The request of the plan call of a run started in [w]. *)
Definition plan_request (w : World) (key : string) : Request :=
  ReqPlan key (topic (app w)) (count (app w)) (ratio (app w)) (referenceImages (app w)).

(** The plan call of a run started in [w] resolves with a text that parses
    to [plan]. *)
Definition plan_resolves (prov : Provider) (w : World) (key : string)
    (plan : list CarouselSegment) : Prop :=
  getApiKey w = Some key ∧ JS.truthy key = true ∧
  ∃ r t v,
    prov (calls w) (plan_request w key) = Resolves r ∧
    text r = Some t ∧ JS.truthy t = true ∧ JSON_parse t = Some v ∧
    as_CarouselSegments v = Some plan.

(** Call number [n], the image call for [s], resolves with the data URL
    [u]. *)
Definition image_resolves (prov : Provider) (key : string) (ratio : AspectRatio)
    (refs : list string) (n : nat) (s : CarouselSegment) (u : string) : Prop :=
  ∃ r d, prov n (ReqImage key s ratio refs) = Resolves r ∧
         first_inline (default [] (parts r)) = Some d ∧
         u = png_prefix +:+ JS.template (data d).

(** Call number [n], the image call for [s], throws [e]: the provider
    rejects, or its response has no inline part. *)
Definition image_throws (prov : Provider) (eng : Engine) (key : string)
    (ratio : AspectRatio) (refs : list string) (n : nat) (s : CarouselSegment)
    (e : Thrown) : Prop :=
  prov n (ReqImage key s ratio refs) = Rejects e ∨
  ∃ r, prov n (ReqImage key s ratio refs) = Resolves r ∧
       first_inline (default [] (parts r)) = None ∧
       e = new_Error eng "Failed to generate image".

(** The plan with the images of its first segments set, one per url. *)
Fixpoint progress (plan : list CarouselSegment) (urls : list string)
  : list CarouselSegment :=
  match plan, urls with
  | s :: p, u :: us => with_imageUrl s u :: progress p us
  | _, _ => plan
  end.

(** The events of one turn of the image loop: the call for segment [j] is
    issued and settles, the url is stored in the object, the list is
    published. *)
Definition image_call_events (prov : Provider) (key : string) (ratio : AspectRatio)
    (refs : list string) (n : nat) (s : CarouselSegment) : list Event :=
  [EvIssue n (ReqImage key s ratio refs);
   EvSettle n (prov n (ReqImage key s ratio refs))].

Definition image_block (prov : Provider) (key : string) (ratio : AspectRatio)
    (refs : list string) (plan : list CarouselSegment) (urls : list string)
    (first_call j : nat) : list Event :=
  match plan !! j, urls !! j with
  | Some s, Some u =>
      image_call_events prov key ratio refs (first_call + j) s ++
      [EvSetImageUrl j u; EvSetSegments (progress plan (take (S j) urls))]
  | _, _ => []
  end.

Definition image_blocks (prov : Provider) (key : string) (ratio : AspectRatio)
    (refs : list string) (plan : list CarouselSegment) (urls : list string)
    (first_call : nat) (from upto : nat) : list Event :=
  concat (map (image_block prov key ratio refs plan urls first_call)
              (seq from (upto - from))).

Definition no_image (s : CarouselSegment) : Prop := imageUrl s = None.

(** An event that publishes or stores an image, or issues an image call. *)
Definition image_event (ev : Event) : bool :=
  match ev with
  | EvSetImageUrl _ _ => true
  | EvSetSegments _ => true
  | EvIssue _ (ReqImage _ _ _ _) => true
  | _ => false
  end.

(** An event that publishes a segment with an image. *)
Definition publishes_image (ev : Event) : bool :=
  match ev with
  | EvSetSegments l => existsb (λ s, match imageUrl s with Some _ => true | None => false end) l
  | EvSetImageUrl _ _ => true
  | _ => false
  end.

(** The events of the image call that throws, when one does: the call for
    the first segment without a url. *)
Definition fail_events (prov : Provider) (key : string) (ratio : AspectRatio)
    (refs : list string) (plan : list CarouselSegment) (urls : list string)
    (first_call : nat) (fail : option Thrown) : list Event :=
  match fail, plan !! length urls with
  | Some _, Some s => image_call_events prov key ratio refs (first_call + length urls) s
  | _, _ => []
  end.

(** How the image phase of a run goes: the calls for the first segments
    resolve with [urls], and then either every segment is done or the next
    call throws [e]. *)
Definition images_go (prov : Provider) (w : World) (key : string)
    (plan : list CarouselSegment) (urls : list string) (fail : option Thrown) : Prop :=
  length urls ≤ length plan ∧
  (∀ j s u, plan !! j = Some s → urls !! j = Some u →
     image_resolves prov key (ratio (app w)) (referenceImages (app w))
       (S (calls w) + j) s u) ∧
  match fail with
  | None => length urls = length plan
  | Some e =>
      ∃ s, plan !! length urls = Some s ∧
           image_throws prov (engine w) key (ratio (app w)) (referenceImages (app w))
             (S (calls w) + length urls) s e
  end.

(** The events of a run started in [w] up to the image phase. *)
Definition run_prefix (prov : Provider) (w : World) (key : string)
    (plan : list CarouselSegment) : list Event :=
  [EvSetSegments []; EvSetPostData None; EvSetWorkflowState planning;
   EvIssue (calls w) (plan_request w key);
   EvSettle (calls w) (prov (calls w) (plan_request w key));
   EvSetSegments plan; EvSetWorkflowState generating_images].

(** The events that [w'] has after those of [w]. *)
Definition events_since (w w' : World) : list Event :=
  drop (length (trace w)) (trace w').

(** The event stores an image in the object behind reference [j]. *)
Definition stores_image (j : nat) (ev : Event) : bool :=
  match ev with
  | EvSetImageUrl r _ => (r =? j)%nat
  | _ => false
  end.

(** The event reports to the user or to the console. *)
Definition is_report (ev : Event) : bool :=
  match ev with
  | EvAlert _ | EvConsoleError _ => true
  | _ => false
  end.

(** [w'] comes from [w] by calls to the provider and by changes of the
    state of [App] and of the heap: storage, dialog, pending reads and
    engine are those of [w], and nothing was reported. *)
Definition quietly (w w' : World) : Prop :=
  storage w' = storage w ∧ mgr w' = mgr w ∧ pending_reads w' = pending_reads w ∧
  engine w' = engine w ∧
  ∃ evs, trace w' = trace w ++ evs ∧ Forall (λ ev, is_report ev = false) evs.

(** The state of [App] once the plan is published and the image phase is
    entered. *)
Definition app_in_images (w0 : World) (plan : list CarouselSegment) : AppState :=
  app_set_workflowState generating_images
    (app_set_segments (seq 0 (length plan))
       (app_set_workflowState planning
          (app_set_copied false
             (app_set_postData None (app_set_segments [] (app w0)))))).

(** The world when the image loop of a run started in [w0] ends, after the
    calls for [urls] resolved and, with [fail], the next one threw. *)
Definition after_images (prov : Provider) (w0 : World) (key : string)
    (plan : list CarouselSegment) (urls : list string) (fail : option Thrown)
  : World :=
  {| storage := storage w0; app := app_in_images w0 plan; mgr := mgr w0;
     heap := progress plan urls; pending_reads := pending_reads w0;
     calls := S (calls w0) + length urls + (if fail is Some _ then 1 else 0);
     trace := trace w0 ++ run_prefix prov w0 key plan
              ++ image_blocks prov key (ratio (app w0)) (referenceImages (app w0))
                   plan urls (S (calls w0)) 0 (length urls)
              ++ fail_events prov key (ratio (app w0)) (referenceImages (app w0))
                   plan urls (S (calls w0)) fail;
     engine := engine w0 |}.

(** Step 3 of the run and its end, from the world [w] in which the caption
    phase is entered. *)
Definition caption_phase (prov : Provider) (topic : string)
    (segs : list CarouselSegment) (w : World) : World :=
  match generateInstagramPost prov topic segs w with
  | (Throw e, w1) => catch e w1
  | (Ok post, w1) => setWorkflowState completed (setPostData (Some post) w1)
  end.

(** The exception that reaches the [catch] of [handleTest], if one does:
    the provider's, or the code's own for a response without text. *)
Definition test_failure (prov : Provider) (w : World) : option Thrown :=
  match prov (calls w) (ReqTest (apiKey (mgr w))) with
  | Rejects e => Some e
  | Resolves r =>
      if JS.truthy_opt (text r) then None
      else Some (new_Error (engine w) "No response")
  end.

(** The decrypted structure has no member [GEMINI_API_KEY]. *)
Definition lacks_credential (v : json) : Prop :=
  match v with
  | JObj ms => get "GEMINI_API_KEY" ms = None
  | _ => True
  end.

(** *** Providers and responses of the examples *)

Module Examples.

Definition respond (t : string) : Outcome :=
  Resolves {| text := Some t; parts := None |}.

Definition respond_image (d : string) : Outcome :=
  Resolves {| text := None;
              parts := Some [ {| part_text := Some "Here is the slide.";
                                 inlineData := None |};
                              {| part_text := None;
                                 inlineData := Some {| data := Some d;
                                                       mimeType := Some "image/jpeg" |} |} ] |}.

Definition error (msg : string) : Thrown :=
  ThrownError [("stack", JStr ("ApiError: " +:+ msg)); ("message", JStr msg)].

Definition plan_text_2 : string :=
  dquote ("[{'id':1,'logicalStep':'Hook','keyMessage':'a','visualPrompt':'p'}," +:+
          "{'id':2,'logicalStep':'Closing','keyMessage':'b','visualPrompt':'q'}]").

Definition seg1 : CarouselSegment :=
  {| id := 1; logicalStep := "Hook"; keyMessage := "a"; visualPrompt := "p";
     imageUrl := None |}.
Definition seg2 : CarouselSegment :=
  {| id := 2; logicalStep := "Closing"; keyMessage := "b"; visualPrompt := "q";
     imageUrl := None |}.

Definition post_text : string := dquote "{'caption':'c','hashtags':['#x']}".

Definition not_found : Thrown :=
  error "Requested entity was not found.".

Definition overloaded : Thrown :=
  error (dquote "{'error':{'code':503,'status':'UNAVAILABLE'}}").

Definition key_invalid : Thrown :=
  error "API key not valid. Please pass a valid API key.".

(** The same rejection as the client library throws it: the stack names
    the frame that threw, at line [line] of the bundled client. *)
Definition key_invalid_at (line : string) : Thrown :=
  ThrownError
    [("stack", JStr ("ApiError: API key not valid. Please pass a valid API key." +:+
                     newline +:+ "    at throwErrorIfNotOK (index.mjs:" +:+ line +:+
                     ":11)"));
     ("message", JStr "API key not valid. Please pass a valid API key.")].

(** The plan of [plan_text_2], but the first slide comes with an
    [imageUrl] of the provider's own. *)
Definition plan_text_with_image : string :=
  dquote ("[{'id':1,'logicalStep':'Hook','keyMessage':'a','visualPrompt':'p'," +:+
          "'imageUrl':'https://example.com/a.png'}," +:+
          "{'id':2,'logicalStep':'Closing','keyMessage':'b','visualPrompt':'q'}]").

(** A provider that plans two slides, whatever the count, and draws
    them. *)
Definition prov_two : Provider :=
  λ _ req,
    match req with
    | ReqTest _ => respond "Hello"
    | ReqPlan _ _ _ _ _ => respond plan_text_2
    | ReqImage _ s _ _ => respond_image ("img" +:+ keyMessage s)
    | ReqPost _ _ _ => respond post_text
    end.

(** The same, but the plan is that of [plan_text_with_image]. *)
Definition prov_plan_with_image : Provider :=
  λ n req,
    match req with
    | ReqPlan _ _ _ _ _ => respond plan_text_with_image
    | _ => prov_two n req
    end.

(** The same, but the image call for the second slide is rejected with
    [e]. *)
Definition prov_fails_on_2 (e : Thrown) : Provider :=
  λ n req,
    match req with
    | ReqImage _ s _ _ => if (id s =? 2)%Z then Rejects e else prov_two n req
    | _ => prov_two n req
    end.

(** A provider that rejects every call with [e]. *)
Definition prov_rejects (e : Thrown) : Provider := λ _ _, Rejects e.

(** The world of a user who stored the key [k] and typed a topic. *)
Definition ready (k : string) : World := setTopic "time management" (world0 (Some k)).

(** Fifteen image files. *)
Definition files15 : list string := replicate 15 "data:image/png;base64,AAAA".

End Examples.

(** The events of the [catch] block. *)
Definition catch_events (e : Thrown) : list Event :=
  [EvConsoleError e; EvSetWorkflowState idle] ++
  (if entity_not_found e then [EvSetHasApiKey false; EvAlert AlertInvalidKey]
   else [EvAlert (AlertAutomationFailed (message_of e))]).

(** How the image calls for the segments [rest] go with the provider, from
    call number [n] on: the urls of the calls that resolve, up to the first
    that throws, and what it throws. *)
Fixpoint images_script (prov : Provider) (eng : Engine) (key : string)
    (ratio : AspectRatio) (refs : list string) (n : nat)
    (rest : list CarouselSegment) : list string * option Thrown :=
  match rest with
  | [] => ([], None)
  | s :: rest' =>
      match prov n (ReqImage key s ratio refs) with
      | Rejects e => ([], Some e)
      | Resolves r =>
          match first_inline (default [] (parts r)) with
          | Some d =>
              let sc := images_script prov eng key ratio refs (S n) rest' in
              ((png_prefix +:+ JS.template (data d)) :: sc.1, sc.2)
          | None => ([], Some (new_Error eng "Failed to generate image"))
          end
      end
  end.

(** ** The rest of the application *)

(** *** The start button and the progress panel *)

(** [disabled={!topic || workflowState !== 'idle'}]. *)
Definition start_disabled (w : World) : bool :=
  negb (JS.truthy (topic (app w))) ||
  match workflowState (app w) with idle => false | _ => true end.

(** A click on the start button: nothing, when the button is disabled. *)
Definition click_start (prov : Provider) (w : World) : Run :=
  if start_disabled w then Done w else handleStartAutomation prov w.

Module Step.

(** The [status] of a [StepItem]. *)
Inductive status : Type := pending | active | completed.

End Step.

(** The status of the three [StepItem]s of the progress panel, as the
    three expressions of the [return] compute them. *)
Definition step_1 (s : WorkflowState) : Step.status :=
  match s with
  | planning => Step.active
  | idle => Step.pending
  | _ => Step.completed
  end.

Definition step_2 (s : WorkflowState) : Step.status :=
  match s with
  | generating_images => Step.active
  | idle | planning => Step.pending
  | _ => Step.completed
  end.

Definition step_3 (s : WorkflowState) : Step.status :=
  match s with
  | generating_caption => Step.active
  | idle | planning | generating_images => Step.pending
  | _ => Step.completed
  end.

(** *** The dialog is opened *)

(** The effect of [ApiKeyManager] that runs when [isOpen] changes: the
    stored credential, when there is one, is put in the input. *)
Definition manager_effect (w : World) : World :=
  match stored (storage w) with
  | Some s => if JS.truthy s then setApiKey s w else w
  | None => w
  end.

(** *** Downloads *)

(** [s.split(',')[1]]: what stands between the first comma and the
    second, if there is a comma. *)
Fixpoint until_comma (s : string) : string :=
  match s with
  | EmptyString => EmptyString
  | String c r => if Ascii.eqb c "," then EmptyString else String c (until_comma r)
  end.

Fixpoint after_comma (s : string) : option string :=
  match s with
  | EmptyString => None
  | String c r => if Ascii.eqb c "," then Some r else after_comma r
  end.

Definition split_comma_1 (s : string) : option string :=
  until_comma <$> after_comma s.

Definition string_of_nat (n : nat) : string :=
  NilZero.string_of_uint (Nat.to_uint n).

(** [`slide_${idx + 1}.png`]. *)
Definition slide_name (idx : nat) : string :=
  "slide_" +:+ string_of_nat (idx + 1) +:+ ".png".

(** The calls [zip.file(name, base64Data, { base64: true })] of
    [downloadAll], for the segments from position [idx] on: one for each
    segment with a truthy [imageUrl]. *)
Fixpoint zip_files (idx : nat) (segs : list CarouselSegment)
  : list (string * option string) :=
  match segs with
  | [] => []
  | seg :: rest =>
      match imageUrl seg with
      | Some url =>
          if JS.truthy url
          then (slide_name idx, split_comma_1 url) :: zip_files (S idx) rest
          else zip_files (S idx) rest
      | None => zip_files (S idx) rest
      end
  end.

(** [downloadAll]: the name of the archive that is saved and its files, or
    nothing when no segment has an image. *)
Definition downloadAll (w : World) : option (string * list (string * option string)) :=
  match zip_files 0 (view w) with
  | [] => None
  | files => Some ("carousel_images.zip", files)
  end.

(** A decoded image, by its size. *)
Record Bitmap : Type := { width : nat; height : nat }.

(** The canvas of [downloadMergedPNG]: its size and the calls
    [ctx.drawImage(img, 0, y, img.width, img.height)], each by its [y] and
    its image. *)
Record Canvas : Type := {
  canvas_width : nat;
  canvas_height : nat;
  draws : list (nat * Bitmap)
}.

Inductive Merged : Type :=
| MergedNothing
| MergedAlert
    (* "Merging the images failed." *)
| MergedFile (name : string) (c : Canvas).

(** The loop [loadedImages.forEach], from [currentY = y]. *)
Fixpoint stack (y : nat) (imgs : list Bitmap) : list (nat * Bitmap) :=
  match imgs with
  | [] => []
  | img :: rest => (y, img) :: stack (y + height img) rest
  end.

Definition has_image (seg : CarouselSegment) : bool :=
  JS.truthy_opt (imageUrl seg).

(** [downloadMergedPNG].  The browser is given by [load], the decoding of
    an image url ([None] is [img.onerror]), by whether the canvas has a 2d
    context and by whether [toBlob] gives a blob. *)
Definition downloadMergedPNG (load : string → option Bitmap)
    (has_context has_blob : bool) (w : World) : Merged :=
  let validSegments := List.filter has_image (view w) in
  match validSegments with
  | [] => MergedNothing
  | _ =>
      match mapM (λ seg, load (default EmptyString (imageUrl seg))) validSegments with
      | None => MergedAlert
      | Some loadedImages =>
          let maxWidth := foldr Nat.max 0 (map width loadedImages) in
          let totalHeight := foldr Nat.add 0 (map height loadedImages) in
          if has_context then
            if has_blob then
              MergedFile "carousel_merged.png"
                {| canvas_width := maxWidth; canvas_height := totalHeight;
                   draws := stack 0 loadedImages |}
            else MergedNothing
          else MergedNothing
      end
  end.

(** *** The reference images in a request *)

(** A line terminator starts here: LF, CR, or U+2028 or U+2029 in
    UTF-8. *)
Definition line_terminator_at (s : string) : bool :=
  match s with
  | String c r =>
      (code c =? 10)%N || (code c =? 13)%N ||
      match c, r with
      | c1, String c2 (String c3 _) =>
          (code c1 =? 226)%N && (code c2 =? 128)%N &&
          ((code c3 =? 168)%N || (code c3 =? 169)%N)
      | _, _ => false
      end
  | EmptyString => false
  end.

(** [(.*?);base64] from here: the shortest run of characters other than
    line terminators that [;base64] follows. *)
Fixpoint lazy_to_base64 (s : string) : option string :=
  if String.prefix ";base64" s then Some EmptyString
  else
    match s with
    | EmptyString => None
    | String c r =>
        if line_terminator_at s then None else String c <$> lazy_to_base64 r
    end.

(** [img.match(/data:(.*?);base64/)?.[1]]: the group of the leftmost
    match. *)
Fixpoint match_mime (s : string) : option string :=
  let here :=
    match s with
    | String "d" (String "a" (String "t" (String "a" (String ":" rest)))) =>
        lazy_to_base64 rest
    | _ => None
    end in
  match here with
  | Some m => Some m
  | None =>
      match s with
      | EmptyString => None
      | String _ r => match_mime r
      end
  end.

(** The part that [generatePlan] and [generateImage] push for a reference
    image, if they push one. *)
Definition inline_part (img : string) : option InlineData :=
  let mimeType :=
    match match_mime img with
    | Some m => if JS.truthy m then m else "image/jpeg"
    | None => "image/jpeg"
    end in
  match split_comma_1 img with
  | Some d =>
      if JS.truthy d then Some {| data := Some d; mimeType := Some mimeType |}
      else None
  | None => None
  end.

Definition inline_parts (referenceImages : list string) : list InlineData :=
  omap inline_part referenceImages.

(** *** More definitions used in the statements *)

(** No upload of [evs] starts while reads are pending. *)
Fixpoint no_overlap (evs : list UiEvent) (w : World) : Prop :=
  match evs with
  | [] => True
  | ev :: rest =>
      (match ev with Upload _ => pending_reads w = [] | _ => True end) ∧
      no_overlap rest (ui_step w ev)
  end.

(** The plan call of a run started in [w] throws [e]: the provider
    rejects, or resolves without text, or with a text that does not
    parse. *)
Definition plan_throws (prov : Provider) (w : World) (key : string) (e : Thrown) : Prop :=
  getApiKey w = Some key ∧ JS.truthy key = true ∧
  (prov (calls w) (plan_request w key) = Rejects e ∨
   (∃ r, prov (calls w) (plan_request w key) = Resolves r ∧
         JS.truthy_opt (text r) = false ∧
         e = new_Error (engine w) "Failed to generate plan") ∨
   (∃ r t, prov (calls w) (plan_request w key) = Resolves r ∧
           text r = Some t ∧ JS.truthy t = true ∧ JSON_parse t = None ∧
           e = SyntaxError (engine w) t)).

(** The request of the post call of a run started in [w]. *)
Definition post_request (w : World) (key : string) (plan : list CarouselSegment)
  : Request :=
  ReqPost key (topic (app w)) (summary_of plan).

(** Call number [n], the post call, resolves with a text that parses to
    [post]. *)
Definition post_resolves (prov : Provider) (w : World) (key : string)
    (plan : list CarouselSegment) (n : nat) (post : json) : Prop :=
  ∃ r t, prov n (post_request w key plan) = Resolves r ∧
         text r = Some t ∧ JS.truthy t = true ∧ JSON_parse t = Some post.

(** Call number [n], the post call, throws [e]. *)
Definition post_throws (prov : Provider) (w : World) (key : string)
    (plan : list CarouselSegment) (n : nat) (e : Thrown) : Prop :=
  prov n (post_request w key plan) = Rejects e ∨
  (∃ r, prov n (post_request w key plan) = Resolves r ∧
        JS.truthy_opt (text r) = false ∧
        e = new_Error (engine w) "Failed to generate post data") ∨
  (∃ r t, prov n (post_request w key plan) = Resolves r ∧
          text r = Some t ∧ JS.truthy t = true ∧ JSON_parse t = None ∧
          e = SyntaxError (engine w) t).

(** The alerts among the events. *)
Definition alerts_of (evs : list Event) : list Alert :=
  omap (λ ev, match ev with EvAlert a => Some a | _ => None end) evs.

(** The calls issued among the events. *)
Definition issued (evs : list Event) : list Request :=
  omap (λ ev, match ev with EvIssue _ req => Some req | _ => None end) evs.

(** The state of [App] in [w'] differs from the one in [w] at most in the
    segments and the workflow state. *)
Definition progress_only (w w' : World) : Prop :=
  app_set_workflowState idle (app_set_segments [] (app w'))
  = app_set_workflowState idle (app_set_segments [] (app w)).

(** Every character of [s] passes [P]. *)
Fixpoint all_chars (P : ascii → bool) (s : string) : bool :=
  match s with
  | EmptyString => true
  | String c r => P c && all_chars P r
  end.

(** A character that a media type can hold here: no [;], no [,], and no
    byte that starts a line terminator. *)
Definition mime_char (c : ascii) : bool :=
  negb (Ascii.eqb c ";") && negb (Ascii.eqb c ",") &&
  negb (code c =? 10)%N && negb (code c =? 13)%N && negb (code c =? 226)%N.

(** The data URL of a payload of the given media type. *)
Definition data_url (mime payload : string) : string :=
  "data:" +:+ mime +:+ ";base64," +:+ payload.

(** The world in which a run started in [w0] enters the caption phase,
    after the calls for [urls] resolved. *)
Definition caption_world (prov : Provider) (w0 : World) (key : string)
    (plan : list CarouselSegment) (urls : list string) : World :=
  setWorkflowState generating_caption (after_images prov w0 key plan urls None).

(** * Properties *)

(** ** JavaScript values *)

Lemma JS_truthy_true s : s ≠ EmptyString ↔ JS.truthy s = true.
Proof. destruct s; simpl; split; congruence. Qed.

(** ** JSON: a printed string reads back *)

Lemma app_String c s t : String c s +:+ t = String c (s +:+ t).
Proof. reflexivity. Qed.

Lemma app_empty_r s : s +:+ EmptyString = s.
Proof. induction s as [|c s IH]; [done|]. by rewrite app_String, IH. Qed.

Lemma snoc_app acc c s : snoc acc c +:+ s = acc +:+ String c s.
Proof. unfold snoc. induction acc as [|a acc IH]; [done|]. by rewrite !app_String, IH. Qed.

Lemma lex_escape_char c acc tail toks :
  lex_from (LStr acc) (escape_char c tail) toks = lex_from (LStr (snoc acc c)) tail toks.
Proof.
  destruct c as [[] [] [] [] [] [] [] []]; reflexivity.
Qed.

Lemma lex_escape s : ∀ acc tail toks,
  lex_from (LStr acc) (escape s tail) toks = lex_from (LStr (acc +:+ s)) tail toks.
Proof.
  induction s as [|c s IH]; intros acc tail toks; simpl.
  - by rewrite app_empty_r.
  - by rewrite lex_escape_char, IH, snoc_app.
Qed.

Lemma lex_quote s tail toks :
  lex_from LNorm (quote s tail) toks = lex_from LNorm tail (TStr s :: toks).
Proof.
  unfold quote.
  change (lex_from LNorm (String JS.dq ?x) toks) with (lex_from (LStr EmptyString) x toks).
  by rewrite lex_escape.
Qed.

Lemma parse_key_file key :
  JSON_parse (key_file key) = Some (JObj [("GEMINI_API_KEY", JStr key)]).
Proof.
  unfold JSON_parse, lex, key_file, JSON_stringify. cbn [stringify_to].
  change (String "{" (EmptyString +:+ ?x)) with (String "{" x).
  change (lex_from LNorm (String "{" ?x) []) with (lex_from LNorm x [TLBrace]).
  rewrite lex_quote.
  change (lex_from LNorm (String ":" ?x) ?t) with (lex_from LNorm x (TColon :: t)).
  by rewrite lex_quote.
Qed.

Lemma key_file_truthy key : JS.truthy (key_file key) = true.
Proof. reflexivity. Qed.

(** ** The segments of a run *)

Lemma progress_nil_r plan : progress plan [] = plan.
Proof. by destruct plan. Qed.

Lemma progress_length plan : ∀ urls, length (progress plan urls) = length plan.
Proof. induction plan as [|s p IH]; intros [|u us]; simpl; auto. Qed.

Lemma progress_lookup_ge plan : ∀ urls j,
  length urls ≤ j → progress plan urls !! j = plan !! j.
Proof.
  induction plan as [|s p IH]; intros [|u us] j Hj; simpl in *; auto.
  destruct j as [|j]; [lia|]. simpl. apply IH. lia.
Qed.

Lemma progress_lookup_lt plan : ∀ urls j s u,
  plan !! j = Some s → urls !! j = Some u →
  progress plan urls !! j = Some (with_imageUrl s u).
Proof.
  induction plan as [|s0 p IH]; intros [|u0 us] j s u Hs Hu; simpl in *; try done.
  destruct j as [|j]; simpl in *; [congruence|]. eauto.
Qed.

Lemma progress_take_S plan : ∀ urls i s u,
  plan !! i = Some s → urls !! i = Some u →
  <[i := with_imageUrl s u]> (progress plan (take i urls))
  = progress plan (take (S i) urls).
Proof.
  induction plan as [|s0 p IH]; intros urls i s u Hs Hu; [done|].
  destruct urls as [|u0 us]; [by destruct i|].
  destruct i as [|i]; simpl in *.
  - injection Hs as ->. injection Hu as ->. by rewrite progress_nil_r.
  - f_equal. by apply IH.
Qed.

Lemma deref_seq_from (h : list CarouselSegment) : ∀ pre,
  deref (pre ++ h) (seq (length pre) (length h)) = h.
Proof.
  induction h as [|x h IH]; intros pre; [done|].
  simpl. unfold deref in *. simpl.
  rewrite lookup_app_r by lia. rewrite Nat.sub_diag. simpl. f_equal.
  specialize (IH (pre ++ [x])). rewrite length_app in IH. simpl in IH.
  rewrite Nat.add_1_r in IH. by rewrite <- app_assoc in IH.
Qed.

Lemma deref_seq (h : list CarouselSegment) : deref h (seq 0 (length h)) = h.
Proof. apply (deref_seq_from h []). Qed.

Lemma deref_progress plan urls :
  deref (progress plan urls) (seq 0 (length plan)) = progress plan urls.
Proof. rewrite <- (progress_length plan urls) at 1. apply deref_seq. Qed.

Lemma world_eta w :
  {| storage := storage w; app := app w; mgr := mgr w; heap := heap w;
     pending_reads := pending_reads w; calls := calls w; trace := trace w;
     engine := engine w |} = w.
Proof. by destruct w. Qed.

Lemma lookup_seq_0 n i : i < n → seq 0 n !! i = Some i.
Proof. intros. by rewrite lookup_seq_lt. Qed.

Lemma generateImage_resolves prov key ratio refs s u w :
  getApiKey w = Some key → JS.truthy key = true →
  image_resolves prov key ratio refs (calls w) s u →
  generateImage prov s ratio refs w =
  (Ok u, (generateContent prov (ReqImage key s ratio refs) w).2).
Proof.
  intros Hk Ht (r & d & Hr & Hd & ->). unfold generateImage, generateContent.
  rewrite Hk, Ht, Hr. simpl. by rewrite Hd.
Qed.

Lemma generateImage_throws prov key ratio refs s e w :
  getApiKey w = Some key → JS.truthy key = true →
  image_throws prov (engine w) key ratio refs (calls w) s e →
  generateImage prov s ratio refs w =
  (Throw e, (generateContent prov (ReqImage key s ratio refs) w).2).
Proof.
  intros Hk Ht [Hr | (r & Hr & Hd & ->)]; unfold generateImage, generateContent;
    rewrite Hk, Ht, Hr; simpl; [done|]. by rewrite Hd.
Qed.

Lemma image_blocks_nil prov key ratio refs plan urls c i :
  image_blocks prov key ratio refs plan urls c i i = [].
Proof. unfold image_blocks. by rewrite Nat.sub_diag. Qed.

Lemma image_blocks_cons prov key ratio refs plan urls c i m :
  i < m →
  image_blocks prov key ratio refs plan urls c i m =
  image_block prov key ratio refs plan urls c i ++
  image_blocks prov key ratio refs plan urls c (S i) m.
Proof.
  intros H. unfold image_blocks.
  replace (m - i) with (S (m - S i)) by lia. done.
Qed.

Section Loop.

Variables (prov : Provider) (key : string) (ratio : AspectRatio)
          (refs : list string) (plan : list CarouselSegment)
          (urls : list string) (c : nat).

Hypothesis Hlen : length urls ≤ length plan.
Hypothesis Hok : ∀ j s u, plan !! j = Some s → urls !! j = Some u →
                          image_resolves prov key ratio refs (c + j) s u.

Lemma image_loop_run fail : ∀ todo i w,
  i + todo = length plan → i ≤ length urls →
  heap w = progress plan (take i urls) →
  calls w = c + i →
  getApiKey w = Some key → JS.truthy key = true →
  match fail with
  | None => length urls = length plan
  | Some e => ∃ s, plan !! length urls = Some s ∧
                   image_throws prov (engine w) key ratio refs (c + length urls) s e
  end →
  image_loop prov ratio refs (seq 0 (length plan)) todo i w =
  (fail,
   {| storage := storage w;
      app := if decide (i < length urls)
             then app_set_segments (seq 0 (length plan)) (app w) else app w;
      mgr := mgr w;
      heap := progress plan urls;
      pending_reads := pending_reads w;
      calls := c + length urls + (if fail is Some _ then 1 else 0);
      trace := trace w ++ image_blocks prov key ratio refs plan urls c i (length urls)
                 ++ fail_events prov key ratio refs plan urls c fail;
      engine := engine w |}).
Proof.
  induction todo as [|todo IH]; intros i w Hi Hiu Hheap Hcalls Hkey Htruthy Hfail.
  - (* the loop is over: every segment has its image *)
    assert (i = length plan) as -> by lia.
    assert (length urls = length plan) as Hu by lia.
    destruct fail as [e|].
    { destruct Hfail as (s & Hs & _). apply lookup_lt_Some in Hs. lia. }
    simpl. rewrite Hu in *. rewrite image_blocks_nil. unfold fail_events.
    rewrite decide_False by lia. rewrite !app_nil_r.
    f_equal. rewrite <- (world_eta w) at 1. f_equal.
    + by rewrite Hheap, <- Hu, firstn_all.
    + lia.
  - simpl. rewrite lookup_seq_0 by lia. simpl.
    destruct (lookup_lt_is_Some_2 plan i) as [s Hs]; [lia|].
    rewrite Hheap, progress_lookup_ge by (rewrite length_take; lia).
    rewrite Hs. simpl.
    destruct (decide (i < length urls)) as [Hlt | Hge].
    + (* the call for segment [i] resolves *)
      destruct (lookup_lt_is_Some_2 urls i) as [u Hu]; [lia|].
      rewrite (generateImage_resolves prov key ratio refs s u w); auto;
        [|rewrite Hcalls; eauto].
      set (w1 := (generateContent prov (ReqImage key s ratio refs) w).2).
      rewrite (IH (S i)); try (simpl; auto; lia).
      * f_equal. simpl. f_equal.
        -- by destruct (decide (S i < length urls)).
        -- rewrite Hheap, (progress_lookup_ge plan (take i urls) i)
             by (rewrite length_take; lia).
           rewrite Hs, Hcalls, (progress_take_S plan urls i s u) by done.
           rewrite deref_progress.
           rewrite (image_blocks_cons _ _ _ _ _ _ _ i) by lia.
           unfold image_block, image_call_events. rewrite Hs, Hu.
           by rewrite <- !app_assoc.
      * simpl. rewrite Hheap, (progress_lookup_ge plan (take i urls) i)
          by (rewrite length_take; lia).
        rewrite Hs. by apply progress_take_S.
    + (* the call for segment [i] throws *)
      assert (i = length urls) as -> by lia.
      destruct fail as [e|]; [|lia].
      destruct Hfail as (s' & Hs' & Hthrow).
      assert (s' = s) as -> by congruence.
      rewrite (generateImage_throws prov key ratio refs s e w); auto;
        [|by rewrite Hcalls].
      f_equal. simpl. rewrite image_blocks_nil. unfold fail_events. rewrite Hs.
      rewrite firstn_all in Hheap.
      unfold log, tick, image_call_events. simpl. rewrite <- app_assoc. simpl.
      rewrite Hheap, Hcalls. f_equal. lia.
Qed.

End Loop.

Section Run.

Variables (prov : Provider) (w0 : World) (key : string)
          (plan : list CarouselSegment) (urls : list string).

Hypothesis Hhas : hasApiKey (app w0) = true.
Hypothesis Htopic : JS.truthy (topic (app w0)) = true.
Hypothesis Hplan : plan_resolves prov w0 key plan.

Lemma run_to_images fail :
  images_go prov w0 key plan urls fail →
  handleStartAutomation prov w0 =
  match fail with
  | Some e => Done (catch e (after_images prov w0 key plan urls fail))
  | None =>
      Done (caption_phase prov (topic (app w0)) (progress plan urls)
              (setWorkflowState generating_caption
                 (after_images prov w0 key plan urls fail)))
  end.
Proof.
  intros (Hlen & Hok & Hfail).
  destruct Hplan as (Hkey & Hkt & r & t & v & Hr & Ht & Htt & Hv & Hsegs).
  unfold handleStartAutomation. rewrite Hhas, Htopic. simpl.
  unfold generatePlan, generateContent. simpl.
  change (getApiKey _) with (getApiKey w0). rewrite Hkey, Hkt.
  unfold plan_request in Hr. rewrite Hr, Ht, Htt, Hv, Hsegs, length_seq.
  rewrite (image_loop_run prov key (ratio (app w0)) (referenceImages (app w0))
             plan urls (S (calls w0)) Hlen Hok fail); simpl; auto; try lia;
    [|by destruct plan].
  destruct fail as [e|].
  - do 2 f_equal. unfold after_images. f_equal.
    + by destruct (decide (0 < length urls)).
    + unfold run_prefix, plan_request, fail_events. rewrite Hr, deref_seq.
      rewrite <- !app_assoc. reflexivity.
  - unfold caption_phase. rewrite deref_progress.
    match goal with |- context [generateInstagramPost _ _ _ ?w] =>
      replace w with (setWorkflowState generating_caption
                        (after_images prov w0 key plan urls None)) end.
    { by destruct (generateInstagramPost _ _ _ _) as [[post|e] w1]. }
    unfold setWorkflowState, log, with_app, after_images. simpl. f_equal.
    + f_equal. by destruct (decide (0 < length urls)).
    + unfold run_prefix, plan_request, fail_events. rewrite Hr, deref_seq.
      rewrite ?app_nil_r, <- ?app_assoc. simpl. by rewrite ?app_nil_r.
Qed.

End Run.

(** ** The generation client *)

Lemma prefix_app s t : String.prefix s (s +:+ t) = true.
Proof.
  induction s as [|c s IH]; [by destruct t|]. simpl.
  destruct (ascii_dec c c); [done|congruence].
Qed.

Lemma first_inline_Some ps d :
  first_inline ps = Some d ↔ ∃ i, first_inline_at ps i d.
Proof.
  unfold first_inline, first_inline_at. induction ps as [|p ps IH]; simpl.
  - split; [done|]. by intros (i & (p & Hp & _) & _).
  - destruct (inlineData p) as [d0|] eqn:Hp0.
    + rewrite Hp0. split.
      * intros [= <-]. exists 0. split; [by exists p|]. intros; lia.
      * intros ([|i] & (q & Hq & Hd) & Hfirst); simpl in *.
        -- congruence.
        -- specialize (Hfirst 0 p). simpl in Hfirst. rewrite Hfirst in Hp0; [done|lia|done].
    + rewrite IH. split.
      * intros (i & (q & Hq & Hd) & Hfirst). exists (S i). split; [by exists q|].
        intros [|j] q' Hj Hq'; simpl in *; [congruence|]. apply (Hfirst j); [lia|done].
      * intros ([|i] & (q & Hq & Hd) & Hfirst); simpl in *; [congruence|].
        exists i. split; [by exists q|].
        intros j q' Hj Hq'. apply (Hfirst (S j)); [lia|done].
Qed.

Lemma first_inline_None ps :
  first_inline ps = None ↔ ∀ p, p ∈ ps → inlineData p = None.
Proof.
  unfold first_inline. induction ps as [|p ps IH]; simpl.
  - split; [|done]. intros _ p Hp. by apply elem_of_nil in Hp.
  - destruct (inlineData p) as [d0|] eqn:Hp0.
    + rewrite Hp0. split; [done|]. intros H. rewrite (H p) in Hp0; [done|]. by left.
    + rewrite IH. split.
      * intros H q Hq. apply elem_of_cons in Hq as [->|Hq]; auto.
      * intros H q Hq. apply H. by right.
Qed.

(** C1, as the code has it.  A call to [generatePlan] succeeds exactly when
    a credential is present and the provider resolves with a non-empty text
    that parses, and what it returns is that text parsed, whatever the
    requested count [n]: the segments are [n] with ids 1..n only if the
    provider's text has them so. *)
Theorem C1_generatePlan_returns_parsed_text prov topic n ratio refs w v w' :
  generatePlan prov topic n ratio refs w = (Ok v, w') ↔
  ∃ key r t,
    getApiKey w = Some key ∧ JS.truthy key = true ∧
    prov (calls w) (ReqPlan key topic n ratio refs) = Resolves r ∧
    text r = Some t ∧ JS.truthy t = true ∧ JSON_parse t = Some v ∧
    w' = (generateContent prov (ReqPlan key topic n ratio refs) w).2.
Proof.
  unfold generatePlan, generateContent. split.
  - destruct (getApiKey w) as [key|]; [|done].
    destruct (JS.truthy key) eqn:Hk; [|done].
    destruct (prov _ _) as [r|e] eqn:Hr; [|done]. simpl.
    destruct (text r) as [t|] eqn:Ht; [|done].
    destruct (JS.truthy t) eqn:Htt; [|done].
    destruct (JSON_parse t) as [v0|] eqn:Hv; [|done].
    intros [= <- <-]. exists key, r, t. by rewrite Hr.
  - intros (key & r & t & -> & -> & Hr & Ht & Htt & Hv & ->).
    rewrite Hr. simpl. by rewrite Ht, Htt, Hv.
Qed.

Lemma C1_generatePlan_returns_parsed_text_witness :
  ∃ w',
    generatePlan Examples.prov_two "time management" 2 Ratio_1_1 []
      (Examples.ready "k")
    = (Ok (JArr [JObj [("id", JNum 1); ("logicalStep", JStr "Hook");
                       ("keyMessage", JStr "a"); ("visualPrompt", JStr "p")];
                 JObj [("id", JNum 2); ("logicalStep", JStr "Closing");
                       ("keyMessage", JStr "b"); ("visualPrompt", JStr "q")]]),
       w').
Proof.
  eexists.
  apply (proj2 (C1_generatePlan_returns_parsed_text _ _ _ _ _ _ _ _)).
  exists "k", {| text := Some Examples.plan_text_2; parts := None |}, Examples.plan_text_2.
  repeat split; vm_compute; reflexivity.
Defined.

(** C1 as stated fails: asked for three slides, the provider answers with
    two, and [generatePlan] returns the two. *)
Lemma C1_counterexample :
  ∃ v w',
    generatePlan Examples.prov_two "time management" 3 Ratio_1_1 []
      (Examples.ready "k") = (Ok v, w') ∧
    as_CarouselSegments v = Some [Examples.seg1; Examples.seg2] ∧
    ¬ ids_1_to 3 [Examples.seg1; Examples.seg2].
Proof.
  eexists _, _. split; [vm_compute; reflexivity|]. split; [vm_compute; reflexivity|].
  intros [Hlen _]. simpl in Hlen. lia.
Qed.

(** C8.  A successful [generateImage] returns the first inline payload
    among the parts of the response, behind [data:image/png;base64,]; with a
    credential and a response, it succeeds when there is such a part, and
    throws its own error, not the one of the missing credential, when there
    is none. *)
Theorem C8_generateImage_first_inline prov seg ratio refs w :
  (∀ url w', generateImage prov seg ratio refs w = (Ok url, w') →
     String.prefix "data:image/png;base64," url = true ∧
     ∃ key r i d,
       getApiKey w = Some key ∧
       prov (calls w) (ReqImage key seg ratio refs) = Resolves r ∧
       first_inline_at (default [] (parts r)) i d ∧
       url = "data:image/png;base64," +:+ JS.template (data d)) ∧
  (∀ key r,
     getApiKey w = Some key → JS.truthy key = true →
     prov (calls w) (ReqImage key seg ratio refs) = Resolves r →
     (∀ i d, first_inline_at (default [] (parts r)) i d →
        (generateImage prov seg ratio refs w).1
        = Ok ("data:image/png;base64," +:+ JS.template (data d))) ∧
     ((∀ p, p ∈ default [] (parts r) → inlineData p = None) →
        (generateImage prov seg ratio refs w).1
        = Throw (new_Error (engine w) "Failed to generate image"))) ∧
  message_of (new_Error (engine w) "Failed to generate image")
  ≠ message_of (new_Error (engine w) "API Key is missing.").
Proof.
  change "data:image/png;base64," with png_prefix. split; [|split; [|done]].
  - intros url w' Hcall. unfold generateImage, generateContent in Hcall.
    destruct (getApiKey w) as [key|]; [|done].
    destruct (JS.truthy key); [|done].
    destruct (prov _ _) as [r|e] eqn:Hr; [|done]. simpl in Hcall.
    destruct (first_inline _) as [d|] eqn:Hd; [|done].
    injection Hcall as <- _. split; [apply prefix_app|].
    apply first_inline_Some in Hd as [i Hi]. by exists key, r, i, d.
  - intros key r Hkey Hk Hr. unfold generateImage, generateContent.
    rewrite Hkey, Hk, Hr. simpl. split.
    + intros i d Hi.
      by rewrite (proj2 (first_inline_Some _ d) (ex_intro _ i Hi)).
    + intros Hnone. by rewrite (proj2 (first_inline_None _) Hnone).
Qed.

Lemma C8_generateImage_first_inline_witness :
  (generateImage Examples.prov_two Examples.seg1 Ratio_1_1 [] (Examples.ready "k")).1
  = Ok "data:image/png;base64,imga".
Proof.
  refine (proj1 (proj1 (proj2 (C8_generateImage_first_inline Examples.prov_two
            Examples.seg1 Ratio_1_1 [] (Examples.ready "k")))
            "k" _ eq_refl eq_refl eq_refl) 1
            {| data := Some "imga"; mimeType := Some "image/jpeg" |} _).
  split; [eexists; split; reflexivity|].
  intros [|[|j]] q Hj Hq; [|lia|lia]. by injection Hq as <-.
Defined.

(** ** The credential dialog *)

Lemma getApiKey_stored w key :
  stored (storage w) = Some key → JS.truthy key = true → getApiKey w = Some key.
Proof.
  intros Hs Hk. unfold getApiKey, JS.or_else. rewrite Hs. simpl.
  rewrite Hk. simpl. by rewrite Hk.
Qed.

(** What a credential test with a candidate typed in does, in the code's
    own terms: on a response with text, and on a failure whose stringified
    error holds [503], [UNAVAILABLE] or [high demand] anywhere, the test
    reports success and the candidate is stored as the active credential; on
    every other failure it reports an error and storage is left as it
    was. *)
Lemma handleTest_classifies prov w :
  JS.truthy (apiKey (mgr w)) = true →
  let key := apiKey (mgr w) in
  let w' := handleTest prov w in
  let persisted :=
    status (mgr w') = st_success ∧ stored (storage w') = Some key ∧
    getApiKey w' = Some key ∧ hasApiKey (app w') = true in
  match test_failure prov w with
  | None => persisted
  | Some e =>
      if is_overloaded (errorString e) then persisted
      else status (mgr w') = st_error ∧ storage w' = storage w ∧
           getApiKey w' = getApiKey w
  end.
Proof.
  intros Hk. unfold handleTest, test_failure, generateContent, handleTest_catch.
  rewrite Hk. simpl.
  assert (∀ st, JS.truthy_opt
            (JS.or_else (JS.or_else (Some (apiKey (mgr w))) (env_API_KEY st))
               (env_GEMINI_API_KEY st)) = true) as Hget.
  { intros st. unfold JS.or_else. simpl. rewrite Hk. simpl. by rewrite Hk. }
  destruct (prov _ _) as [r|e]; simpl.
  - destruct (JS.truthy_opt (text r)); simpl.
    + repeat split; [apply getApiKey_stored; done | apply Hget].
    + destruct (is_overloaded _); simpl; [|done].
      repeat split; [apply getApiKey_stored; done | apply Hget].
  - destruct (is_overloaded _); simpl; [|done].
    repeat split; [apply getApiKey_stored; done | apply Hget].
Qed.

Lemma handleTest_without_candidate prov w :
  JS.truthy (apiKey (mgr w)) = false →
  status (mgr (handleTest prov w)) = st_error ∧
  storage (handleTest prov w) = storage w ∧ calls (handleTest prov w) = calls w.
Proof. intros Hk. unfold handleTest. by rewrite Hk. Qed.

Lemma handleTest_classifies_examples :
  let w := setApiKey "candidate" (world0 None) in
  (let w' := handleTest (Examples.prov_rejects Examples.overloaded) w in
   status (mgr w') = st_success ∧ stored (storage w') = Some "candidate" ∧
   getApiKey w' = Some "candidate" ∧ hasApiKey (app w') = true) ∧
  (let w' := handleTest (Examples.prov_rejects Examples.key_invalid) w in
   status (mgr w') = st_error ∧ storage w' = storage w ∧ getApiKey w' = getApiKey w) ∧
  (let w' := handleTest (λ _ _, Examples.respond EmptyString) w in
   status (mgr w') = st_error ∧ storage w' = storage w ∧ getApiKey w' = getApiKey w).
Proof.
  repeat apply conj.
  - exact (proj1 (handleTest_classifies (Examples.prov_rejects Examples.overloaded)
                    (setApiKey "candidate" (world0 None)) eq_refl)).
  - exact (proj1 (proj2 (handleTest_classifies (Examples.prov_rejects Examples.overloaded)
                    (setApiKey "candidate" (world0 None)) eq_refl))).
  - exact (proj1 (proj2 (proj2 (handleTest_classifies (Examples.prov_rejects Examples.overloaded)
                    (setApiKey "candidate" (world0 None)) eq_refl)))).
  - exact (proj2 (proj2 (proj2 (handleTest_classifies (Examples.prov_rejects Examples.overloaded)
                    (setApiKey "candidate" (world0 None)) eq_refl)))).
  - exact (proj1 (handleTest_classifies (Examples.prov_rejects Examples.key_invalid)
                    (setApiKey "candidate" (world0 None)) eq_refl)).
  - exact (proj1 (proj2 (handleTest_classifies (Examples.prov_rejects Examples.key_invalid)
                    (setApiKey "candidate" (world0 None)) eq_refl))).
  - exact (proj2 (proj2 (handleTest_classifies (Examples.prov_rejects Examples.key_invalid)
                    (setApiKey "candidate" (world0 None)) eq_refl))).
  - exact (proj1 (handleTest_classifies (λ _ _, Examples.respond EmptyString)
                    (setApiKey "candidate" (world0 None)) eq_refl)).
  - exact (proj1 (proj2 (handleTest_classifies (λ _ _, Examples.respond EmptyString)
                    (setApiKey "candidate" (world0 None)) eq_refl))).
  - exact (proj2 (proj2 (handleTest_classifies (λ _ _, Examples.respond EmptyString)
                    (setApiKey "candidate" (world0 None)) eq_refl))).
Defined.

(** C6, at the failing input.  The call of a credential test is rejected
    for an invalid key.  The message of the error does not speak of an
    overload, but the stack of the error names a frame at line 503 of the
    client, [index.mjs:503:11], and the text in which the handler looks for
    [503] is the stringified error, stack included.  The test reports
    success, with the message of the overloaded service, and the candidate
    is stored as the active credential.  The same rejection thrown from line
    504 is reported as an error and nothing is stored. *)
Theorem C6_invalid_key_taken_for_overload :
  let w := setApiKey "candidate" (world0 None) in
  let e := Examples.key_invalid_at "503" in
  message_of e = Some "API key not valid. Please pass a valid API key." ∧
  is_overloaded "API key not valid. Please pass a valid API key." = false ∧
  (let w' := handleTest (Examples.prov_rejects e) w in
   status (mgr w') = st_success ∧ message (mgr w') = MsgValidOverloaded ∧
   stored (storage w') = Some "candidate" ∧ getApiKey w' = Some "candidate" ∧
   hasApiKey (app w') = true) ∧
  (let w' := handleTest (Examples.prov_rejects (Examples.key_invalid_at "504")) w in
   status (mgr w') = st_error ∧ storage w' = storage w ∧ getApiKey w' = None).
Proof. vm_compute. repeat split. Qed.

(** *** Export and import *)

Lemma events_since_app w evs tr :
  tr = trace w ++ evs → drop (length (trace w)) tr = evs.
Proof. intros ->. by rewrite drop_app_length. Qed.

Section ExportImport.

Variable Salt : Type.
Variable AES_encrypt : Salt → string → string → string.
Variable AES_decrypt_Utf8 : string → string → option string.

Lemma handleSave_events (salt : Salt) (w : World) :
  JS.truthy (apiKey (mgr w)) = true → JS.truthy (password (mgr w)) = true →
  events_since w (handleSave Salt AES_encrypt salt w) =
    [EvSaveAs "api-keys.enc"
       (AES_encrypt salt (key_file (apiKey (mgr w))) (password (mgr w)));
     EvStorageSet (apiKey (mgr w)); EvKeyUpdated; EvSetHasApiKey true;
     EvAlert AlertSaved].
Proof.
  intros Hk Hp. unfold handleSave. rewrite Hk, Hp. simpl.
  unfold events_since. apply events_since_app. simpl.
  unfold getApiKey, JS.or_else. simpl. rewrite Hk. simpl. rewrite Hk.
  rewrite <- !app_assoc. simpl. by rewrite Hk.
Qed.

(** C10.  An export with a credential and a passphrase typed in saves the
    encrypted file and, besides, stores the credential as the active one
    and signals the update: [hasApiKey] is recomputed. *)
Theorem C10_handleSave_persists (salt : Salt) (w : World) :
  JS.truthy (apiKey (mgr w)) = true → JS.truthy (password (mgr w)) = true →
  let key := apiKey (mgr w) in
  let w' := handleSave Salt AES_encrypt salt w in
  stored (storage w') = Some key ∧ getApiKey w' = Some key ∧
  hasApiKey (app w') = true ∧
  events_since w w' =
    [EvSaveAs "api-keys.enc" (AES_encrypt salt (key_file key) (password (mgr w)));
     EvStorageSet key; EvKeyUpdated; EvSetHasApiKey true; EvAlert AlertSaved].
Proof.
  intros Hk Hp. split; [|split; [|split]].
  - unfold handleSave. by rewrite Hk, Hp.
  - apply getApiKey_stored; [|done]. unfold handleSave. by rewrite Hk, Hp.
  - unfold handleSave. rewrite Hk, Hp. simpl.
    unfold getApiKey, JS.or_else. simpl. rewrite Hk. simpl. by rewrite Hk.
  - by apply handleSave_events.
Qed.

(** The two laws of the cipher: a blob decrypts under its own passphrase
    to the text that was encrypted, and under another passphrase to no
    text, or to bytes that are not a text.  The second is the ideal of a
    cipher: it leaves out that the bytes a wrong passphrase gives could
    happen to be a text. *)
Hypothesis AES_round_trip : ∀ salt data pass,
  AES_decrypt_Utf8 (AES_encrypt salt data pass) pass = Some data.
Hypothesis AES_wrong_pass : ∀ salt data pass pass',
  pass' ≠ pass →
  AES_decrypt_Utf8 (AES_encrypt salt data pass) pass' = None ∨
  AES_decrypt_Utf8 (AES_encrypt salt data pass) pass' = Some EmptyString.

(** C4, as the code has it.  The file exported for a credential under a
    passphrase, both non-empty, imports under the same passphrase to that
    credential, which becomes the stored one.  Under another passphrase the
    import fails and changes nothing but the alert: the decryption-failure
    alert when that passphrase is not empty, and the request for a
    passphrase, with no decryption tried, when it is empty. *)
Theorem C4_export_import_round_trip (salt : Salt) (cred pass : string) (w0 w : World) :
  cred ≠ EmptyString → pass ≠ EmptyString →
  apiKey (mgr w0) = cred → password (mgr w0) = pass →
  let blob := AES_encrypt salt (key_file cred) pass in
  events_since w0 (handleSave Salt AES_encrypt salt w0) !! 0
    = Some (EvSaveAs "api-keys.enc" blob) ∧
  (password (mgr w) = pass →
   let w' := handleLoad AES_decrypt_Utf8 (Some blob) w in
   stored (storage w') = Some cred ∧ getApiKey w' = Some cred ∧
   apiKey (mgr w') = cred ∧ last_alert w' = Some AlertLoaded) ∧
  (∀ wrongPass, wrongPass ≠ pass → password (mgr w) = wrongPass →
   handleLoad AES_decrypt_Utf8 (Some blob) w =
   alert (if JS.truthy wrongPass then AlertLoadFailed else AlertNeedPassword) w).
Proof.
  intros Hc Hp Hkey Hpass blob.
  apply JS_truthy_true in Hc, Hp.
  split; [|split].
  - rewrite handleSave_events by (by rewrite ?Hkey, ?Hpass).
    simpl. by rewrite Hkey, Hpass.
  - intros Hw. unfold handleLoad, handleLoad_onload. rewrite Hw, Hp. simpl.
    unfold blob. rewrite AES_round_trip, key_file_truthy, parse_key_file. simpl.
    rewrite Hc. repeat split.
    + by apply getApiKey_stored.
    + unfold last_alert. simpl. rewrite !omap_app. simpl. by rewrite last_snoc.
  - intros wrongPass Hne Hw. unfold handleLoad, handleLoad_onload. rewrite Hw.
    destruct (JS.truthy wrongPass); simpl; [|done]. unfold blob.
    by destruct (AES_wrong_pass salt (key_file cred) pass wrongPass Hne) as [-> | ->].
Qed.

(** C5, as the code has it.  When the blob decrypts to a text that parses
    but has no credential member, the import does not succeed: storage, the
    dialog and the application are left as they were, and what is reported,
    if anything, is the alert of a failed decryption. *)
Theorem C5_import_without_credential (blob pass t : string) (v : json) (w : World) :
  password (mgr w) = pass → pass ≠ EmptyString →
  AES_decrypt_Utf8 blob pass = Some t → t ≠ EmptyString →
  JSON_parse t = Some v → lacks_credential v →
  let w' := handleLoad AES_decrypt_Utf8 (Some blob) w in
  (w' = w ∨ w' = alert AlertLoadFailed w) ∧
  storage w' = storage w ∧ mgr w' = mgr w ∧ app w' = app w.
Proof.
  intros Hw Hp Hd Ht Hv Hlack. apply JS_truthy_true in Hp, Ht.
  unfold handleLoad, handleLoad_onload. rewrite Hw, Hp. simpl.
  rewrite Hd, Ht, Hv. simpl.
  destruct v as [| | | | |ms]; simpl in *; auto.
  rewrite Hlack. auto.
Qed.

End ExportImport.

(** The cipher of the examples has the two laws. *)
Lemma toy_strip_tag pass data :
  ToyCipher.strip (ToyCipher.tag pass) (ToyCipher.tag pass +:+ data) = Some data.
Proof.
  induction pass as [|c pass IH]; [done|]. simpl. by rewrite Ascii.eqb_refl.
Qed.

Lemma toy_round_trip (salt : unit) data pass :
  ToyCipher.decrypt_Utf8 (ToyCipher.encrypt salt data pass) pass = Some data.
Proof. apply toy_strip_tag. Qed.

Lemma toy_wrong_pass (salt : unit) data pass pass' :
  pass' ≠ pass →
  ToyCipher.decrypt_Utf8 (ToyCipher.encrypt salt data pass) pass' = None ∨
  ToyCipher.decrypt_Utf8 (ToyCipher.encrypt salt data pass) pass' = Some EmptyString.
Proof.
  intros Hne. left. unfold ToyCipher.decrypt_Utf8, ToyCipher.encrypt.
  revert pass Hne. induction pass' as [|c' pass' IH]; intros [|c pass] Hne; try done.
  simpl. destruct (Ascii.eqb c' c) eqn:Hc; [|done].
  apply Ascii.eqb_eq in Hc as ->. apply IH. congruence.
Qed.

Lemma C10_handleSave_persists_witness :
  let w := setPassword "pw" (setApiKey "sk-123" (world0 None)) in
  let w' := handleSave unit ToyCipher.encrypt tt w in
  stored (storage w) = None ∧ stored (storage w') = Some "sk-123" ∧
  hasApiKey (app w) = false ∧ hasApiKey (app w') = true.
Proof.
  pose proof (C10_handleSave_persists unit ToyCipher.encrypt tt
                (setPassword "pw" (setApiKey "sk-123" (world0 None)))
                eq_refl eq_refl) as (Hs & _ & Hh & _).
  exact (conj eq_refl (conj Hs (conj eq_refl Hh))).
Defined.

Lemma C4_export_import_round_trip_witness :
  let blob := ToyCipher.encrypt tt (key_file "sk-123") "pw" in
  stored (storage (handleLoad ToyCipher.decrypt_Utf8 (Some blob)
                     (setPassword "pw" (world0 None)))) = Some "sk-123" ∧
  handleLoad ToyCipher.decrypt_Utf8 (Some blob) (setPassword "other" (world0 None))
  = alert AlertLoadFailed (setPassword "other" (world0 None)).
Proof.
  split.
  - exact (proj1 (proj1 (proj2 (C4_export_import_round_trip unit ToyCipher.encrypt
             ToyCipher.decrypt_Utf8 toy_round_trip toy_wrong_pass tt "sk-123" "pw"
             (setPassword "pw" (setApiKey "sk-123" (world0 None)))
             (setPassword "pw" (world0 None))
             ltac:(discriminate) ltac:(discriminate) eq_refl eq_refl)) eq_refl)).
  - exact (proj2 (proj2 (C4_export_import_round_trip unit ToyCipher.encrypt
             ToyCipher.decrypt_Utf8 toy_round_trip toy_wrong_pass tt "sk-123" "pw"
             (setPassword "pw" (setApiKey "sk-123" (world0 None)))
             (setPassword "other" (world0 None))
             ltac:(discriminate) ltac:(discriminate) eq_refl eq_refl))
             "other" ltac:(discriminate) eq_refl).
Defined.

(** C4 as stated fails at the empty passphrase, which differs from the
    passphrase of the export: the import stops before any decryption, with
    the request for a passphrase and not with the decryption failure. *)
Lemma C4_counterexample :
  let blob := ToyCipher.encrypt tt (key_file "sk-123") "pw" in
  let w := setPassword EmptyString (world0 None) in
  EmptyString ≠ "pw" ∧
  handleLoad ToyCipher.decrypt_Utf8 (Some blob) w = alert AlertNeedPassword w ∧
  last_alert (handleLoad ToyCipher.decrypt_Utf8 (Some blob) w) ≠ Some AlertLoadFailed.
Proof. repeat split; [discriminate | vm_compute; discriminate]. Qed.

Lemma C5_import_without_credential_witness :
  let w := setPassword "pw" (world0 (Some "old")) in
  let w' := handleLoad ToyCipher.decrypt_Utf8 (Some (ToyCipher.encrypt tt "[1]" "pw")) w in
  storage w' = storage w ∧ mgr w' = mgr w ∧ app w' = app w.
Proof.
  exact (proj2 (C5_import_without_credential ToyCipher.decrypt_Utf8
                  (ToyCipher.encrypt tt "[1]" "pw") "pw" "[1]" (JArr [JNum 1])
                  (setPassword "pw" (world0 (Some "old")))
                  eq_refl ltac:(discriminate) eq_refl ltac:(discriminate) eq_refl I)).
Defined.

(** C5 as stated fails: a decrypted [null] is reported with the very alert
    of a wrong passphrase, and a decrypted object without the member is not
    reported at all. *)
Lemma C5_counterexample :
  let w := setPassword "pw" (world0 None) in
  let null_file := ToyCipher.encrypt tt "null" "pw" in
  let empty_object := ToyCipher.encrypt tt "{}" "pw" in
  let other_passphrase := ToyCipher.encrypt tt (key_file "sk-123") "other" in
  handleLoad ToyCipher.decrypt_Utf8 (Some null_file) w
  = handleLoad ToyCipher.decrypt_Utf8 (Some other_passphrase) w ∧
  handleLoad ToyCipher.decrypt_Utf8 (Some null_file) w = alert AlertLoadFailed w ∧
  handleLoad ToyCipher.decrypt_Utf8 (Some empty_object) w = w.
Proof. repeat split; vm_compute; reflexivity. Qed.

(** ** Reference images *)

Lemma handleImageUpload_rejects files w :
  20 < length (referenceImages (app w)) + length files →
  handleImageUpload files w = alert AlertTooManyImages w.
Proof.
  intros H. unfold handleImageUpload.
  by rewrite (proj2 (Nat.ltb_lt _ _) H).
Qed.

Lemma handleImageUpload_rejects_unchanged files w :
  20 < length (referenceImages (app w)) + length files →
  referenceImages (app (handleImageUpload files w)) = referenceImages (app w) ∧
  pending_reads (handleImageUpload files w) = pending_reads w.
Proof. intros H. by rewrite handleImageUpload_rejects. Qed.

Lemma length_delete_le {A} (l : list A) i : length (delete i l) ≤ length l.
Proof.
  revert i. induction l as [|x l IH]; intros [|i]; simpl; auto.
  specialize (IH i). lia.
Qed.

(** As long as no upload starts while reads of an earlier one are pending,
    the images and the pending reads together stay within twenty. *)
Lemma ui_step_bound w ev :
  length (referenceImages (app w)) + length (pending_reads w) ≤ 20 →
  (∀ files, ev = Upload files → pending_reads w = []) →
  let w' := ui_step w ev in
  length (referenceImages (app w')) + length (pending_reads w') ≤ 20.
Proof.
  intros Hinv Hq. destruct ev as [files|j|index|]; simpl.
  - rewrite (Hq files eq_refl) in *. unfold handleImageUpload.
    destruct (20 <? _)%nat eqn:Hlt; simpl.
    + rewrite (Hq files eq_refl). simpl. simpl in Hinv. lia.
    + apply Nat.ltb_ge in Hlt. rewrite (Hq files eq_refl). simpl.
      lia.
  - unfold reader_onload. destruct (pending_reads w !! j) as [result|] eqn:Hj; [|done].
    pose proof (length_delete (pending_reads w) j (mk_is_Some _ _ Hj)) as Hdel.
    apply lookup_lt_Some in Hj.
    destruct (JS.truthy result); simpl; rewrite ?length_app; simpl; lia.
  - pose proof (length_delete_le (referenceImages (app w)) index).
    unfold removeReferenceImage. simpl. lia.
  - simpl. lia.
Qed.

(** C9, at the failing input.  Two uploads of fifteen files each, the
    second started before any read of the first has ended, both pass the
    test against twenty, and when the thirty reads have ended the set holds
    thirty images; no alert was shown. *)
Theorem C9_overlapping_uploads_exceed_limit :
  let w := ui_run (Upload Examples.files15 :: Upload Examples.files15 ::
                   replicate 30 (ReadDone 0)) (world0 None) in
  length (referenceImages (app w)) = 30 ∧ pending_reads w = [] ∧
  last_alert w = None.
Proof. vm_compute. done. Qed.

(** ** The workflow *)

Lemma last_alert_snoc w tr a :
  trace w = tr ++ [EvAlert a] → last_alert w = Some a.
Proof. intros H. unfold last_alert. rewrite H, omap_app. simpl. by rewrite last_snoc. Qed.

Lemma catch_spec e w :
  storage (catch e w) = storage w ∧ heap (catch e w) = heap w ∧
  segments (app (catch e w)) = segments (app w) ∧
  workflowState (app (catch e w)) = idle ∧
  hasApiKey (app (catch e w)) = (if entity_not_found e then false else hasApiKey (app w)) ∧
  trace (catch e w) = trace w ++ catch_events e ∧
  last_alert (catch e w)
  = Some (if entity_not_found e then AlertInvalidKey
          else AlertAutomationFailed (message_of e)).
Proof.
  unfold catch, catch_events.
  destruct (entity_not_found e); simpl; repeat split; try (by rewrite <- !app_assoc).
  - by apply (last_alert_snoc _ (((trace w ++ [EvConsoleError e])
              ++ [EvSetWorkflowState idle]) ++ [EvSetHasApiKey false])).
  - by apply (last_alert_snoc _ ((trace w ++ [EvConsoleError e])
              ++ [EvSetWorkflowState idle])).
Qed.

Lemma catch_events_no_image e : Forall (λ ev, image_event ev = false) (catch_events e).
Proof. unfold catch_events. destruct (entity_not_found e); repeat constructor. Qed.

Lemma generateInstagramPost_spec prov topic segs w :
  ∃ evs,
    trace (generateInstagramPost prov topic segs w).2 = trace w ++ evs ∧
    Forall (λ ev, image_event ev = false) evs ∧
    Forall (λ ev, is_report ev = false) evs ∧
    storage (generateInstagramPost prov topic segs w).2 = storage w ∧
    heap (generateInstagramPost prov topic segs w).2 = heap w ∧
    app (generateInstagramPost prov topic segs w).2 = app w ∧
    (∀ e, (generateInstagramPost prov topic segs w).1 = Throw e →
          entity_not_found e = true → JS.truthy_opt (getApiKey w) = true).
Proof.
  unfold generateInstagramPost, generateContent.
  destruct (getApiKey w) as [key|] eqn:Hkey;
    [|exists []; rewrite app_nil_r; repeat split; auto; by intros e [= <-]].
  destruct (JS.truthy key) eqn:Hk;
    [|exists []; rewrite app_nil_r; repeat split; auto; by intros e [= <-]].
  exists [EvIssue (calls w) (ReqPost key topic (summary_of segs));
          EvSettle (calls w) (prov (calls w) (ReqPost key topic (summary_of segs)))].
  destruct (prov _ _) as [r|e0]; simpl;
    [destruct (text r) as [t|]; [destruct (JS.truthy t); [destruct (JSON_parse t)|]|]|];
    simpl; rewrite <- !app_assoc; repeat split; auto;
    try (repeat constructor); intros; exact Hk.
Qed.

Lemma caption_phase_spec prov topic segs w :
  ∃ rest,
    trace (caption_phase prov topic segs w) = trace w ++ rest ∧
    Forall (λ ev, image_event ev = false) rest ∧
    storage (caption_phase prov topic segs w) = storage w ∧
    heap (caption_phase prov topic segs w) = heap w ∧
    segments (app (caption_phase prov topic segs w)) = segments (app w).
Proof.
  unfold caption_phase.
  destruct (generateInstagramPost_spec prov topic segs w)
    as (evs & Htr & Hev & _ & Hst & Hh & Happ & _).
  destruct (generateInstagramPost prov topic segs w) as [[post|e] w1]; simpl in *.
  - exists (evs ++ [EvSetPostData (Some post); EvSetWorkflowState completed]).
    rewrite Htr, Happ, <- !app_assoc. repeat split; auto.
    apply Forall_app. split; [done|repeat constructor].
  - destruct (catch_spec e w1) as (Hs & Hhp & Hsg & _ & _ & Ht & _).
    exists (evs ++ catch_events e).
    rewrite Ht, Htr, Hs, Hhp, Hsg, Happ, <- !app_assoc. repeat split; auto.
    apply Forall_app. split; [done|apply catch_events_no_image].
Qed.

(** Whatever the provider does, the image phase goes one of the ways of
    [images_go]. *)
Lemma images_script_go prov eng key ratio refs : ∀ rest c,
  let sc := images_script prov eng key ratio refs c rest in
  length sc.1 ≤ length rest ∧
  (∀ j s u, rest !! j = Some s → sc.1 !! j = Some u →
     image_resolves prov key ratio refs (c + j) s u) ∧
  match sc.2 with
  | None => length sc.1 = length rest
  | Some e => ∃ s, rest !! length sc.1 = Some s ∧
                   image_throws prov eng key ratio refs (c + length sc.1) s e
  end.
Proof.
  induction rest as [|s rest IH]; intros c; simpl; [repeat split; [lia|done]|].
  destruct (prov c (ReqImage key s ratio refs)) as [r|e] eqn:Hr; simpl.
  - destruct (first_inline (default [] (parts r))) as [d|] eqn:Hd; simpl.
    + destruct (IH (S c)) as (Hlen & Hok & Hfail). split; [lia|]. split.
      * intros [|j] s' u Hs Hu; simpl in *.
        -- injection Hs as <-. injection Hu as <-. rewrite Nat.add_0_r. by exists r, d.
        -- replace (c + S j) with (S c + j) by lia. by apply Hok.
      * destruct (images_script prov eng key ratio refs (S c) rest).2 as [e|]; [|lia].
        destruct Hfail as (s' & Hs' & Hthrow). exists s'. split; [done|].
        by replace (c + S (length (images_script prov eng key ratio refs (S c) rest).1))
             with (S c + length (images_script prov eng key ratio refs (S c) rest).1)
             by lia.
    + split; [lia|]. split; [done|]. exists s. split; [done|].
      rewrite Nat.add_0_r. right. by exists r.
  - split; [lia|]. split; [done|]. exists s. split; [done|].
    rewrite Nat.add_0_r. by left.
Qed.

Lemma images_go_total prov w key plan :
  ∃ urls fail, images_go prov w key plan urls fail.
Proof.
  pose proof (images_script_go prov (engine w) key (ratio (app w))
                (referenceImages (app w)) plan (S (calls w))) as H.
  eexists _, _. exact H.
Qed.

Lemma progress_imageUrl_lt plan urls j u :
  length urls ≤ length plan → urls !! j = Some u →
  ∃ s, progress plan urls !! j = Some s ∧ imageUrl s = Some u.
Proof.
  intros Hlen Hu.
  destruct (lookup_lt_is_Some_2 plan j) as [s Hs].
  { apply lookup_lt_Some in Hu. lia. }
  exists (with_imageUrl s u). split; [by apply progress_lookup_lt|done].
Qed.

Lemma progress_imageUrl_ge plan urls j s :
  Forall no_image plan → length urls ≤ j →
  progress plan urls !! j = Some s → imageUrl s = None.
Proof.
  intros Hno Hj. rewrite progress_lookup_ge by done. intros Hs.
  by apply (Forall_lookup_1 _ _ _ _ Hno Hs).
Qed.

(** C2, as the code has it.  In a run whose plan has [n] image-less
    segments, whose image calls resolve for the first [k-1] segments and
    whose call for segment [k] throws [e]: the workflow is back in idle; the
    published list is the plan, all [n] segments, with the images of the
    first [k-1] set and none from [k] on; and one alert is shown, the generic
    failure alert unless the message of [e] holds [Requested entity was not
    found], in which case it is the invalid-key alert and [hasApiKey] is
    cleared. *)
Theorem C2_image_failure_keeps_progress prov w0 key plan urls e :
  hasApiKey (app w0) = true → JS.truthy (topic (app w0)) = true →
  plan_resolves prov w0 key plan → Forall no_image plan →
  images_go prov w0 key plan urls (Some e) →
  ∃ w',
    handleStartAutomation prov w0 = Done w' ∧
    workflowState (app w') = idle ∧
    view w' = progress plan urls ∧ length (view w') = length plan ∧
    (∀ j u, urls !! j = Some u → ∃ s, view w' !! j = Some s ∧ imageUrl s = Some u) ∧
    (∀ j s, length urls ≤ j → view w' !! j = Some s → imageUrl s = None) ∧
    last_alert w' = Some (if entity_not_found e then AlertInvalidKey
                          else AlertAutomationFailed (message_of e)) ∧
    hasApiKey (app w') = negb (entity_not_found e).
Proof.
  intros Hhas Htopic Hplan Hno Hgo.
  pose proof Hgo as (Hlen & _ & _).
  eexists. split; [apply (run_to_images prov w0 key plan urls Hhas Htopic Hplan _ Hgo)|].
  destruct (catch_spec e (after_images prov w0 key plan urls (Some e)))
    as (_ & Hheap & Hsegs & Hidle & Hkey & _ & Halert).
  assert (view (catch e (after_images prov w0 key plan urls (Some e)))
          = progress plan urls) as Hview.
  { unfold view. rewrite Hheap, Hsegs. simpl. apply deref_progress. }
  rewrite Hview, Hkey. repeat split; auto.
  - apply progress_length.
  - intros j u Hu. by apply progress_imageUrl_lt.
  - intros j s. by apply progress_imageUrl_ge.
  - simpl. rewrite Hhas. by destruct (entity_not_found e).
Qed.

Lemma C2_image_failure_keeps_progress_witness :
  ∃ w',
    handleStartAutomation (Examples.prov_fails_on_2 Examples.key_invalid)
      (Examples.ready "k") = Done w' ∧
    workflowState (app w') = idle ∧
    view w' = [with_imageUrl Examples.seg1 "data:image/png;base64,imga"; Examples.seg2] ∧
    last_alert w'
    = Some (AlertAutomationFailed (Some "API key not valid. Please pass a valid API key.")).
Proof.
  destruct (C2_image_failure_keeps_progress
              (Examples.prov_fails_on_2 Examples.key_invalid) (Examples.ready "k") "k"
              [Examples.seg1; Examples.seg2] ["data:image/png;base64,imga"]
              Examples.key_invalid eq_refl eq_refl)
    as (w' & Hrun & Hidle & Hview & _ & _ & _ & Halert & _).
  - repeat split. exists {| text := Some Examples.plan_text_2; parts := None |},
      Examples.plan_text_2. eexists. repeat split; vm_compute; reflexivity.
  - repeat constructor.
  - split; [simpl; lia|]. split.
    + intros [|[|j]] s u Hs Hu; try done. injection Hs as <-. injection Hu as <-.
      eexists _, _. repeat split; reflexivity.
    + exists Examples.seg2. split; [done|]. by left.
  - exists w'. by repeat split.
Defined.

(** C2 as stated fails when the call that throws is rejected with the
    entity-not-found message: the alert is the invalid-key alert, not the
    generic one. *)
Lemma C2_counterexample :
  ∃ w',
    handleStartAutomation (Examples.prov_fails_on_2 Examples.not_found)
      (Examples.ready "k") = Done w' ∧
    workflowState (app w') = idle ∧
    view w' = [with_imageUrl Examples.seg1 "data:image/png;base64,imga"; Examples.seg2] ∧
    last_alert w' = Some AlertInvalidKey ∧
    ∀ m, last_alert w' ≠ Some (AlertAutomationFailed m).
Proof.
  eexists. split; [vm_compute; reflexivity|].
  repeat split; try (vm_compute; reflexivity). intros m. vm_compute. discriminate.
Qed.

Lemma filter_no_image_event j evs :
  Forall (λ ev, image_event ev = false) evs → List.filter (stores_image j) evs = [].
Proof.
  induction 1 as [|ev evs Hev _ IH]; [done|]. simpl. rewrite IH.
  by destruct ev.
Qed.

Lemma image_block_stores prov key ratio refs plan urls c i j :
  i < length urls → length urls ≤ length plan →
  length (List.filter (stores_image j)
            (image_block prov key ratio refs plan urls c i))
  = if decide (i = j) then 1 else 0.
Proof.
  intros Hi Hlen. unfold image_block.
  destruct (lookup_lt_is_Some_2 plan i) as [s ->]; [lia|].
  destruct (lookup_lt_is_Some_2 urls i) as [u ->]; [lia|]. simpl.
  destruct (decide (i = j)) as [->|Hne].
  - by rewrite Nat.eqb_refl.
  - by rewrite (proj2 (Nat.eqb_neq i j) Hne).
Qed.

Lemma image_blocks_stores prov key ratio refs plan urls c j : ∀ n from,
  from + n ≤ length urls → length urls ≤ length plan →
  length (List.filter (stores_image j)
            (image_blocks prov key ratio refs plan urls c from (from + n)))
  = if decide (from ≤ j < from + n) then 1 else 0.
Proof.
  induction n as [|n IH]; intros from Hn Hlen.
  - rewrite Nat.add_0_r, image_blocks_nil. simpl. by rewrite decide_False by lia.
  - rewrite image_blocks_cons by lia.
    rewrite List.filter_app, length_app, image_block_stores by lia.
    replace (from + S n) with (S from + n) by lia. rewrite IH by lia.
    repeat case_decide; lia.
Qed.

Lemma progress_explicit plan urls j s :
  Forall no_image plan → length urls ≤ length plan →
  progress plan urls !! j = Some s →
  ∃ p, plan !! j = Some p ∧
       s = {| id := id p; logicalStep := logicalStep p; keyMessage := keyMessage p;
              visualPrompt := visualPrompt p; imageUrl := urls !! j |}.
Proof.
  intros Hno Hlen Hs.
  destruct (urls !! j) as [u|] eqn:Hu.
  - destruct (lookup_lt_is_Some_2 plan j) as [p Hp].
    { apply lookup_lt_Some in Hu. lia. }
    rewrite (progress_lookup_lt plan urls j p u Hp Hu) in Hs. injection Hs as <-.
    by exists p.
  - apply lookup_ge_None in Hu. rewrite progress_lookup_ge in Hs by done.
    exists s. split; [done|].
    pose proof (Forall_lookup_1 _ _ _ _ Hno Hs) as Himg. unfold no_image in Himg.
    destruct s. simpl in *. by subst.
Qed.

(** C7, as the code has it.  A run whose plan came without images and
    that reaches the image phase makes its image calls one after the other.
    Up to the image phase nothing with an image is stored or published.
    Then comes one block per segment in order: the call for the segment is
    issued, it settles, its url is stored in the segment, and the whole
    list is published, in which the segments up to this one carry the urls
    of their calls and the later ones none; only then is the next call
    issued.  After the blocks come the call that threw, if one did, and
    events that neither issue an image call nor store or publish anything.
    Each segment whose call resolved has its image stored once, the others
    never, and at the end each segment on screen is the planned one with
    the url of its call, if that call resolved, and with none otherwise. *)
Theorem C7_images_one_after_the_other prov w0 key plan urls fail :
  hasApiKey (app w0) = true → JS.truthy (topic (app w0)) = true →
  plan_resolves prov w0 key plan → Forall no_image plan →
  images_go prov w0 key plan urls fail →
  ∃ w' rest,
    handleStartAutomation prov w0 = Done w' ∧
    events_since w0 w' =
      run_prefix prov w0 key plan ++
      image_blocks prov key (ratio (app w0)) (referenceImages (app w0)) plan urls
        (S (calls w0)) 0 (length urls) ++
      fail_events prov key (ratio (app w0)) (referenceImages (app w0)) plan urls
        (S (calls w0)) fail ++
      rest ∧
    Forall (λ ev, publishes_image ev = false) (run_prefix prov w0 key plan) ∧
    Forall (λ ev, image_event ev = false) rest ∧
    (∀ j, length (List.filter (stores_image j) (events_since w0 w'))
          = if decide (j < length urls) then 1 else 0) ∧
    (∀ k j s, progress plan (take (S k) urls) !! j = Some s →
       ∃ p, plan !! j = Some p ∧
            s = {| id := id p; logicalStep := logicalStep p;
                   keyMessage := keyMessage p; visualPrompt := visualPrompt p;
                   imageUrl := if decide (j ≤ k) then urls !! j else None |}) ∧
    length (view w') = length plan ∧
    (∀ j s, view w' !! j = Some s →
       ∃ p, plan !! j = Some p ∧
            s = {| id := id p; logicalStep := logicalStep p;
                   keyMessage := keyMessage p; visualPrompt := visualPrompt p;
                   imageUrl := urls !! j |}).
Proof.
  intros Hhas Htopic Hplan Hno Hgo.
  pose proof Hgo as (Hlen & _ & _).
  pose proof (run_to_images prov w0 key plan urls Hhas Htopic Hplan fail Hgo) as Hrun.
  assert (Forall (λ ev, publishes_image ev = false) (run_prefix prov w0 key plan)) as Hpre.
  { repeat constructor. simpl. apply not_true_is_false. intros Hex.
    apply existsb_exists in Hex as (s & Hin & Hs).
    apply list_elem_of_In in Hin. rewrite Forall_forall in Hno.
    specialize (Hno s Hin). unfold no_image in Hno. by rewrite Hno in Hs. }
  assert (∀ k j s, progress plan (take (S k) urls) !! j = Some s →
            ∃ p, plan !! j = Some p ∧
                 s = {| id := id p; logicalStep := logicalStep p;
                        keyMessage := keyMessage p; visualPrompt := visualPrompt p;
                        imageUrl := if decide (j ≤ k) then urls !! j else None |})
    as Hblock.
  { intros k j s Hs.
    destruct (progress_explicit plan (take (S k) urls) j s Hno) as (p & Hp & ->);
      [rewrite length_take; lia|done|].
    exists p. split; [done|]. do 2 f_equal.
    case_decide.
    - apply lookup_take_lt. lia.
    - apply lookup_take_ge. lia. }
  assert (∀ w', view w' = progress plan urls →
            length (view w') = length plan ∧
            ∀ j s, view w' !! j = Some s →
              ∃ p, plan !! j = Some p ∧
                   s = {| id := id p; logicalStep := logicalStep p;
                          keyMessage := keyMessage p; visualPrompt := visualPrompt p;
                          imageUrl := urls !! j |}) as Hend.
  { intros w' ->. split; [apply progress_length|].
    intros j s Hs. by apply progress_explicit. }
  assert (∀ w' rest,
    trace w' = trace (after_images prov w0 key plan urls fail) ++ rest →
    Forall (λ ev, image_event ev = false) rest →
    events_since w0 w' =
      run_prefix prov w0 key plan ++
      image_blocks prov key (ratio (app w0)) (referenceImages (app w0)) plan urls
        (S (calls w0)) 0 (length urls) ++
      fail_events prov key (ratio (app w0)) (referenceImages (app w0)) plan urls
        (S (calls w0)) fail ++ rest ∧
    (∀ j, length (List.filter (stores_image j) (events_since w0 w'))
          = if decide (j < length urls) then 1 else 0)) as Hevents.
  { intros w' rest Htr Hrest.
    assert (events_since w0 w' =
      run_prefix prov w0 key plan ++
      image_blocks prov key (ratio (app w0)) (referenceImages (app w0)) plan urls
        (S (calls w0)) 0 (length urls) ++
      fail_events prov key (ratio (app w0)) (referenceImages (app w0)) plan urls
        (S (calls w0)) fail ++ rest) as Hev.
    { unfold events_since. apply events_since_app. rewrite Htr. simpl.
      rewrite <- !app_assoc. simpl. by rewrite <- ?app_assoc. }
    split; [done|]. intros j. rewrite Hev, !List.filter_app, !length_app.
    rewrite (filter_no_image_event j rest Hrest).
    pose proof (image_blocks_stores prov key (ratio (app w0)) (referenceImages (app w0))
                  plan urls (S (calls w0)) j (length urls) 0) as Hblocks.
    simpl in Hblocks. rewrite Hblocks by lia.
    assert (List.filter (stores_image j)
              (fail_events prov key (ratio (app w0)) (referenceImages (app w0)) plan urls
                 (S (calls w0)) fail) = []) as ->.
    { unfold fail_events. destruct fail; [|done]. by destruct (plan !! length urls). }
    simpl. repeat case_decide; lia. }
  destruct fail as [e|].
  - destruct (catch_spec e (after_images prov w0 key plan urls (Some e)))
      as (_ & Hheap & Hsegs & _ & _ & Htr & _).
    exists (catch e (after_images prov w0 key plan urls (Some e))), (catch_events e).
    destruct (Hevents _ _ Htr (catch_events_no_image e)) as [Hev Hcount].
    split; [done|]. split; [done|]. split; [done|].
    split; [apply catch_events_no_image|]. split; [done|]. split; [done|].
    apply Hend. unfold view. rewrite Hheap, Hsegs. simpl. apply deref_progress.
  - set (w1 := setWorkflowState generating_caption
                 (after_images prov w0 key plan urls None)) in *.
    destruct (caption_phase_spec prov (topic (app w0)) (progress plan urls) w1)
      as (rest & Htr & Hrest & _ & Hheap & Hsegs).
    exists (caption_phase prov (topic (app w0)) (progress plan urls) w1),
           (EvSetWorkflowState generating_caption :: rest).
    assert (Forall (λ ev, image_event ev = false)
              (EvSetWorkflowState generating_caption :: rest)) as Hrest'
      by (by constructor).
    destruct (Hevents (caption_phase prov (topic (app w0)) (progress plan urls) w1)
                (EvSetWorkflowState generating_caption :: rest)) as [Hev Hcount]; auto.
    { rewrite Htr. unfold w1. simpl. by rewrite <- !app_assoc. }
    split; [done|]. split; [done|]. split; [done|]. split; [done|].
    split; [done|]. split; [done|].
    apply Hend. unfold view. rewrite Hheap, Hsegs. simpl. apply deref_progress.
Qed.

Lemma C7_images_one_after_the_other_witness :
  ∃ w',
    handleStartAutomation Examples.prov_two (Examples.ready "k") = Done w' ∧
    view w' = [with_imageUrl Examples.seg1 "data:image/png;base64,imga";
               with_imageUrl Examples.seg2 "data:image/png;base64,imgb"] ∧
    length (List.filter (stores_image 1) (events_since (Examples.ready "k") w')) = 1.
Proof.
  destruct (C7_images_one_after_the_other Examples.prov_two (Examples.ready "k") "k"
              [Examples.seg1; Examples.seg2]
              ["data:image/png;base64,imga"; "data:image/png;base64,imgb"]
              None eq_refl eq_refl)
    as (w' & rest & Hrun & _ & _ & _ & Hcount & _ & _ & Hview).
  - repeat split. exists {| text := Some Examples.plan_text_2; parts := None |},
      Examples.plan_text_2. eexists. repeat split; vm_compute; reflexivity.
  - by repeat constructor.
  - split; [simpl; lia|]. split; [|done].
    intros [|[|[|j]]] s u Hs Hu; try done; injection Hs as <-; injection Hu as <-;
      eexists _, _; repeat split; reflexivity.
  - exists w'. split; [done|]. split; [|exact (Hcount 1)].
    vm_compute in Hrun. injection Hrun as <-. reflexivity.
Defined.

(** C7 as stated fails when the plan of the provider comes with an image:
    the list that is published when the plan arrives, before the workflow
    enters [generating_images], has a segment with an [imageUrl]. *)
Lemma C7_counterexample :
  ∃ w' before after,
    handleStartAutomation Examples.prov_plan_with_image (Examples.ready "k") = Done w' ∧
    workflowState (app w') = completed ∧
    events_since (Examples.ready "k") w'
    = before ++ [EvSetWorkflowState generating_images] ++ after ∧
    (EvSetWorkflowState generating_images ∉ before) ∧
    Exists (λ ev, publishes_image ev = true) before.
Proof.
  eexists.
  exists (take 6 (run_prefix Examples.prov_plan_with_image (Examples.ready "k") "k"
                    [with_imageUrl Examples.seg1 "https://example.com/a.png";
                     Examples.seg2])).
  eexists. split; [vm_compute; reflexivity|]. split; [vm_compute; reflexivity|].
  split; [vm_compute; reflexivity|]. split.
  - vm_compute. intros H. repeat (apply elem_of_cons in H as [H|H]; [discriminate H|]).
    by apply elem_of_nil in H.
  - vm_compute. do 5 apply Exists_cons_tl. by apply Exists_cons_hd.
Qed.

(** *** What a run leaves alone *)

Lemma quietly_refl w : quietly w w.
Proof. repeat split. exists []. split; [by rewrite app_nil_r|constructor]. Qed.

Lemma quietly_trans w1 w2 w3 : quietly w1 w2 → quietly w2 w3 → quietly w1 w3.
Proof.
  intros (Hs & Hm & Hp & He & evs & Ht & Hq) (Hs' & Hm' & Hp' & He' & evs' & Ht' & Hq').
  repeat split; try congruence.
  exists (evs ++ evs'). split; [by rewrite Ht', Ht, app_assoc|by apply Forall_app].
Qed.

Lemma quietly_getApiKey w w' : quietly w w' → getApiKey w' = getApiKey w.
Proof. intros (Hs & _). unfold getApiKey. by rewrite Hs. Qed.

Lemma quietly_log ev w : is_report ev = false → quietly w (log ev w).
Proof. intros H. repeat split. exists [ev]. split; [done|by constructor]. Qed.

Lemma quietly_with_app f w : quietly w (with_app f w).
Proof. repeat split. exists []. split; [by rewrite app_nil_r|constructor]. Qed.

Lemma quietly_with_heap f w : quietly w (with_heap f w).
Proof. repeat split. exists []. split; [by rewrite app_nil_r|constructor]. Qed.

Lemma quietly_tick w : quietly w (tick w).
Proof. repeat split. exists []. split; [by rewrite app_nil_r|constructor]. Qed.

Ltac quiet :=
  repeat first
    [ apply quietly_refl
    | eapply quietly_trans; [|first [apply quietly_log; reflexivity
                                     | apply quietly_with_app
                                     | apply quietly_with_heap
                                     | apply quietly_tick]] ].

Lemma generateContent_quiet prov req w : quietly w (generateContent prov req w).2.
Proof. unfold generateContent. simpl. quiet. Qed.

Lemma missing_key_is_not_entity eng :
  entity_not_found (new_Error eng "API Key is missing.") = false.
Proof. reflexivity. Qed.

Lemma no_image_is_not_entity eng :
  entity_not_found (new_Error eng "Failed to generate image") = false.
Proof. reflexivity. Qed.

Lemma generatePlan_quiet prov topic n ratio refs w :
  quietly w (generatePlan prov topic n ratio refs w).2 ∧
  ∀ e, (generatePlan prov topic n ratio refs w).1 = Throw e →
       entity_not_found e = true → JS.truthy_opt (getApiKey w) = true.
Proof.
  unfold generatePlan.
  destruct (getApiKey w) as [key|] eqn:Hkey; simpl;
    [|split; [apply quietly_refl|intros e [= <-]; by rewrite missing_key_is_not_entity]].
  destruct (JS.truthy key) eqn:Hk; simpl;
    [|split; [apply quietly_refl|intros e [= <-]; by rewrite missing_key_is_not_entity]].
  pose proof (generateContent_quiet prov (ReqPlan key topic n ratio refs) w) as Hq.
  unfold generateContent in *. simpl in Hq.
  destruct (prov _ _) as [r|e0]; simpl; [|split; [done|intros; simpl; auto]].
  destruct (text r) as [t|]; [destruct (JS.truthy t); [destruct (JSON_parse t)|]|];
    simpl; (split; [done|intros; simpl; auto]).
Qed.

Lemma generateImage_quiet prov seg ratio refs w :
  quietly w (generateImage prov seg ratio refs w).2 ∧
  ∀ e, (generateImage prov seg ratio refs w).1 = Throw e →
       entity_not_found e = true → JS.truthy_opt (getApiKey w) = true.
Proof.
  unfold generateImage.
  destruct (getApiKey w) as [key|] eqn:Hkey; simpl;
    [|split; [apply quietly_refl|intros e [= <-]; by rewrite missing_key_is_not_entity]].
  destruct (JS.truthy key) eqn:Hk; simpl;
    [|split; [apply quietly_refl|intros e [= <-]; by rewrite missing_key_is_not_entity]].
  pose proof (generateContent_quiet prov (ReqImage key seg ratio refs) w) as Hq.
  unfold generateContent in *. simpl in Hq.
  destruct (prov _ _) as [r|e0]; simpl; [|split; [done|intros; simpl; auto]].
  destruct (first_inline _); simpl; (split; [done|intros; simpl; auto]).
Qed.

Lemma image_loop_quiet prov ratio refs newSegments : ∀ todo i w,
  quietly w (image_loop prov ratio refs newSegments todo i w).2 ∧
  ∀ e, (image_loop prov ratio refs newSegments todo i w).1 = Some e →
       entity_not_found e = true → JS.truthy_opt (getApiKey w) = true.
Proof.
  induction todo as [|todo IH]; intros i w; simpl; [split; [apply quietly_refl|done]|].
  destruct (newSegments !! i ≫= _) as [[r seg]|]; [|split; [apply quietly_refl|done]].
  generalize (generateImage_quiet prov seg ratio refs w).
  destruct (generateImage prov seg ratio refs w) as [[url|e0] w1]; simpl;
    intros [Hq Hthrow].
  - set (w3 := setSegments newSegments (set_imageUrl r url w1)).
    assert (quietly w w3) as Hq3.
    { eapply quietly_trans; [exact Hq|]. unfold w3, setSegments, set_imageUrl. quiet. }
    destruct (IH (S i) w3) as [Hq' Hthrow']. split.
    + by eapply quietly_trans.
    + intros e He Hent. rewrite <- (quietly_getApiKey _ _ Hq3). by eapply Hthrow'.
  - split; [done|]. intros e [= <-]. by apply Hthrow.
Qed.

Lemma generateInstagramPost_quiet prov topic segs w :
  quietly w (generateInstagramPost prov topic segs w).2 ∧
  ∀ e, (generateInstagramPost prov topic segs w).1 = Throw e →
       entity_not_found e = true → JS.truthy_opt (getApiKey w) = true.
Proof.
  unfold generateInstagramPost.
  destruct (getApiKey w) as [key|] eqn:Hkey; simpl;
    [|split; [apply quietly_refl|intros e [= <-]; by rewrite missing_key_is_not_entity]].
  destruct (JS.truthy key) eqn:Hk; simpl;
    [|split; [apply quietly_refl|intros e [= <-]; by rewrite missing_key_is_not_entity]].
  pose proof (generateContent_quiet prov (ReqPost key topic (summary_of segs)) w) as Hq.
  unfold generateContent in *. simpl in Hq.
  destruct (prov _ _) as [r|e0]; simpl; [|split; [done|intros; simpl; auto]].
  destruct (text r) as [t|]; [destruct (JS.truthy t); [destruct (JSON_parse t)|]|];
    simpl; (split; [done|intros; simpl; auto]).
Qed.

(** A run either reports nothing, or ends in the [catch] block after quiet
    steps; an exception with the entity-not-found message can only come
    from a call made with a credential. *)
Lemma run_report prov w w' :
  handleStartAutomation prov w = Done w' →
  quietly w w' ∨
  ∃ e w1, w' = catch e w1 ∧ quietly w w1 ∧
          (entity_not_found e = true → JS.truthy_opt (getApiKey w) = true).
Proof.
  unfold handleStartAutomation.
  destruct (hasApiKey (app w)); simpl;
    [|intros [= <-]; left; apply quietly_with_app].
  destruct (JS.truthy (topic (app w))); simpl; [|intros [= <-]; left; apply quietly_refl].
  set (ws := setWorkflowState planning
               (setCopied false (setPostData None (setSegments [] w)))).
  assert (quietly w ws) as Hs.
  { unfold ws, setWorkflowState, setCopied, setPostData, setSegments. quiet. }
  generalize (generatePlan_quiet prov (topic (app w)) (count (app w)) (ratio (app w))
                (referenceImages (app w)) ws).
  destruct (generatePlan _ _ _ _ _ ws) as [[v|e] w1]; simpl; intros [Hq1 Hthrow1].
  2:{ intros [= <-]. right. exists e, w1. split; [done|]. split; [by eapply quietly_trans|].
      intros He. rewrite <- (quietly_getApiKey _ _ Hs). by apply (Hthrow1 e). }
  destruct (as_CarouselSegments v) as [objects|]; [|done].
  set (wi := setWorkflowState generating_images
               (setSegments (seq 0 (length objects)) (with_heap (λ _, objects) w1))).
  assert (quietly w wi) as Hi.
  { eapply quietly_trans; [exact Hs|]. eapply quietly_trans; [exact Hq1|].
    unfold wi, setWorkflowState, setSegments. quiet. }
  generalize (image_loop_quiet prov (ratio (app w)) (referenceImages (app w))
                (seq 0 (length objects)) (length (seq 0 (length objects))) 0 wi).
  destruct (image_loop _ _ _ _ _ _ wi) as [[e|] wl]; simpl; intros [Hql Hthrowl].
  { intros [= <-]. right. exists e, wl. split; [done|]. split; [by eapply quietly_trans|].
    intros He. rewrite <- (quietly_getApiKey _ _ Hi). by apply (Hthrowl e). }
  set (wc := setWorkflowState generating_caption wl).
  assert (quietly w wc) as Hc.
  { eapply quietly_trans; [exact Hi|]. eapply quietly_trans; [exact Hql|].
    unfold wc, setWorkflowState. quiet. }
  generalize (generateInstagramPost_quiet prov (topic (app w))
                (deref (heap wc) (seq 0 (length objects))) wc).
  destruct (generateInstagramPost _ _ _ wc) as [[post|e] wp]; simpl; intros [Hqp Hthrowp].
  - intros [= <-]. left. eapply quietly_trans; [exact Hc|].
    eapply quietly_trans; [exact Hqp|]. unfold setWorkflowState, setPostData. quiet.
  - intros [= <-]. right. exists e, wp. split; [done|]. split; [by eapply quietly_trans|].
    intros He. rewrite <- (quietly_getApiKey _ _ Hc). by apply (Hthrowp e).
Qed.

Lemma quietly_no_console w w' e :
  quietly w w' → EvConsoleError e ∉ events_since w w'.
Proof.
  intros (_ & _ & _ & _ & evs & Ht & Hq) Hin. unfold events_since in Hin.
  rewrite Ht, drop_app_length in Hin. rewrite Forall_forall in Hq.
  by specialize (Hq _ Hin).
Qed.

(** C3, as the code has it.  A run never writes to storage: after it,
    [get()] returns what it returned before.  When the run catches a failure
    with the entity-not-found message, it ends in idle with [hasApiKey]
    cleared and the invalid-key alert, and [get()] still returns the
    credential the call was made with.  A credential test that reports an
    error does not write to storage either: [get()] returns what it returned
    before the test. *)
Theorem C3_rejection_keeps_stored_credential prov w :
  (∀ w', handleStartAutomation prov w = Done w' →
     storage w' = storage w ∧ getApiKey w' = getApiKey w ∧
     ∀ e, EvConsoleError e ∈ events_since w w' → entity_not_found e = true →
          workflowState (app w') = idle ∧ hasApiKey (app w') = false ∧
          last_alert w' = Some AlertInvalidKey ∧
          JS.truthy_opt (getApiKey w') = true) ∧
  (status (mgr (handleTest prov w)) = st_error →
   storage (handleTest prov w) = storage w ∧
   getApiKey (handleTest prov w) = getApiKey w).
Proof.
  split.
  - intros w' Hrun. apply run_report in Hrun as [Hq | (e' & w1 & -> & Hq & Hkey)].
    + split; [apply Hq|]. split; [by apply quietly_getApiKey|].
      intros e Hin. by apply quietly_no_console in Hin.
    + destruct (catch_spec e' w1) as (Hs & _ & _ & Hidle & Hhas & Htr & Halert).
      assert (getApiKey (catch e' w1) = getApiKey w) as Hget.
      { unfold getApiKey. rewrite Hs. apply (quietly_getApiKey _ _ Hq). }
      split; [rewrite Hs; apply Hq|]. split; [done|].
      intros e Hin He.
      assert (e = e') as ->.
      { destruct Hq as (_ & _ & _ & _ & evs & Ht & Hquiet).
        unfold events_since in Hin. rewrite Htr, Ht, <- app_assoc, drop_app_length in Hin.
        apply elem_of_app in Hin as [Hin | Hin].
        - rewrite Forall_forall in Hquiet. by specialize (Hquiet _ Hin).
        - unfold catch_events in Hin. destruct (entity_not_found e');
            repeat (apply elem_of_cons in Hin as [Hin | Hin]; [congruence|]);
            by apply elem_of_nil in Hin. }
      rewrite Hhas, Halert, He, Hget. auto.
  - unfold handleTest, handleTest_catch, generateContent.
    destruct (JS.truthy (apiKey (mgr w))); simpl; [|done].
    destruct (prov _ _) as [r|e]; simpl.
    + destruct (JS.truthy_opt (text r)); simpl; [done|].
      by destruct (is_overloaded _).
    + by destruct (is_overloaded _).
Qed.

Lemma C3_rejection_keeps_stored_credential_witness :
  match handleStartAutomation (Examples.prov_rejects Examples.not_found)
          (Examples.ready "k") with
  | Done w' =>
      hasApiKey (app w') = false ∧ last_alert w' = Some AlertInvalidKey ∧
      JS.truthy_opt (getApiKey w') = true
  | OutsideTypes _ => False
  end.
Proof.
  pose proof (proj1 (C3_rejection_keeps_stored_credential
                       (Examples.prov_rejects Examples.not_found) (Examples.ready "k")))
    as Hrun.
  destruct (handleStartAutomation _ _) as [w'|v] eqn:E.
  - destruct (Hrun w' eq_refl) as (_ & _ & Hcatch).
    destruct (Hcatch Examples.not_found) as (_ & Hhas & Halert & Hget); [| |done].
    + vm_compute in E. injection E as <-. vm_compute.
      apply list_elem_of_In. simpl. tauto.
    + reflexivity.
  - vm_compute in E. discriminate.
Defined.

(** C3 as stated fails.  After a run that the provider rejects with the
    entity-not-found message, and after a test of the stored credential that
    the provider rejects, [get()] still returns the stored credential. *)
Lemma C3_counterexample :
  (∃ w',
     handleStartAutomation (Examples.prov_rejects Examples.not_found)
       (Examples.ready "k") = Done w' ∧
     last_alert w' = Some AlertInvalidKey ∧ getApiKey w' = Some "k") ∧
  (let w' := handleTest (Examples.prov_rejects Examples.key_invalid)
               (setApiKey "revoked" (world0 (Some "revoked"))) in
   status (mgr w') = st_error ∧ getApiKey w' = Some "revoked").
Proof.
  split; [eexists; split; [vm_compute; reflexivity|]|]; split; vm_compute; reflexivity.
Qed.

(** * More of the code *)

(** ** The generation client without a credential *)

Lemma missing_key_throws prov topic n ratio refs seg segs w :
  JS.truthy_opt (getApiKey w) = false →
  generatePlan prov topic n ratio refs w
    = (Throw (new_Error (engine w) "API Key is missing."), w) ∧
  generateImage prov seg ratio refs w
    = (Throw (new_Error (engine w) "API Key is missing."), w) ∧
  generateInstagramPost prov topic segs w
    = (Throw (new_Error (engine w) "API Key is missing."), w).
Proof.
  intros Hk. unfold generatePlan, generateImage, generateInstagramPost.
  destruct (getApiKey w) as [key|]; [|done].
  simpl in Hk. by rewrite Hk.
Qed.

(** X1.  Without a credential (nothing stored and nothing in the
    environment, or only empty strings), each of the three operations of the
    client throws the same missing-key error and does nothing else: no call
    is issued and the world is left as it was. *)
Theorem X1_client_without_credential prov topic n ratio refs seg segs w :
  JS.truthy_opt (getApiKey w) = false →
  generatePlan prov topic n ratio refs w
    = (Throw (new_Error (engine w) "API Key is missing."), w) ∧
  generateImage prov seg ratio refs w
    = (Throw (new_Error (engine w) "API Key is missing."), w) ∧
  generateInstagramPost prov topic segs w
    = (Throw (new_Error (engine w) "API Key is missing."), w).
Proof. apply missing_key_throws. Qed.

Lemma X1_client_without_credential_witness :
  (generatePlan Examples.prov_two "t" 3 Ratio_1_1 [] (world0 (Some EmptyString))).1
  = Throw (new_Error engine0 "API Key is missing.").
Proof.
  exact (f_equal fst (proj1 (X1_client_without_credential Examples.prov_two "t" 3
           Ratio_1_1 [] Examples.seg1 [] (world0 (Some EmptyString)) eq_refl))).
Defined.

(** ** The guards of a run *)

Lemma getApiKey_with_app f w : getApiKey (with_app f w) = getApiKey w.
Proof. done. Qed.

Lemma stale_flag_run prov w :
  hasApiKey (app w) = true → JS.truthy (topic (app w)) = true →
  JS.truthy_opt (getApiKey w) = false →
  ∃ w',
    handleStartAutomation prov w = Done w' ∧
    workflowState (app w') = idle ∧ segments (app w') = [] ∧
    postData (app w') = None ∧ hasApiKey (app w') = true ∧
    calls w' = calls w ∧ issued (events_since w w') = [] ∧
    alerts_of (events_since w w')
    = [AlertAutomationFailed (Some "API Key is missing.")].
Proof.
  intros Hhas Htopic Hkey. unfold handleStartAutomation. rewrite Hhas, Htopic. simpl.
  set (ws := setWorkflowState planning _).
  destruct (missing_key_throws prov (topic (app w)) (count (app w))
              (ratio (app w)) (referenceImages (app w)) Examples.seg1 [] ws Hkey)
    as (-> & _).
  eexists. split; [done|]. unfold catch.
  rewrite missing_key_is_not_entity. simpl. rewrite Hhas.
  repeat split; unfold events_since; simpl;
    by rewrite <- !app_assoc, drop_app_length.
Qed.


(** X2.  A run calls the provider only behind its guards.  With
    [hasApiKey] cleared a start only opens the credential dialog, and with
    an empty topic it does nothing at all; and whenever a run issued a call,
    the flag was set, a topic was typed and a credential was to be found. *)
Theorem X2_no_call_without_guards prov w w' :
  handleStartAutomation prov w = Done w' →
  (hasApiKey (app w) = false → w' = setIsKeyManagerOpen true w) ∧
  (hasApiKey (app w) = true → topic (app w) = EmptyString → w' = w) ∧
  (issued (events_since w w') ≠ [] →
   hasApiKey (app w) = true ∧ JS.truthy (topic (app w)) = true ∧
   JS.truthy_opt (getApiKey w) = true).
Proof.
  intros Hrun.
  assert (events_since w w = []) as Hnone by (unfold events_since; by rewrite drop_all).
  destruct (hasApiKey (app w)) eqn:Hhas.
  2:{ unfold handleStartAutomation in Hrun. rewrite Hhas in Hrun. injection Hrun as <-.
      split; [done|]. split; [done|]. intros Hne. exfalso. apply Hne.
      change (events_since w (setIsKeyManagerOpen true w)) with (events_since w w).
      by rewrite Hnone. }
  split; [done|].
  destruct (JS.truthy (topic (app w))) eqn:Htopic.
  2:{ unfold handleStartAutomation in Hrun. rewrite Hhas, Htopic in Hrun.
      injection Hrun as <-. split; [done|]. intros Hne. exfalso. apply Hne.
      by rewrite Hnone. }
  split; [by intros _ Ht; rewrite Ht in Htopic|].
  intros Hne. split; [done|]. split; [done|].
  destruct (JS.truthy_opt (getApiKey w)) eqn:Hkey; [done|]. exfalso. apply Hne.
  destruct (stale_flag_run prov w Hhas Htopic Hkey) as (w2 & Hrun2 & _ & _ & _ & _ & _ & Hi & _).
  rewrite Hrun in Hrun2. by injection Hrun2 as ->.
Qed.

Lemma X2_no_call_without_guards_witness :
  ∃ w', handleStartAutomation Examples.prov_two (world0 None) = Done w' ∧
        w' = setIsKeyManagerOpen true (world0 None).
Proof.
  exists (setIsKeyManagerOpen true (world0 None)). split; [reflexivity|].
  exact (proj1 (X2_no_call_without_guards Examples.prov_two (world0 None) _ eq_refl)
           eq_refl).
Defined.

(** X3.  The guard of a run reads the flag, not the storage.  With the
    flag set and a topic typed but no credential to be found, the run starts,
    issues no call and ends in idle with the generic alert of the missing
    key; the segments and the post data of the run before are cleared, and
    the flag stays set. *)
Theorem X3_start_with_stale_flag prov w :
  hasApiKey (app w) = true → JS.truthy (topic (app w)) = true →
  JS.truthy_opt (getApiKey w) = false →
  ∃ w',
    handleStartAutomation prov w = Done w' ∧
    workflowState (app w') = idle ∧ segments (app w') = [] ∧
    postData (app w') = None ∧ hasApiKey (app w') = true ∧
    calls w' = calls w ∧ issued (events_since w w') = [] ∧
    alerts_of (events_since w w')
    = [AlertAutomationFailed (Some "API Key is missing.")].
Proof. apply stale_flag_run. Qed.

Lemma X3_start_with_stale_flag_witness :
  ∃ w',
    handleStartAutomation Examples.prov_two
      (with_storage (λ st, {| stored := None; env_API_KEY := env_API_KEY st;
                              env_GEMINI_API_KEY := env_GEMINI_API_KEY st |})
         (Examples.ready "k")) = Done w' ∧
    workflowState (app w') = idle ∧ calls w' = 0.
Proof.
  destruct (X3_start_with_stale_flag Examples.prov_two
              (with_storage (λ st, {| stored := None; env_API_KEY := env_API_KEY st;
                                      env_GEMINI_API_KEY := env_GEMINI_API_KEY st |})
                 (Examples.ready "k")) eq_refl eq_refl eq_refl)
    as (w' & Hrun & Hidle & _ & _ & _ & Hcalls & _).
  exists w'. split; [done|]. split; [done|]. exact Hcalls.
Defined.

(** ** How a run ends *)

Lemma generatePlan_app prov topic n ratio refs w :
  app (generatePlan prov topic n ratio refs w).2 = app w.
Proof.
  unfold generatePlan, generateContent.
  destruct (getApiKey w) as [key|]; [|done]. destruct (JS.truthy key); [|done].
  destruct (prov _ _) as [r|e]; [|done]. simpl.
  destruct (text r) as [t|]; [|done]. destruct (JS.truthy t); [|done].
  by destruct (JSON_parse t).
Qed.

Lemma generateImage_app prov seg ratio refs w :
  app (generateImage prov seg ratio refs w).2 = app w.
Proof.
  unfold generateImage, generateContent.
  destruct (getApiKey w) as [key|]; [|done]. destruct (JS.truthy key); [|done].
  destruct (prov _ _) as [r|e]; [|done]. simpl.
  by destruct (first_inline _).
Qed.

Lemma generateInstagramPost_app prov topic segs w :
  app (generateInstagramPost prov topic segs w).2 = app w.
Proof.
  unfold generateInstagramPost, generateContent.
  destruct (getApiKey w) as [key|]; [|done]. destruct (JS.truthy key); [|done].
  destruct (prov _ _) as [r|e]; [|done]. simpl.
  destruct (text r) as [t|]; [|done]. destruct (JS.truthy t); [|done].
  by destruct (JSON_parse t).
Qed.

Lemma progress_only_refl w : progress_only w w.
Proof. done. Qed.

Lemma progress_only_trans w1 w2 w3 :
  progress_only w1 w2 → progress_only w2 w3 → progress_only w1 w3.
Proof. unfold progress_only. congruence. Qed.

Lemma progress_only_app w w' : app w' = app w → progress_only w w'.
Proof. unfold progress_only. by intros ->. Qed.

Lemma image_loop_progress prov ratio refs newSegments : ∀ todo i w,
  progress_only w (image_loop prov ratio refs newSegments todo i w).2.
Proof.
  induction todo as [|todo IH]; intros i w; simpl; [done|].
  destruct (newSegments !! i ≫= _) as [[r seg]|]; [|done].
  pose proof (generateImage_app prov seg ratio refs w) as Happ.
  destruct (generateImage prov seg ratio refs w) as [[url|e] w1]; simpl in *.
  - eapply progress_only_trans; [|apply IH].
    unfold progress_only. simpl. by rewrite Happ.
  - by apply progress_only_app.
Qed.

(** A run that passes the guards ends in the [catch] block or with the
    post data, after steps that report nothing and change, of the state of
    [App], only the segments and the workflow state. *)
Lemma run_outcome prov w w' :
  hasApiKey (app w) = true → JS.truthy (topic (app w)) = true →
  handleStartAutomation prov w = Done w' →
  ∃ w1,
    quietly w w1 ∧
    progress_only (setCopied false (setPostData None w)) w1 ∧
    ((∃ e, w' = catch e w1) ∨
     (∃ post, w' = setWorkflowState completed (setPostData (Some post) w1))).
Proof.
  intros Hhas Htopic. unfold handleStartAutomation. rewrite Hhas, Htopic. simpl.
  set (ws := setWorkflowState planning
               (setCopied false (setPostData None (setSegments [] w)))).
  assert (quietly w ws) as Hs.
  { unfold ws, setWorkflowState, setCopied, setPostData, setSegments. quiet. }
  assert (progress_only (setCopied false (setPostData None w)) ws) as Ps by done.
  pose proof (generatePlan_app prov (topic (app w)) (count (app w)) (ratio (app w))
                (referenceImages (app w)) ws) as Happ1.
  generalize (generatePlan_quiet prov (topic (app w)) (count (app w)) (ratio (app w))
                (referenceImages (app w)) ws).
  destruct (generatePlan _ _ _ _ _ ws) as [[v|e] w1]; simpl in *; intros [Hq1 _].
  2:{ intros [= <-]. exists w1. split; [by eapply quietly_trans|].
      split; [|by left; exists e].
      eapply progress_only_trans; [exact Ps|by apply progress_only_app]. }
  destruct (as_CarouselSegments v) as [objects|]; [|done].
  set (wi := setWorkflowState generating_images
               (setSegments (seq 0 (length objects)) (with_heap (λ _, objects) w1))).
  assert (quietly w wi) as Hi.
  { eapply quietly_trans; [exact Hs|]. eapply quietly_trans; [exact Hq1|].
    unfold wi, setWorkflowState, setSegments. quiet. }
  assert (progress_only (setCopied false (setPostData None w)) wi) as Pi.
  { eapply progress_only_trans; [exact Ps|].
    unfold progress_only, wi. simpl. by rewrite Happ1. }
  pose proof (image_loop_progress prov (ratio (app w)) (referenceImages (app w))
                (seq 0 (length objects)) (length (seq 0 (length objects))) 0 wi) as Pl.
  generalize (image_loop_quiet prov (ratio (app w)) (referenceImages (app w))
                (seq 0 (length objects)) (length (seq 0 (length objects))) 0 wi).
  destruct (image_loop _ _ _ _ _ _ wi) as [[e|] wl]; simpl in *; intros [Hql _].
  { intros [= <-]. exists wl. split; [by eapply quietly_trans|].
    split; [by eapply progress_only_trans|by left; exists e]. }
  set (wc := setWorkflowState generating_caption wl).
  assert (quietly w wc) as Hc.
  { eapply quietly_trans; [exact Hi|]. eapply quietly_trans; [exact Hql|].
    unfold wc, setWorkflowState. quiet. }
  assert (progress_only (setCopied false (setPostData None w)) wc) as Pc.
  { eapply progress_only_trans; [exact Pi|]. eapply progress_only_trans; [exact Pl|].
    done. }
  pose proof (generateInstagramPost_app prov (topic (app w))
                (deref (heap wc) (seq 0 (length objects))) wc) as Happ2.
  generalize (generateInstagramPost_quiet prov (topic (app w))
                (deref (heap wc) (seq 0 (length objects))) wc).
  destruct (generateInstagramPost _ _ _ wc) as [[post|e] wp]; simpl in *;
    intros [Hqp _]; intros [= <-]; exists wp;
    (split; [by eapply quietly_trans|]);
    (split; [eapply progress_only_trans; [exact Pc|by apply progress_only_app]|]).
  - right. by exists post.
  - left. by exists e.
Qed.

Lemma alerts_of_app evs1 evs2 : alerts_of (evs1 ++ evs2) = alerts_of evs1 ++ alerts_of evs2.
Proof. apply omap_app. Qed.

Lemma quietly_alerts w w' : quietly w w' → alerts_of (events_since w w') = [].
Proof.
  intros (_ & _ & _ & _ & evs & Ht & Hq). unfold events_since.
  rewrite Ht, drop_app_length. clear Ht.
  induction Hq as [|ev evs Hev _ IH]; [done|].
  change (ev :: evs) with ([ev] ++ evs). rewrite alerts_of_app, IH.
  by destruct ev.
Qed.

Lemma events_since_trans w w1 w' evs :
  quietly w w1 → trace w' = trace w1 ++ evs →
  events_since w w' = events_since w w1 ++ evs.
Proof.
  intros (_ & _ & _ & _ & evs1 & Ht & _) Ht'. unfold events_since.
  by rewrite Ht', Ht, <- app_assoc, !drop_app_length.
Qed.

Lemma run_dichotomy prov w w' :
  hasApiKey (app w) = true → JS.truthy (topic (app w)) = true →
  handleStartAutomation prov w = Done w' →
  storage w' = storage w ∧ mgr w' = mgr w ∧
  ((workflowState (app w') = completed ∧ postData (app w') ≠ None ∧
    alerts_of (events_since w w') = [] ∧ start_disabled w' = true ∧
    ∀ prov', click_start prov' w' = Done w') ∨
   (workflowState (app w') = idle ∧ postData (app w') = None ∧
    (∃ a, alerts_of (events_since w w') = [a]) ∧ start_disabled w' = false)).
Proof.
  intros Hhas Htopic Hrun.
  destruct (run_outcome prov w w' Hhas Htopic Hrun) as (w1 & Hq & Hp & Hend).
  pose proof (f_equal topic Hp) as Ht. pose proof (f_equal postData Hp) as Hpd.
  simpl in Ht, Hpd.
  destruct Hend as [[e ->] | [post ->]].
  - destruct (catch_spec e w1) as (Hs & _ & _ & Hidle & _ & Htr & _).
    split; [rewrite Hs; apply Hq|]. split.
    { unfold catch. destruct (entity_not_found e); apply Hq. }
    right. split; [done|]. split.
    { unfold catch. by destruct (entity_not_found e). }
    split.
    + rewrite (events_since_trans w w1 _ _ Hq Htr), alerts_of_app, (quietly_alerts _ _ Hq).
      unfold catch_events. destruct (entity_not_found e); eexists; reflexivity.
    + unfold start_disabled. rewrite Hidle.
      assert (topic (app (catch e w1)) = topic (app w)) as ->.
      { unfold catch. by destruct (entity_not_found e). }
      by rewrite Htopic.
  - split; [apply Hq|]. split; [apply Hq|]. left. split; [done|]. split; [done|].
    assert (start_disabled (setWorkflowState completed (setPostData (Some post) w1)) = true)
      as Hdis by (unfold start_disabled; simpl; apply orb_true_r).
    split; [|split; [done|]].
    + rewrite (events_since_trans w w1 _
                 [EvSetPostData (Some post); EvSetWorkflowState completed] Hq),
        alerts_of_app, (quietly_alerts _ _ Hq); [done|].
      simpl. by rewrite <- app_assoc.
    + intros prov'. unfold click_start. by rewrite Hdis.
Qed.



(** ** The ways of a run, one by one *)

Lemma summary_progress plan : ∀ urls, summary_of (progress plan urls) = summary_of plan.
Proof.
  unfold summary_of. intros urls. f_equal. revert urls.
  induction plan as [|s plan IH]; intros [|u urls]; simpl; try done.
  by rewrite IH.
Qed.

Lemma image_resolves_truthy prov key ratio refs n s u :
  image_resolves prov key ratio refs n s u → JS.truthy u = true.
Proof. by intros (r & d & _ & _ & ->). Qed.

Lemma progress_has_image prov w key plan urls :
  images_go prov w key plan urls None →
  Forall (λ s, has_image s = true) (progress plan urls).
Proof.
  intros (_ & Hok & Hlen). apply Forall_lookup. intros j s' Hs'.
  destruct (lookup_lt_is_Some_2 plan j) as [s Hs].
  { apply lookup_lt_Some in Hs'. by rewrite progress_length in Hs'. }
  destruct (lookup_lt_is_Some_2 urls j) as [u Hu].
  { apply lookup_lt_Some in Hs. lia. }
  rewrite (progress_lookup_lt plan urls j s u Hs Hu) in Hs'. injection Hs' as <-.
  unfold has_image. simpl. by eapply image_resolves_truthy, Hok.
Qed.

Lemma generateInstagramPost_resolves prov w0 key plan segs post w :
  getApiKey w = Some key → JS.truthy key = true →
  summary_of segs = summary_of plan → topic (app w0) = topic (app w0) →
  post_resolves prov w0 key plan (calls w) post →
  generateInstagramPost prov (topic (app w0)) segs w
  = (Ok post, (generateContent prov (post_request w0 key plan) w).2).
Proof.
  intros Hk Ht Hsum _ (r & t & Hr & Htext & Htt & Hv).
  unfold generateInstagramPost, generateContent, post_request in *.
  rewrite Hk, Ht, Hsum, Hr. simpl. by rewrite Htext, Htt, Hv.
Qed.

Lemma generateInstagramPost_throws prov w0 key plan segs e w :
  getApiKey w = Some key → JS.truthy key = true →
  summary_of segs = summary_of plan → engine w = engine w0 →
  post_throws prov w0 key plan (calls w) e →
  generateInstagramPost prov (topic (app w0)) segs w
  = (Throw e, (generateContent prov (post_request w0 key plan) w).2).
Proof.
  intros Hk Ht Hsum Heng Hthrow.
  unfold generateInstagramPost, generateContent, post_throws, post_request in *.
  rewrite Hk, Ht, Hsum.
  destruct Hthrow as [Hr | [(r & Hr & Htext & ->) | (r & t & Hr & Htext & Htt & Hv & ->)]];
    rewrite Hr; simpl; [done| |].
  - rewrite Heng. destruct (text r) as [t|]; [|done]. simpl in Htext. by rewrite Htext.
  - by rewrite Htext, Htt, Hv, Heng.
Qed.

Lemma issued_app evs1 evs2 : issued (evs1 ++ evs2) = issued evs1 ++ issued evs2.
Proof. apply omap_app. Qed.

Lemma issued_blocks prov key ratio refs plan urls c : ∀ n from,
  from + n ≤ length urls → length urls ≤ length plan →
  issued (image_blocks prov key ratio refs plan urls c from (from + n))
  = map (λ s, ReqImage key s ratio refs) (take n (drop from plan)).
Proof.
  induction n as [|n IH]; intros from Hn Hlen.
  - by rewrite Nat.add_0_r, image_blocks_nil.
  - rewrite image_blocks_cons by lia. rewrite issued_app.
    replace (from + S n) with (S from + n) by lia. rewrite IH by lia.
    destruct (lookup_lt_is_Some_2 plan from) as [s Hs]; [lia|].
    destruct (lookup_lt_is_Some_2 urls from) as [u Hu]; [lia|].
    unfold image_block. rewrite Hs, Hu.
    rewrite (drop_S plan s from Hs). done.
Qed.

Section Ways.

Variables (prov : Provider) (w0 : World) (key : string)
          (plan : list CarouselSegment) (urls : list string).

Hypothesis Hhas : hasApiKey (app w0) = true.
Hypothesis Htopic : JS.truthy (topic (app w0)) = true.
Hypothesis Hplan : plan_resolves prov w0 key plan.
Hypothesis Hgo : images_go prov w0 key plan urls None.

Lemma caption_world_key :
  getApiKey (caption_world prov w0 key plan urls) = Some key ∧ JS.truthy key = true.
Proof. destruct Hplan as (Hk & Ht & _). by split. Qed.

Lemma caption_world_calls :
  calls (caption_world prov w0 key plan urls) = S (calls w0) + length plan.
Proof. destruct Hgo as (_ & _ & Hlen). simpl. lia. Qed.

Lemma run_completes post :
  post_resolves prov w0 key plan (S (calls w0) + length plan) post →
  handleStartAutomation prov w0 =
  Done (setWorkflowState completed
          (setPostData (Some post)
             (generateContent prov (post_request w0 key plan)
               (caption_world prov w0 key plan urls)).2)).
Proof.
  intros Hpost. destruct caption_world_key as [Hk Ht].
  rewrite (run_to_images prov w0 key plan urls Hhas Htopic Hplan None Hgo).
  unfold caption_phase. fold (caption_world prov w0 key plan urls).
  rewrite (generateInstagramPost_resolves prov w0 key plan _ post
             (caption_world prov w0 key plan urls));
    auto using summary_progress.
  by rewrite caption_world_calls.
Qed.

Lemma run_caption_throws e :
  post_throws prov w0 key plan (S (calls w0) + length plan) e →
  handleStartAutomation prov w0 =
  Done (catch e (generateContent prov (post_request w0 key plan)
               (caption_world prov w0 key plan urls)).2).
Proof.
  intros Hpost. destruct caption_world_key as [Hk Ht].
  rewrite (run_to_images prov w0 key plan urls Hhas Htopic Hplan None Hgo).
  unfold caption_phase. fold (caption_world prov w0 key plan urls).
  rewrite (generateInstagramPost_throws prov w0 key plan _ e
             (caption_world prov w0 key plan urls));
    auto using summary_progress.
  by rewrite caption_world_calls.
Qed.

End Ways.

Lemma caption_phase_issued prov topic segs w key :
  getApiKey w = Some key → JS.truthy key = true →
  ∃ rest,
    trace (caption_phase prov topic segs w) = trace w ++ rest ∧
    issued rest = [ReqPost key topic (summary_of segs)] ∧
    calls (caption_phase prov topic segs w) = S (calls w).
Proof.
  intros Hk Ht. unfold caption_phase, generateInstagramPost, generateContent.
  rewrite Hk, Ht.
  set (req := ReqPost key topic (summary_of segs)).
  set (w1 := log _ (log _ (tick w))).
  assert (trace w1 = trace w ++ [EvIssue (calls w) req; EvSettle (calls w) (prov (calls w) req)])
    as Hw1 by (simpl; by rewrite <- app_assoc).
  assert (∀ e, ∃ rest, trace (catch e w1) = trace w ++ rest ∧ issued rest = [req] ∧
                       calls (catch e w1) = S (calls w)) as Hcatch.
  { intros e. destruct (catch_spec e w1) as (_ & _ & _ & _ & _ & Htr & _).
    eexists. rewrite Htr, Hw1, <- app_assoc. split; [done|]. split.
    - unfold catch_events. by destruct (entity_not_found e).
    - unfold catch. by destruct (entity_not_found e). }
  destruct (prov (calls w) req) as [r|e0]; [|apply Hcatch].
  destruct (text r) as [t|]; [|apply Hcatch].
  destruct (JS.truthy t); [|apply Hcatch].
  destruct (JSON_parse t) as [v|]; [|apply Hcatch].
  eexists. split; [|split; [|done]].
  - simpl. rewrite <- !app_assoc. simpl. reflexivity.
  - done.
Qed.

Lemma issued_fail_events prov key ratio refs plan urls c e s :
  plan !! length urls = Some s →
  issued (fail_events prov key ratio refs plan urls c (Some e))
  = [ReqImage key s ratio refs].
Proof. intros Hs. unfold fail_events. by rewrite Hs. Qed.

(** ** Examples of runs *)

Lemma prov_two_plan :
  plan_resolves Examples.prov_two (Examples.ready "k") "k" [Examples.seg1; Examples.seg2].
Proof.
  repeat split. exists {| text := Some Examples.plan_text_2; parts := None |},
    Examples.plan_text_2. eexists. repeat split; vm_compute; reflexivity.
Qed.

Lemma prov_two_images :
  images_go Examples.prov_two (Examples.ready "k") "k" [Examples.seg1; Examples.seg2]
    ["data:image/png;base64,imga"; "data:image/png;base64,imgb"] None.
Proof.
  split; [simpl; lia|]. split; [|done].
  intros [|[|[|j]]] s u Hs Hu; try done; injection Hs as <-; injection Hu as <-;
    eexists _, _; repeat split; reflexivity.
Qed.

Lemma prov_two_post :
  post_resolves Examples.prov_two (Examples.ready "k") "k" [Examples.seg1; Examples.seg2] 3
    (JObj [("caption", JStr "c"); ("hashtags", JArr [JStr "#x"])]).
Proof.
  exists {| text := Some Examples.post_text; parts := None |}, Examples.post_text.
  repeat split; vm_compute; reflexivity.
Qed.

(** ** The ways of a run *)

(** X5.  A run whose plan call, image calls and post call all resolve ends
    completed: the post is the parsed answer of the post call, the
    segments are those of the plan with every image set, two calls more than
    there are segments were made, and nothing is alerted. *)
Theorem X5_run_completes prov w0 key plan urls post :
  hasApiKey (app w0) = true → JS.truthy (topic (app w0)) = true →
  plan_resolves prov w0 key plan →
  images_go prov w0 key plan urls None →
  post_resolves prov w0 key plan (S (calls w0) + length plan) post →
  ∃ w',
    handleStartAutomation prov w0 = Done w' ∧
    workflowState (app w') = completed ∧
    postData (app w') = Some post ∧
    view w' = progress plan urls ∧
    Forall (λ s, has_image s = true) (view w') ∧
    calls w' = calls w0 + length plan + 2 ∧
    alerts_of (events_since w0 w') = [].
Proof.
  intros Hhas Htopic Hplan Hgo Hpost.
  pose proof (run_completes prov w0 key plan urls Hhas Htopic Hplan Hgo post Hpost) as Hrun.
  eexists. split; [exact Hrun|].
  assert (view (setWorkflowState completed (setPostData (Some post)
            (generateContent prov (post_request w0 key plan)
               (caption_world prov w0 key plan urls)).2)) = progress plan urls) as Hview
    by apply deref_progress.
  split; [done|]. split; [done|]. split; [done|]. split.
  { rewrite Hview. by eapply progress_has_image. }
  split.
  { destruct Hgo as (_ & _ & Hlen). simpl. lia. }
  destruct (run_dichotomy prov w0 _ Hhas Htopic Hrun) as (_ & _ & [(_ & _ & Ha & _)|(Hidle & _)]);
    [done|discriminate Hidle].
Qed.

Lemma X5_run_completes_witness :
  ∃ w',
    handleStartAutomation Examples.prov_two (Examples.ready "k") = Done w' ∧
    postData (app w') = Some (JObj [("caption", JStr "c"); ("hashtags", JArr [JStr "#x"])]) ∧
    calls w' = 4.
Proof.
  destruct (X5_run_completes Examples.prov_two (Examples.ready "k") "k"
              [Examples.seg1; Examples.seg2]
              ["data:image/png;base64,imga"; "data:image/png;base64,imgb"]
              (JObj [("caption", JStr "c"); ("hashtags", JArr [JStr "#x"])])
              eq_refl eq_refl prov_two_plan prov_two_images prov_two_post)
    as (w' & Hrun & _ & Hpost & _ & _ & Hcalls & _).
  exists w'. split; [done|]. split; [done|]. exact Hcalls.
Defined.

Lemma generatePlan_throws prov w key e ws :
  getApiKey ws = Some key → calls ws = calls w → engine ws = engine w →
  plan_throws prov w key e →
  generatePlan prov (topic (app w)) (count (app w)) (ratio (app w))
    (referenceImages (app w)) ws
  = (Throw e, (generateContent prov (plan_request w key) ws).2).
Proof.
  intros Hk Hc He (_ & Ht & Hthrow).
  unfold generatePlan, generateContent, plan_request in *.
  rewrite Hk, Ht, Hc, He.
  destruct Hthrow as [Hr | [(r & Hr & Htext & ->) | (r & t & Hr & Htext & Htt & Hv & ->)]];
    rewrite Hr; simpl; [done| |].
  - destruct (text r) as [t|]; [|done]. simpl in Htext. by rewrite Htext.
  - by rewrite Htext, Htt, Hv.
Qed.

(** X6.  When the plan call throws, the run ends idle after that one call:
    no segment and no post are shown, and one alert reports the failure
    (the invalid-key one if the message names the missing entity). *)
Theorem X6_plan_failure prov w key e :
  hasApiKey (app w) = true → JS.truthy (topic (app w)) = true →
  plan_throws prov w key e →
  ∃ w',
    handleStartAutomation prov w = Done w' ∧
    workflowState (app w') = idle ∧
    view w' = [] ∧ postData (app w') = None ∧
    issued (events_since w w') = [plan_request w key] ∧
    calls w' = S (calls w) ∧
    alerts_of (events_since w w')
    = [if entity_not_found e then AlertInvalidKey
       else AlertAutomationFailed (message_of e)].
Proof.
  intros Hhas Htopic Hthrow.
  unfold handleStartAutomation. rewrite Hhas, Htopic. simpl.
  set (ws := setWorkflowState planning _).
  rewrite (generatePlan_throws prov w key e ws (proj1 Hthrow) eq_refl eq_refl Hthrow).
  eexists. split; [done|].
  destruct (catch_spec e (generateContent prov (plan_request w key) ws).2)
    as (_ & Hheap & Hseg & Hidle & _ & Htr & _).
  split; [done|]. split; [by unfold view; rewrite Hseg|]. split.
  { unfold catch. by destruct (entity_not_found e). }
  assert (events_since w (catch e (generateContent prov (plan_request w key) ws).2)
          = [EvSetSegments []; EvSetPostData None; EvSetWorkflowState planning;
             EvIssue (calls w) (plan_request w key);
             EvSettle (calls w) (prov (calls w) (plan_request w key))] ++ catch_events e)
    as ->.
  { unfold events_since. rewrite Htr. simpl. by rewrite <- !app_assoc, drop_app_length. }
  unfold catch, catch_events. by destruct (entity_not_found e).
Qed.

Lemma X6_plan_failure_witness :
  ∃ w',
    handleStartAutomation (Examples.prov_rejects Examples.overloaded) (Examples.ready "k")
    = Done w' ∧
    workflowState (app w') = idle ∧ calls w' = 1.
Proof.
  destruct (X6_plan_failure (Examples.prov_rejects Examples.overloaded) (Examples.ready "k")
              "k" Examples.overloaded eq_refl eq_refl)
    as (w' & Hrun & Hidle & _ & _ & _ & Hcalls & _).
  - repeat split. by left.
  - exists w'. split; [done|]. split; [done|]. exact Hcalls.
Defined.

(** X7.  When every image was generated and the post call throws, the run
    ends idle without a post, but the segments stay on screen with all
    their images. *)
Theorem X7_caption_failure_keeps_images prov w0 key plan urls e :
  hasApiKey (app w0) = true → JS.truthy (topic (app w0)) = true →
  plan_resolves prov w0 key plan →
  images_go prov w0 key plan urls None →
  post_throws prov w0 key plan (S (calls w0) + length plan) e →
  ∃ w',
    handleStartAutomation prov w0 = Done w' ∧
    workflowState (app w') = idle ∧
    postData (app w') = None ∧
    view w' = progress plan urls ∧
    Forall (λ s, has_image s = true) (view w') ∧
    last_alert w' = Some (if entity_not_found e then AlertInvalidKey
                          else AlertAutomationFailed (message_of e)).
Proof.
  intros Hhas Htopic Hplan Hgo Hpost.
  pose proof (run_caption_throws prov w0 key plan urls Hhas Htopic Hplan Hgo e Hpost) as Hrun.
  eexists. split; [exact Hrun|].
  set (w1 := (generateContent prov (post_request w0 key plan)
                (caption_world prov w0 key plan urls)).2).
  destruct (catch_spec e w1) as (_ & Hheap & Hseg & Hidle & _ & _ & Hlast).
  assert (view (catch e w1) = progress plan urls) as Hview.
  { unfold view. rewrite Hheap, Hseg. apply deref_progress. }
  split; [done|]. split.
  { unfold catch. by destruct (entity_not_found e). }
  split; [done|]. split; [|done].
  rewrite Hview. by eapply progress_has_image.
Qed.

Lemma X7_caption_failure_keeps_images_witness :
  ∃ w',
    handleStartAutomation
      (λ n req, if n =? 3 then Rejects Examples.overloaded else Examples.prov_two n req)
      (Examples.ready "k") = Done w' ∧
    view w' = [with_imageUrl Examples.seg1 "data:image/png;base64,imga";
               with_imageUrl Examples.seg2 "data:image/png;base64,imgb"] ∧
    postData (app w') = None.
Proof.
  destruct (X7_caption_failure_keeps_images
              (λ n req, if n =? 3 then Rejects Examples.overloaded else Examples.prov_two n req)
              (Examples.ready "k") "k" [Examples.seg1; Examples.seg2]
              ["data:image/png;base64,imga"; "data:image/png;base64,imgb"]
              Examples.overloaded eq_refl eq_refl)
    as (w' & Hrun & _ & Hpost & Hview & _).
  - repeat split. exists {| text := Some Examples.plan_text_2; parts := None |},
      Examples.plan_text_2. eexists. repeat split; vm_compute; reflexivity.
  - split; [simpl; lia|]. split; [|done].
    intros [|[|[|j]]] s u Hs Hu; try done; injection Hs as <-; injection Hu as <-;
      eexists _, _; repeat split; reflexivity.
  - by left.
  - exists w'. split; [done|]. split; [exact Hview|exact Hpost].
Defined.

(** X8.  The calls of a run whose plan call resolved, in order: the plan
    call; one image call for each segment up to and including the first
    that throws, each with the segment as planned; and, only if no image
    call threw, the post call, whose summary is that of the plan. *)
Theorem X8_calls_of_a_run prov w0 key plan urls fail w' :
  hasApiKey (app w0) = true → JS.truthy (topic (app w0)) = true →
  plan_resolves prov w0 key plan →
  images_go prov w0 key plan urls fail →
  handleStartAutomation prov w0 = Done w' →
  issued (events_since w0 w')
  = plan_request w0 key
    :: map (λ s, ReqImage key s (ratio (app w0)) (referenceImages (app w0)))
         (take (length urls + (if fail is Some _ then 1 else 0)) plan)
    ++ (if fail is Some _ then [] else [post_request w0 key plan]).
Proof.
  intros Hhas Htopic Hplan Hgo.
  rewrite (run_to_images prov w0 key plan urls Hhas Htopic Hplan fail Hgo).
  pose proof Hgo as (Hle & _ & Hfail).
  pose proof (issued_blocks prov key (ratio (app w0)) (referenceImages (app w0)) plan urls
                (S (calls w0)) (length urls) 0 (le_n _) Hle) as Hblocks.
  rewrite drop_0 in Hblocks. simpl in Hblocks.
  destruct fail as [e|]; intros [= <-]; unfold events_since.
  - destruct Hfail as (s & Hs & _).
    destruct (catch_spec e (after_images prov w0 key plan urls (Some e)))
      as (_ & _ & _ & _ & _ & Htr & _).
    rewrite Htr. unfold after_images. cbn [trace].
    rewrite <- !app_assoc, drop_app_length.
    rewrite !issued_app, Hblocks, (issued_fail_events _ _ _ _ _ _ _ _ s Hs).
    replace (length urls + 1) with (S (length urls)) by lia.
    rewrite (take_S_r plan (length urls) s Hs), map_app, <- !app_assoc.
    unfold catch_events. simpl. by destruct (entity_not_found e).
  - destruct Hplan as (Hk & Ht & _).
    destruct (caption_phase_issued prov (topic (app w0)) (progress plan urls)
                (setWorkflowState generating_caption
                   (after_images prov w0 key plan urls None)) key Hk Ht)
      as (rest & Htr & Hrest & _).
    rewrite Htr. unfold after_images, setWorkflowState, with_app, log. cbn [trace].
    rewrite <- !app_assoc, drop_app_length.
    rewrite !issued_app, Hblocks. simpl. rewrite Hrest, summary_progress.
    by rewrite Nat.add_0_r.
Qed.

Lemma X8_calls_of_a_run_witness :
  ∃ w',
    handleStartAutomation Examples.prov_two (Examples.ready "k") = Done w' ∧
    length (issued (events_since (Examples.ready "k") w')) = 4.
Proof.
  destruct (handleStartAutomation Examples.prov_two (Examples.ready "k")) as [w'|v] eqn:E;
    [|vm_compute in E; discriminate].
  exists w'. split; [done|].
  by rewrite (X8_calls_of_a_run Examples.prov_two (Examples.ready "k") "k"
                [Examples.seg1; Examples.seg2]
                ["data:image/png;base64,imga"; "data:image/png;base64,imgb"] None w'
                eq_refl eq_refl prov_two_plan prov_two_images E).
Defined.

Lemma catch_alerts w w1 e :
  quietly w w1 →
  alerts_of (events_since w (catch e w1))
  = [if entity_not_found e then AlertInvalidKey else AlertAutomationFailed (message_of e)].
Proof.
  intros Hq. destruct (catch_spec e w1) as (_ & _ & _ & _ & _ & Htr & _).
  rewrite (events_since_trans w w1 _ _ Hq Htr), alerts_of_app, (quietly_alerts _ _ Hq).
  unfold catch_events. by destruct (entity_not_found e).
Qed.

(** X9.  The flag [hasApiKey] after a run that passed the guards: it is
    cleared exactly when the run showed the invalid-key alert.  Then the
    next click on the start button only opens the credential dialog,
    whatever the provider would answer, and the dialog shows the stored
    credential, the one that was just refused. *)
Theorem X9_after_invalid_key_alert prov prov' w w' :
  hasApiKey (app w) = true → JS.truthy (topic (app w)) = true →
  handleStartAutomation prov w = Done w' →
  (alerts_of (events_since w w') = [AlertInvalidKey] →
   hasApiKey (app w') = false ∧
   handleStartAutomation prov' w' = Done (setIsKeyManagerOpen true w') ∧
   ∀ k, stored (storage w) = Some k → JS.truthy k = true →
        apiKey (mgr (manager_effect (setIsKeyManagerOpen true w'))) = k) ∧
  (alerts_of (events_since w w') ≠ [AlertInvalidKey] → hasApiKey (app w') = true).
Proof.
  intros Hhas Htopic Hrun.
  destruct (run_outcome prov w w' Hhas Htopic Hrun) as (w1 & Hq & Hp & Hend).
  pose proof (f_equal hasApiKey Hp) as Hh. simpl in Hh. rewrite Hhas in Hh.
  destruct Hend as [[e ->] | [post ->]].
  - rewrite (catch_alerts w w1 e Hq).
    destruct (catch_spec e w1) as (Hs & _ & _ & _ & Hkey & _).
    rewrite Hkey. destruct (entity_not_found e) eqn:He.
    + split; [|done]. intros _. split; [done|].
      assert (hasApiKey (app (catch e w1)) = false) as Hfalse by (by rewrite Hkey).
      split; [unfold handleStartAutomation; by rewrite Hfalse|].
      intros k Hk Ht. unfold manager_effect. simpl.
      assert (stored (storage (catch e w1)) = Some k) as ->.
      { rewrite Hs. destruct Hq as (-> & _). done. }
      by rewrite Ht.
    + split; [intros [=]|done].
  - split; [|done]. intros Ha. exfalso.
    rewrite (events_since_trans w w1 _
               [EvSetPostData (Some post); EvSetWorkflowState completed] Hq),
      alerts_of_app, (quietly_alerts _ _ Hq) in Ha; [done|].
    simpl. by rewrite <- app_assoc.
Qed.

Lemma X9_after_invalid_key_alert_witness :
  ∃ w',
    handleStartAutomation (Examples.prov_rejects Examples.not_found) (Examples.ready "k")
    = Done w' ∧
    handleStartAutomation Examples.prov_two w' = Done (setIsKeyManagerOpen true w') ∧
    apiKey (mgr (manager_effect (setIsKeyManagerOpen true w'))) = "k".
Proof.
  destruct (handleStartAutomation (Examples.prov_rejects Examples.not_found)
              (Examples.ready "k")) as [w'|v] eqn:E; [|vm_compute in E; discriminate].
  exists w'. split; [done|].
  destruct (X9_after_invalid_key_alert (Examples.prov_rejects Examples.not_found)
              Examples.prov_two (Examples.ready "k") w' eq_refl eq_refl E) as [Hyes _].
  destruct Hyes as (_ & Hnext & Hshow).
  - vm_compute in E. injection E as <-. vm_compute. reflexivity.
  - split; [exact Hnext|]. by apply Hshow.
Defined.

(** ** The reference images *)

(** X10.  As long as no upload starts while reads of an earlier one are
    pending, the images and the reads in flight together never exceed
    twenty, whatever is uploaded, read, removed or reset. *)
Theorem X10_uploads_without_overlap_stay_within_20 evs : ∀ w,
  length (referenceImages (app w)) + length (pending_reads w) ≤ 20 →
  no_overlap evs w →
  length (referenceImages (app (ui_run evs w))) + length (pending_reads (ui_run evs w)) ≤ 20.
Proof.
  induction evs as [|ev evs IH]; intros w Hinv Hno; [done|].
  destruct Hno as [Hev Hrest]. simpl. apply IH; [|done].
  apply ui_step_bound; [done|]. by intros files ->.
Qed.

Lemma X10_uploads_without_overlap_stay_within_20_witness :
  length (referenceImages (app (ui_run (Upload Examples.files15 :: replicate 15 (ReadDone 0)
                                          ++ [Upload Examples.files15])
                                  (world0 None)))) ≤ 20.
Proof.
  pose proof (X10_uploads_without_overlap_stay_within_20
                (Upload Examples.files15 :: replicate 15 (ReadDone 0)
                   ++ [Upload Examples.files15]) (world0 None)) as H.
  assert (∀ a b, a + b ≤ 20 → a ≤ 20) as Hle by (intros; lia).
  apply (Hle _ _ (H ltac:(simpl; lia) ltac:(vm_compute; tauto))).
Defined.

Lemma filter_delete_truthy (l : list string) j r :
  l !! j = Some r →
  (if JS.truthy r then [r] else []) ++ filter (λ x, JS.truthy x = true) (delete j l)
  ≡ₚ filter (λ x, JS.truthy x = true) l.
Proof.
  revert j. induction l as [|x l IH]; intros [|j] Hj; try done.
  - injection Hj as ->. change (delete 0 (r :: l)) with l.
    rewrite filter_cons. destruct (JS.truthy r) eqn:Hr.
    + by rewrite decide_True.
    + by rewrite decide_False.
  - change (delete (S j) (x :: l)) with (x :: delete j l).
    rewrite !filter_cons. specialize (IH j Hj).
    destruct (decide (JS.truthy x = true)); [|done].
    rewrite <- Permutation_middle. by apply Permutation_skip.
Qed.

Lemma reader_onload_keeps j w :
  referenceImages (app (reader_onload j w))
    ++ filter (λ x, JS.truthy x = true) (pending_reads (reader_onload j w))
  ≡ₚ referenceImages (app w) ++ filter (λ x, JS.truthy x = true) (pending_reads w).
Proof.
  unfold reader_onload. destruct (pending_reads w !! j) as [r|] eqn:Hj; [|done].
  rewrite <- (filter_delete_truthy _ j r Hj).
  destruct (JS.truthy r); simpl; [|done]. by rewrite <- app_assoc.
Qed.

(** X11.  Reads that end, in whatever order and however often an index is
    named, neither lose nor duplicate an image: the images of the set
    together with the non-empty results still in flight stay the same, up
    to order.  The order in the set is that in which the reads ended. *)
Theorem X11_reads_in_any_order js : ∀ w,
  referenceImages (app (ui_run (map ReadDone js) w))
    ++ filter (λ x, JS.truthy x = true) (pending_reads (ui_run (map ReadDone js) w))
  ≡ₚ referenceImages (app w) ++ filter (λ x, JS.truthy x = true) (pending_reads w).
Proof.
  induction js as [|j js IH]; intros w; [done|].
  simpl. rewrite IH. apply reader_onload_keeps.
Qed.

Lemma reads_in_order files : ∀ w,
  pending_reads w = files →
  let w' := ui_run (replicate (length files) (ReadDone 0)) w in
  referenceImages (app w')
  = referenceImages (app w) ++ filter (λ x, JS.truthy x = true) files ∧
  pending_reads w' = [] ∧ trace w' = trace w.
Proof.
  induction files as [|f files IH]; intros w Hp; [by rewrite app_nil_r|].
  assert (reader_onload 0 w
          = if JS.truthy f
            then setReferenceImages (referenceImages (app w) ++ [f])
                   (with_pending (delete 0) w)
            else with_pending (delete 0) w) as Hstep
    by (unfold reader_onload; by rewrite Hp).
  change (ui_run (replicate (length (f :: files)) (ReadDone 0)) w)
    with (ui_run (replicate (length files) (ReadDone 0)) (reader_onload 0 w)).
  cbv zeta. rewrite Hstep, filter_cons. destruct (JS.truthy f).
  - rewrite decide_True by done.
    destruct (IH (setReferenceImages (referenceImages (app w) ++ [f])
                    (with_pending (delete 0) w))) as (-> & -> & ->);
      [by simpl; rewrite Hp|].
    simpl. by rewrite <- ?app_assoc.
  - rewrite decide_False by done.
    destruct (IH (with_pending (delete 0) w)) as (-> & -> & ->); [by simpl; rewrite Hp|].
    done.
Qed.

(** X12.  An upload that fits, with no read in flight, followed by its
    reads ending in the order of the files, appends the files with a
    non-empty result to the set, in that order, and shows no alert. *)
Theorem X12_upload_in_order files w :
  pending_reads w = [] →
  length (referenceImages (app w)) + length files ≤ 20 →
  let w' := ui_run (Upload files :: replicate (length files) (ReadDone 0)) w in
  referenceImages (app w')
  = referenceImages (app w) ++ filter (λ x, JS.truthy x = true) files ∧
  pending_reads w' = [] ∧ trace w' = trace w.
Proof.
  intros Hp Hlen. simpl. unfold handleImageUpload.
  rewrite (proj2 (Nat.ltb_ge _ _) Hlen).
  destruct (reads_in_order files (with_pending (λ p, p ++ files) w)) as (-> & -> & ->);
    [by simpl; rewrite Hp|done].
Qed.

Lemma X12_upload_in_order_witness :
  referenceImages (app (ui_run (Upload ["data:a,x"; EmptyString; "data:b,y"]
                                  :: replicate 3 (ReadDone 0)) (world0 None)))
  = ["data:a,x"; "data:b,y"].
Proof.
  exact (proj1 (X12_upload_in_order ["data:a,x"; EmptyString; "data:b,y"] (world0 None)
                  eq_refl ltac:(simpl; lia))).
Defined.

(** X13.  Going home clears the set but does not cancel the reads in
    flight: a read that ends afterwards puts its image in the cleared
    set. *)
Theorem X13_go_home_keeps_reads_in_flight j r w :
  pending_reads w !! j = Some r → JS.truthy r = true →
  referenceImages (app (handleGoHome w)) = [] ∧
  referenceImages (app (reader_onload j (handleGoHome w))) = [r].
Proof.
  intros Hj Hr. split; [done|].
  unfold reader_onload. simpl. by rewrite Hj, Hr.
Qed.

Lemma X13_go_home_keeps_reads_in_flight_witness :
  referenceImages (app (ui_run [Upload ["data:a,x"]; GoHome; ReadDone 0] (world0 None)))
  = ["data:a,x"].
Proof.
  exact (proj2 (X13_go_home_keeps_reads_in_flight 0 "data:a,x"
                  (ui_run [Upload ["data:a,x"]] (world0 None)) eq_refl eq_refl)).
Defined.

(** ** The credential dialog *)

(** X14.  An import is all or nothing, whatever the file, the passphrase
    and the cipher.  Either the file decrypts to a JSON object whose member
    [GEMINI_API_KEY] is truthy, and then the string of that member is
    stored and the success alert is the only alert; or storage, the dialog
    and the application are left as they were and at most one alert is
    shown, the request for a passphrase or the failure alert. *)
Theorem X14_import_all_or_nothing (decrypt : string → string → option string)
    (file : option string) (w : World) :
  let w' := handleLoad decrypt file w in
  (∃ blob t ms v,
     file = Some blob ∧ JS.truthy (password (mgr w)) = true ∧
     decrypt blob (password (mgr w)) = Some t ∧
     JSON_parse t = Some (JObj ms) ∧ get "GEMINI_API_KEY" ms = Some v ∧
     js_truthy v = true ∧
     stored (storage w') = Some (js_String v) ∧
     alerts_of (events_since w w') = [AlertLoaded]) ∨
  (storage w' = storage w ∧ mgr w' = mgr w ∧ app w' = app w ∧
   (alerts_of (events_since w w') = [] ∨
    alerts_of (events_since w w') = [AlertNeedPassword] ∨
    alerts_of (events_since w w') = [AlertLoadFailed])).
Proof.
  assert (∀ a, alerts_of (events_since w (alert a w)) = [a]) as Halert.
  { intros a. unfold events_since. simpl. by rewrite drop_app_length. }
  assert (alerts_of (events_since w w) = []) as Hnone.
  { unfold events_since. by rewrite drop_all. }
  unfold handleLoad, handleLoad_onload. destruct file as [blob|]; [|right; auto].
  destruct (JS.truthy (password (mgr w))) eqn:Hp; simpl; [|right; auto 6].
  destruct (decrypt blob (password (mgr w))) as [t|] eqn:Hd; [|right; auto 6].
  destruct (JS.truthy t); simpl; [|right; auto 6].
  destruct (JSON_parse t) as [[| | | | |ms]|] eqn:Hv; try (right; auto 6; fail).
  destruct (get "GEMINI_API_KEY" ms) as [v|] eqn:Hg; [|right; auto 6].
  destruct (js_truthy v) eqn:Ht; [|right; auto 6].
  left. exists blob, t, ms, v. repeat split; auto.
  unfold events_since. simpl. by rewrite <- !app_assoc, drop_app_length.
Qed.

(** X15.  The JSON text that an export encrypts reads back as an object
    whose member [GEMINI_API_KEY] is the credential, whatever characters
    the credential holds (quotes, backslashes, control characters). *)
Theorem X15_key_file_reads_back key :
  JSON_parse (key_file key) = Some (JObj [("GEMINI_API_KEY", JStr key)]) ∧
  (JSON_parse (key_file key) ≫= λ v,
     match v with JObj ms => get "GEMINI_API_KEY" ms | _ => None end) = Some (JStr key).
Proof. by rewrite parse_key_file. Qed.

(** ** The progress panel *)

(** X16.  The three steps of the progress panel advance in order: at most
    one is active, a step is only begun when the one before is completed,
    all are pending exactly in idle, and the last is completed exactly when
    the workflow is. *)
Theorem X16_steps_in_order (s : WorkflowState) :
  (step_2 s ≠ Step.pending → step_1 s = Step.completed) ∧
  (step_3 s ≠ Step.pending → step_2 s = Step.completed) ∧
  length (List.filter (λ st, match st with Step.active => true | _ => false end)
            [step_1 s; step_2 s; step_3 s]) ≤ 1 ∧
  ([step_1 s; step_2 s; step_3 s] = [Step.pending; Step.pending; Step.pending] ↔ s = idle) ∧
  (step_3 s = Step.completed ↔ s = completed).
Proof. destruct s; simpl; repeat split; try done; try lia. Qed.

Lemma X16_steps_in_order_witness : step_1 generating_images = Step.completed.
Proof. by apply (proj1 (X16_steps_in_order generating_images)). Defined.

(** ** Downloads *)

Lemma length_app_string (a b : string) :
  String.length (a +:+ b) = String.length a + String.length b.
Proof. induction a as [|c a IH]; [done|]. rewrite app_String. simpl. by rewrite IH. Qed.

Lemma app_cancel_r (t : string) : ∀ a b : string, a +:+ t = b +:+ t → a = b.
Proof.
  induction a as [|c a IH]; intros [|d b] H; [done| | |].
  - apply (f_equal String.length) in H. rewrite app_String in H. simpl in H.
    change (EmptyString +:+ t) with t in H. rewrite length_app_string in H. lia.
  - apply (f_equal String.length) in H. rewrite app_String in H. simpl in H.
    change (EmptyString +:+ t) with t in H. rewrite length_app_string in H. lia.
  - rewrite !app_String in H. injection H as -> H. f_equal. by apply IH.
Qed.

Lemma to_uint_not_Nil n : Nat.to_uint n ≠ Decimal.Nil.
Proof.
  intros H. pose proof (DecimalNat.Unsigned.of_to n) as Hn. rewrite H in Hn.
  simpl in Hn. by subst n.
Qed.

Lemma string_of_nat_inj n m : string_of_nat n = string_of_nat m → n = m.
Proof.
  unfold string_of_nat. intros H.
  apply (f_equal NilZero.uint_of_string) in H.
  rewrite !NilZero.usu in H by apply to_uint_not_Nil.
  injection H as H. apply (f_equal Nat.of_uint) in H.
  by rewrite !DecimalNat.Unsigned.of_to in H.
Qed.

Lemma slide_name_inj i j : slide_name i = slide_name j → i = j.
Proof.
  unfold slide_name. intros H. apply String.app_inj, app_cancel_r, string_of_nat_inj in H.
  lia.
Qed.

Lemma zip_files_spec segs : ∀ idx name payload,
  (name, payload) ∈ zip_files idx segs ↔
  ∃ i seg url, segs !! i = Some seg ∧ imageUrl seg = Some url ∧ JS.truthy url = true ∧
               name = slide_name (idx + i) ∧ payload = split_comma_1 url.
Proof.
  induction segs as [|seg segs IH]; intros idx name payload.
  - simpl. split; [by intros ?%elem_of_nil|by intros (i & s & u & ? & _)].
  - assert ((name, payload) ∈ zip_files (S idx) segs ↔
            ∃ i seg0 url, (seg :: segs) !! S i = Some seg0 ∧ imageUrl seg0 = Some url ∧
              JS.truthy url = true ∧ name = slide_name (idx + S i) ∧
              payload = split_comma_1 url) as Hrest.
    { rewrite IH. by setoid_rewrite <- Nat.add_succ_comm. }
    assert (∀ P : nat → Prop, (∃ i, P i) ↔ P 0 ∨ ∃ i, P (S i)) as Hsplit.
    { intros P. split.
      - intros [[|i] H]; [by left|right; by exists i].
      - intros [H|[i H]]; eauto. }
    rewrite Hsplit, <- Hrest. simpl. rewrite Nat.add_0_r.
    destruct (imageUrl seg) as [url|] eqn:Hu.
    + destruct (JS.truthy url) eqn:Ht.
      * rewrite elem_of_cons. split.
        -- intros [[= -> ->]|H]; [left; by exists seg, url|by right].
        -- intros [(s & u & [= <-] & Hu' & _ & -> & ->)|H]; [left|by right].
           rewrite Hu in Hu'. by injection Hu' as <-.
      * split; [by right|]. intros [(s & u & [= <-] & Hu' & Ht' & _)|H]; [|done].
        rewrite Hu in Hu'. injection Hu' as <-. by rewrite Ht in Ht'.
    + split; [by right|]. intros [(s & u & [= <-] & Hu' & _)|H]; [|done].
      by rewrite Hu in Hu'.
Qed.

Lemma zip_files_NoDup segs : ∀ idx, NoDup (zip_files idx segs).*1.
Proof.
  induction segs as [|seg segs IH]; intros idx; [constructor|]. simpl.
  destruct (imageUrl seg) as [url|]; [|apply IH].
  destruct (JS.truthy url); [|apply IH].
  simpl. constructor; [|apply IH].
  intros ([name payload] & Hname & Hin)%list_elem_of_fmap. simpl in Hname. subst name.
  apply zip_files_spec in Hin as (i & _ & _ & _ & _ & _ & Heq & _).
  apply slide_name_inj in Heq. lia.
Qed.

Lemma zip_files_nil segs : ∀ idx,
  zip_files idx segs = [] ↔ Forall (λ s, has_image s = false) segs.
Proof.
  induction segs as [|seg segs IH]; intros idx; [done|]. simpl.
  rewrite Forall_cons. unfold has_image at 1.
  destruct (imageUrl seg) as [url|]; simpl; [|rewrite IH; tauto].
  destruct (JS.truthy url); [|rewrite IH; tauto].
  split; [done|]. by intros [? _].
Qed.

(** X17.  The archive of [downloadAll].  Nothing is saved exactly when no
    segment has an image.  Otherwise the archive is [carousel_images.zip]
    with one file for each segment that has an image and none besides: the
    segment at position [i] (from 0) gives [slide_(i+1).png], named by its
    place in the carousel and not by a count of the images, with what
    stands between the first and the second comma of its url; and no two
    files have the same name. *)
Theorem X17_archive_entries w :
  (downloadAll w = None ↔ Forall (λ s, has_image s = false) (view w)) ∧
  ∀ zipname files, downloadAll w = Some (zipname, files) →
    zipname = "carousel_images.zip" ∧
    NoDup files.*1 ∧
    ∀ name payload,
      (name, payload) ∈ files ↔
      ∃ i seg url, view w !! i = Some seg ∧ imageUrl seg = Some url ∧
                   JS.truthy url = true ∧
                   name = slide_name i ∧ payload = split_comma_1 url.
Proof.
  unfold downloadAll. split.
  - rewrite <- (zip_files_nil (view w) 0). by destruct (zip_files 0 (view w)).
  - intros zipname files H.
    assert (zipname = "carousel_images.zip" ∧ files = zip_files 0 (view w)) as [-> ->].
    { destruct (zip_files 0 (view w)); [done|]. by injection H as <- <-. }
    split; [done|]. split; [apply zip_files_NoDup|].
    intros name payload. apply zip_files_spec.
Qed.

Lemma after_comma_None_until p : after_comma p = None → until_comma p = p.
Proof.
  induction p as [|c p IH]; [done|]. simpl.
  destruct (Ascii.eqb c ","); [done|]. intros H. by rewrite IH.
Qed.

Lemma split_comma_png p : split_comma_1 (png_prefix +:+ p) = Some (until_comma p).
Proof. done. Qed.

Lemma zip_files_generated ps : ∀ segs idx,
  Forall2 (λ seg p, imageUrl seg = Some (png_prefix +:+ p) ∧ after_comma p = None) segs ps →
  zip_files idx segs = imap (λ j p, (slide_name (idx + j), Some p)) ps.
Proof.
  induction ps as [|p ps IH]; intros segs idx H.
  - by apply Forall2_nil_inv_r in H as ->.
  - apply Forall2_cons_inv_r in H as (seg & segs' & [Hu Hp] & H & ->).
    simpl. rewrite Hu. change (JS.truthy (png_prefix +:+ p)) with true. cbv iota.
    rewrite split_comma_png, (after_comma_None_until p Hp), Nat.add_0_r.
    f_equal. rewrite (IH segs' (S idx) H). apply imap_ext. intros j q _. unfold compose.
    by replace (idx + S j) with (S idx + j) by lia.
Qed.

(** X18.  The archive of generated slides.  When every segment carries
    the url that [generateImage] makes of a payload,
    [data:image/png;base64,] followed by the payload, and no payload holds
    a comma, the archive has the payloads themselves, unchanged and in the
    order of the slides, under the names [slide_1.png], [slide_2.png],
    ... *)
Theorem X18_archive_of_generated_slides w ps :
  ps ≠ [] →
  Forall2 (λ seg p, imageUrl seg = Some ("data:image/png;base64," +:+ p) ∧
                    after_comma p = None) (view w) ps →
  downloadAll w
  = Some ("carousel_images.zip", imap (λ j p, (slide_name j, Some p)) ps).
Proof.
  intros Hne H. unfold downloadAll.
  rewrite (zip_files_generated ps (view w) 0 H).
  destruct ps as [|p ps]; done.
Qed.

Lemma X18_archive_of_generated_slides_witness :
  ∃ w',
    handleStartAutomation Examples.prov_two (Examples.ready "k") = Done w' ∧
    downloadAll w' = Some ("carousel_images.zip",
                           [("slide_1.png", Some "imga"); ("slide_2.png", Some "imgb")]).
Proof.
  destruct (handleStartAutomation Examples.prov_two (Examples.ready "k")) as [w'|v] eqn:E;
    [|vm_compute in E; discriminate].
  exists w'. split; [done|].
  apply (X18_archive_of_generated_slides w' ["imga"; "imgb"]); [done|].
  vm_compute in E. injection E as <-. repeat constructor.
Defined.

Lemma stack_spec imgs : ∀ y,
  Forall2 (λ b d, d.2 = b) imgs (stack y imgs) ∧
  ∀ i y' b, stack y imgs !! i = Some (y', b) →
    y' = y + sum_list (map (λ d, height d.2) (take i (stack y imgs))).
Proof.
  induction imgs as [|img imgs IH]; intros y; simpl.
  - split; [constructor|]. by intros i y' b.
  - destruct (IH (y + height img)) as [Hall Hy]. split; [by constructor|].
    intros [|i] y' b; simpl.
    + intros [= <- <-]. lia.
    + intros H. rewrite (Hy i y' b H). lia.
Qed.

Lemma sum_list_take_le (l : list nat) i x :
  l !! i = Some x → sum_list (take i l) + x ≤ sum_list l.
Proof.
  revert i. induction l as [|a l IH]; intros [|i] H; simplify_eq/=; [lia|].
  specialize (IH i H). lia.
Qed.

Lemma max_list_ge (l : list nat) i x : l !! i = Some x → x ≤ foldr Nat.max 0 l.
Proof.
  revert i. induction l as [|a l IH]; intros [|i] H; simplify_eq/=; [lia|].
  specialize (IH i H). lia.
Qed.

Lemma sum_foldr (l : list nat) : foldr Nat.add 0 l = sum_list l.
Proof. induction l as [|a l IH]; simpl; [done|by rewrite IH]. Qed.

(** X19.  The merged picture.  When [downloadMergedPNG] saves a file, it
    is [carousel_merged.png]; the canvas received one drawing for each
    segment that has an image, in order, of the bitmap that its url
    decodes to; the drawings are stacked without gap or overlap, each
    starting at the sum of the heights of those before it; every drawing
    lies within the canvas, whose height is the sum of the heights. *)
Theorem X19_merged_layout load has_context has_blob w name c :
  downloadMergedPNG load has_context has_blob w = MergedFile name c →
  name = "carousel_merged.png" ∧
  Forall2 (λ seg d, load (default EmptyString (imageUrl seg)) = Some d.2)
    (List.filter has_image (view w)) (draws c) ∧
  canvas_height c = sum_list (map (λ d, height d.2) (draws c)) ∧
  ∀ i y b, draws c !! i = Some (y, b) →
    y = sum_list (map (λ d, height d.2) (take i (draws c))) ∧
    y + height b ≤ canvas_height c ∧ width b ≤ canvas_width c.
Proof.
  unfold downloadMergedPNG.
  destruct (List.filter has_image (view w)) as [|seg0 valid0] eqn:Hvalid; [done|].
  set (valid := seg0 :: valid0).
  destruct (mapM _ valid) as [imgs|] eqn:Hload; [|done].
  destruct has_context; [|done]. destruct has_blob; [|done].
  intros [= <- <-]. simpl.
  apply mapM_Some in Hload. destruct (stack_spec imgs 0) as [Hall Hy].
  assert (map (λ d, height d.2) (stack 0 imgs) = map height imgs) as Hh.
  { clear -Hall. induction Hall as [|b d bs ds Hd _ IH]; simpl; [done|].
    by rewrite Hd, IH. }
  split; [done|]. split.
  { clear -Hload Hall. revert Hall. generalize (stack 0 imgs).
    induction Hload as [|seg b segs bs Hb _ IH]; intros ds Hds.
    - apply Forall2_nil_inv_l in Hds as ->. constructor.
    - apply Forall2_cons_inv_l in Hds as (d & ds' & Hd & Hds & ->).
      constructor; [by rewrite Hd|by apply IH]. }
  split; [by rewrite Hh, sum_foldr|].
  intros i y b Hi. pose proof (Hy i y b Hi) as Hyi. simpl in Hyi.
  split; [done|].
  assert (imgs !! i = Some b) as Hb.
  { destruct (Forall2_lookup_r _ _ _ _ _ Hall Hi) as (b' & Hb' & Heq). simpl in Heq.
    by subst b'. }
  split.
  - rewrite Hyi, sum_foldr, <- firstn_map, Hh.
    apply sum_list_take_le. change (map height imgs) with (height <$> imgs).
    by rewrite list_lookup_fmap, Hb.
  - apply (max_list_ge _ i). change (map width imgs) with (width <$> imgs).
    by rewrite list_lookup_fmap, Hb.
Qed.

(** X20.  [downloadMergedPNG] alerts exactly when one of the segments
    with an image has a url that does not decode, whether or not the
    canvas would have given a context or a blob; and without any image it
    does nothing. *)
Theorem X20_merged_failure load has_context has_blob w :
  (downloadMergedPNG load has_context has_blob w = MergedAlert ↔
   ∃ seg, seg ∈ view w ∧ has_image seg = true ∧
          load (default EmptyString (imageUrl seg)) = None) ∧
  (Forall (λ s, has_image s = false) (view w) →
   downloadMergedPNG load has_context has_blob w = MergedNothing).
Proof.
  unfold downloadMergedPNG. split.
  - assert ((∃ seg, seg ∈ view w ∧ has_image seg = true ∧
               load (default EmptyString (imageUrl seg)) = None) ↔
            Exists (λ seg, load (default EmptyString (imageUrl seg)) = None)
              (List.filter has_image (view w))) as ->.
    { rewrite Exists_exists. split.
      - intros (seg & Hin & Hhas & Hl). exists seg. split; [|done].
        apply list_elem_of_In, filter_In. by rewrite <- list_elem_of_In.
      - intros (seg & Hin & Hl). apply list_elem_of_In, filter_In in Hin as [Hin Hhas].
        exists seg. by rewrite list_elem_of_In. }
    destruct (List.filter has_image (view w)) as [|seg0 valid0];
      [split; [done|by intros ?%Exists_nil]|].
    rewrite <- mapM_None.
    destruct (mapM _ (seg0 :: valid0)) as [imgs|]; [|done].
    destruct has_context, has_blob; split; intros H; by inversion H.
  - intros Hno.
    assert (List.filter has_image (view w) = []) as ->; [|done].
    induction Hno as [|s l Hs _ IH]; simpl; [done|]. by rewrite Hs.
Qed.

Lemma X17_archive_entries_witness :
  ∃ w',
    handleStartAutomation (Examples.prov_fails_on_2 Examples.overloaded) (Examples.ready "k")
    = Done w' ∧
    downloadAll w' = Some ("carousel_images.zip", [("slide_1.png", Some "imga")]) ∧
    NoDup ["slide_1.png"].
Proof.
  destruct (handleStartAutomation (Examples.prov_fails_on_2 Examples.overloaded)
              (Examples.ready "k")) as [w'|v] eqn:E; [|vm_compute in E; discriminate].
  exists w'. split; [done|].
  assert (downloadAll w' = Some ("carousel_images.zip", [("slide_1.png", Some "imga")]))
    as Hd by (vm_compute in E; by injection E as <-).
  split; [done|].
  exact (proj1 (proj2 (proj2 (X17_archive_entries w') _ _ Hd))).
Defined.

Lemma X19_merged_layout_witness :
  ∃ w' c,
    handleStartAutomation Examples.prov_two (Examples.ready "k") = Done w' ∧
    downloadMergedPNG (λ _, Some {| width := 1024; height := 1280 |}) true true w'
    = MergedFile "carousel_merged.png" c ∧
    canvas_height c = 2560 ∧ (draws c).*1 = [0; 1280].
Proof.
  destruct (handleStartAutomation Examples.prov_two (Examples.ready "k")) as [w'|v] eqn:E;
    [|vm_compute in E; discriminate].
  destruct (downloadMergedPNG (λ _, Some {| width := 1024; height := 1280 |}) true true w')
    as [| |name c] eqn:Hm;
    [vm_compute in E; injection E as <-; discriminate Hm
    |vm_compute in E; injection E as <-; discriminate Hm|].
  exists w', c. split; [done|].
  destruct (X19_merged_layout _ true true w' name c Hm) as (-> & _ & Hh & _).
  split; [done|]. vm_compute in E. injection E as <-.
  injection Hm as <-. by split.
Defined.

Lemma X20_merged_failure_witness :
  downloadMergedPNG (λ _, None) true true (world0 None) = MergedNothing.
Proof. apply (proj2 (X20_merged_failure (λ _, None) true true (world0 None))). constructor. Defined.

(** ** The reference images in a request *)

Lemma mime_char_spec c :
  mime_char c = true →
  Ascii.eqb c ";" = false ∧ Ascii.eqb c "," = false ∧
  ∀ r, line_terminator_at (String c r) = false.
Proof.
  unfold mime_char. intros H.
  apply andb_true_iff in H as [H H226]. apply andb_true_iff in H as [H H13].
  apply andb_true_iff in H as [H H10]. apply andb_true_iff in H as [Hsemi Hcomma].
  apply negb_true_iff in H226, H13, H10, Hsemi, Hcomma.
  split; [done|]. split; [done|].
  intros r. simpl. rewrite H10, H13, H226. simpl. by destruct r as [|? [|? ?]].
Qed.

Lemma lazy_to_base64_mime mime rest :
  all_chars mime_char mime = true →
  lazy_to_base64 (mime +:+ ";base64" +:+ rest) = Some mime.
Proof.
  induction mime as [|c mime IH]; intros Hall.
  - change (EmptyString +:+ ?x) with x. destruct rest; reflexivity.
  - simpl in Hall. apply andb_true_iff in Hall as [Hc Hall].
    destruct (mime_char_spec c Hc) as (Hsemi & _ & Hlt).
    rewrite app_String.
    change (lazy_to_base64 (String c ?s))
      with (if String.prefix ";base64" (String c s) then Some EmptyString
            else if line_terminator_at (String c s) then None
                 else String c <$> lazy_to_base64 s).
    assert (∀ s, String.prefix ";base64" (String c s) = false) as ->.
    { intros s.
      change (String.prefix ";base64" (String c s))
        with (if ascii_dec ";" c then String.prefix "base64" s else false).
      destruct (ascii_dec ";" c) as [<-|]; [|done].
      by rewrite Ascii.eqb_refl in Hsemi. }
    by rewrite Hlt, IH.
Qed.

Lemma after_comma_mime mime rest :
  all_chars mime_char mime = true →
  after_comma (mime +:+ rest) = after_comma rest.
Proof.
  induction mime as [|c mime IH]; intros Hall; [done|].
  simpl in Hall. apply andb_true_iff in Hall as [Hc Hall].
  destruct (mime_char_spec c Hc) as (_ & Hcomma & _).
  rewrite app_String. simpl. by rewrite Hcomma, IH.
Qed.

(** X21.  The part pushed for a reference image that is a data url
    [data:<mime>;base64,<payload>], with a media type that is not empty and
    a payload that is not empty and holds no comma: its [mimeType] is the
    media type and its [data] the payload. *)
Theorem X21_reference_image_part mime payload :
  mime ≠ EmptyString → all_chars mime_char mime = true →
  payload ≠ EmptyString → after_comma payload = None →
  inline_part (data_url mime payload)
  = Some {| data := Some payload; mimeType := Some mime |}.
Proof.
  intros Hm Hall Hp Hcomma. unfold inline_part, data_url.
  assert (match_mime ("data:" +:+ mime +:+ ";base64," +:+ payload) = Some mime) as ->.
  { change ("data:" +:+ mime +:+ ";base64," +:+ payload)
      with (String "d" (String "a" (String "t" (String "a" (String ":"
              (mime +:+ ";base64" +:+ String "," payload)))))).
    cbn [match_mime]. by rewrite lazy_to_base64_mime. }
  assert (split_comma_1 ("data:" +:+ mime +:+ ";base64," +:+ payload) = Some payload) as ->.
  { unfold split_comma_1.
    change ("data:" +:+ mime +:+ ";base64," +:+ payload)
      with (String "d" (String "a" (String "t" (String "a" (String ":"
              (mime +:+ ";base64," +:+ payload)))))).
    cbn [after_comma Ascii.eqb Bool.eqb]. rewrite (after_comma_mime mime _ Hall).
    change (after_comma (";base64," +:+ payload)) with (Some payload). simpl.
    by rewrite after_comma_None_until. }
  apply JS_truthy_true in Hm, Hp. by rewrite Hm, Hp.
Qed.

Lemma X21_reference_image_part_witness :
  inline_part "data:image/webp;base64,UklGRg=="
  = Some {| data := Some "UklGRg=="; mimeType := Some "image/webp" |}.
Proof.
  exact (X21_reference_image_part "image/webp" "UklGRg=="
           ltac:(discriminate) eq_refl ltac:(discriminate) eq_refl).
Defined.

(** X22.  What the loop over the reference images never does: it pushes
    no part with an empty payload or an empty media type, and none for an
    image without a comma; so the request can have fewer image parts than
    there are reference images, and never more. *)
Theorem X22_reference_image_parts_sound refs :
  length (inline_parts refs) ≤ length refs ∧
  ∀ d, d ∈ inline_parts refs →
    ∃ img p m, img ∈ refs ∧ split_comma_1 img = Some p ∧
               data d = Some p ∧ mimeType d = Some m ∧
               p ≠ EmptyString ∧ m ≠ EmptyString.
Proof.
  unfold inline_parts. split.
  { induction refs as [|img refs IH]; [done|].
    change (omap inline_part (img :: refs))
      with (match inline_part img with
            | Some d => d :: omap inline_part refs
            | None => omap inline_part refs
            end).
    destruct (inline_part img); cbn [length]; lia. }
  intros d (img & Hin & Hd)%list_elem_of_omap. unfold inline_part in Hd.
  destruct (split_comma_1 img) as [p|] eqn:Hp; [|done].
  destruct (JS.truthy p) eqn:Ht; [|done]. injection Hd as <-.
  exists img, p. eexists. split; [done|]. split; [done|]. split; [done|]. split; [done|].
  split; [by apply JS_truthy_true|].
  destruct (match_mime img) as [m|]; [|done].
  destruct (JS.truthy m) eqn:Hm; [by apply JS_truthy_true|done].
Qed.

(** ** From the dialog to a run *)

Lemma persisted key w0 :
  JS.truthy key = true →
  getApiKey (onKeyUpdated (localStorage_setItem key w0)) = Some key ∧
  app (onKeyUpdated (localStorage_setItem key w0)) = app_set_hasApiKey true (app w0).
Proof.
  intros Hk.
  assert (getApiKey (log EvKeyUpdated (localStorage_setItem key w0)) = Some key) as Hget
    by (by apply getApiKey_stored).
  unfold onKeyUpdated, checkApiKey. rewrite Hget. cbn [JS.truthy_opt]. rewrite Hk.
  by split.
Qed.

Lemma handleTest_success prov w :
  JS.truthy (apiKey (mgr w)) = true →
  status (mgr (handleTest prov w)) = st_success →
  getApiKey (handleTest prov w) = Some (apiKey (mgr w)) ∧
  app (handleTest prov w) = app_set_hasApiKey true (app w).
Proof.
  intros Hk. unfold handleTest. rewrite Hk. cbn [negb].
  unfold generateContent. cbv zeta.
  set (w1 := log _ (log _ (tick (setStatus st_testing w)))).
  assert (∀ e, status (mgr (handleTest_catch e w1)) = st_success →
               getApiKey (handleTest_catch e w1) = Some (apiKey (mgr w)) ∧
               app (handleTest_catch e w1) = app_set_hasApiKey true (app w)) as Hcatch.
  { intros e. unfold handleTest_catch. destruct (is_overloaded _); [|done].
    intros _. change (apiKey (mgr w1)) with (apiKey (mgr w)).
    apply (persisted _ (setMessage MsgValidOverloaded (setStatus st_success w1)) Hk). }
  destruct (prov _ _) as [r|e]; [|apply Hcatch].
  destruct (JS.truthy_opt (text r)); [|apply Hcatch].
  intros _. apply (persisted _ (setMessage MsgTestOk (setStatus st_success w1)) Hk).
Qed.

Lemma quietly_trace w w' : quietly w w' → ∃ evs, trace w' = trace w ++ evs.
Proof. intros (_ & _ & _ & _ & evs & Ht & _). by exists evs. Qed.

Lemma run_first_call prov w key w' :
  hasApiKey (app w) = true → JS.truthy (topic (app w)) = true →
  getApiKey w = Some key → JS.truthy key = true →
  handleStartAutomation prov w = Done w' →
  ∃ evs, events_since w w'
         = [EvSetSegments []; EvSetPostData None; EvSetWorkflowState planning;
            EvIssue (calls w) (plan_request w key)] ++ evs.
Proof.
  intros Hhas Htopic Hk Ht. unfold handleStartAutomation. rewrite Hhas, Htopic. simpl.
  set (ws := setWorkflowState planning _).
  assert (∃ evs, trace (generatePlan prov (topic (app w)) (count (app w)) (ratio (app w))
                          (referenceImages (app w)) ws).2
                 = trace w ++ [EvSetSegments []; EvSetPostData None;
                               EvSetWorkflowState planning;
                               EvIssue (calls w) (plan_request w key)] ++ evs) as [evs1 H1].
  { unfold generatePlan. change (getApiKey ws) with (getApiKey w). rewrite Hk, Ht.
    exists [EvSettle (calls w) (prov (calls w) (plan_request w key))].
    unfold generateContent. change (calls ws) with (calls w).
    fold (plan_request w key).
    destruct (prov (calls w) (plan_request w key)) as [r|e]; simpl;
      [destruct (text r) as [t|]; [destruct (JS.truthy t); [destruct (JSON_parse t)|]|]|];
      simpl; by rewrite <- !app_assoc. }
  assert (∀ wa evs, trace wa = trace (generatePlan prov (topic (app w)) (count (app w))
                                        (ratio (app w)) (referenceImages (app w)) ws).2
                               ++ evs →
            ∃ evs', events_since w wa
                    = [EvSetSegments []; EvSetPostData None; EvSetWorkflowState planning;
                       EvIssue (calls w) (plan_request w key)] ++ evs') as Hfin.
  { intros wa evs Ha. exists (evs1 ++ evs). unfold events_since.
    by rewrite Ha, H1, <- !app_assoc, drop_app_length. }
  assert (∀ e wa evs, trace wa = trace (generatePlan prov (topic (app w)) (count (app w))
                                        (ratio (app w)) (referenceImages (app w)) ws).2
                               ++ evs →
            ∃ evs', events_since w (catch e wa)
                    = [EvSetSegments []; EvSetPostData None; EvSetWorkflowState planning;
                       EvIssue (calls w) (plan_request w key)] ++ evs') as Hcatch.
  { intros e wa evs Ha. destruct (catch_spec e wa) as (_ & _ & _ & _ & _ & Htr & _).
    apply (Hfin _ (evs ++ catch_events e)). by rewrite Htr, Ha, <- app_assoc. }
  destruct (generatePlan _ _ _ _ _ ws) as [[v|e] w1]; simpl in *.
  2:{ intros [= <-]. apply (Hcatch e w1 []). by rewrite app_nil_r. }
  destruct (as_CarouselSegments v) as [objects|]; [|done].
  set (wi := setWorkflowState generating_images
               (setSegments (seq 0 (length objects)) (with_heap (λ _, objects) w1))).
  assert (quietly w1 wi) as Hi by (unfold wi, setWorkflowState, setSegments; quiet).
  generalize (image_loop_quiet prov (ratio (app w)) (referenceImages (app w))
                (seq 0 (length objects)) (length (seq 0 (length objects))) 0 wi).
  destruct (image_loop _ _ _ _ _ _ wi) as [[e|] wl]; simpl; intros [Hql _].
  { intros [= <-]. destruct (quietly_trace _ _ (quietly_trans _ _ _ Hi Hql)) as [evs Hevs].
    by apply (Hcatch e wl evs). }
  set (wc := setWorkflowState generating_caption wl).
  assert (quietly w1 wc) as Hc.
  { eapply quietly_trans; [exact Hi|]. eapply quietly_trans; [exact Hql|].
    unfold wc, setWorkflowState. quiet. }
  generalize (generateInstagramPost_quiet prov (topic (app w))
                (deref (heap wc) (seq 0 (length objects))) wc).
  destruct (generateInstagramPost _ _ _ wc) as [[post|e] wp]; simpl; intros [Hqp _].
  - intros [= <-].
    destruct (quietly_trace _ _ (quietly_trans _ _ _ Hc Hqp)) as [evs Hevs].
    apply (Hfin _ (evs ++ [EvSetPostData (Some post); EvSetWorkflowState completed])).
    simpl. by rewrite Hevs, <- !app_assoc.
  - intros [= <-].
    destruct (quietly_trace _ _ (quietly_trans _ _ _ Hc Hqp)) as [evs Hevs].
    by apply (Hcatch e wp evs).
Qed.

(** X23.  From the dialog to a run.  After a credential test that
    reported success, a run started with a topic makes its first call, the
    plan call, with the credential that was tested: not with the one
    stored before the test, and not with one from the environment. *)
Theorem X23_tested_credential_is_used prov prov' w w' :
  JS.truthy (apiKey (mgr w)) = true →
  status (mgr (handleTest prov w)) = st_success →
  JS.truthy (topic (app w)) = true →
  handleStartAutomation prov' (handleTest prov w) = Done w' →
  issued (events_since (handleTest prov w) w') !! 0
  = Some (ReqPlan (apiKey (mgr w)) (topic (app w)) (count (app w)) (ratio (app w))
            (referenceImages (app w))).
Proof.
  intros Hk Hok Htopic Hrun.
  destruct (handleTest_success prov w Hk Hok) as [Hget Happ].
  destruct (run_first_call prov' (handleTest prov w) (apiKey (mgr w)) w') as [evs ->];
    try done; [by rewrite Happ|by rewrite Happ|].
  unfold plan_request. by rewrite Happ.
Qed.

Lemma X23_tested_credential_is_used_witness :
  let w := setTopic "time management"
             (setApiKey "fresh" (with_storage (λ st, {| stored := Some "old";
                                                        env_API_KEY := Some "env";
                                                        env_GEMINI_API_KEY := None |})
                                   (world0 None))) in
  ∃ w',
    handleStartAutomation Examples.prov_two (handleTest Examples.prov_two w) = Done w' ∧
    issued (events_since (handleTest Examples.prov_two w) w') !! 0
    = Some (ReqPlan "fresh" "time management" 5 Ratio_1_1 []).
Proof.
  intros w.
  destruct (handleStartAutomation Examples.prov_two (handleTest Examples.prov_two w))
    as [w'|v] eqn:E; [|vm_compute in E; discriminate].
  exists w'. split; [done|].
  exact (X23_tested_credential_is_used Examples.prov_two Examples.prov_two w w'
           eq_refl eq_refl eq_refl E).
Defined.

(** ** What a run and a test leave alone *)

(** X24.  A run never changes what the user entered: topic, slide count,
    ratio and reference images are after it what they were, as are the
    screen, the dialog's own state and the reads in flight; and the
    credential dialog is opened by the run only when the flag
    [hasApiKey] was cleared at the click. *)
Theorem X24_run_keeps_inputs prov w w' :
  handleStartAutomation prov w = Done w' →
  topic (app w') = topic (app w) ∧ count (app w') = count (app w) ∧
  ratio (app w') = ratio (app w) ∧
  referenceImages (app w') = referenceImages (app w) ∧
  screen (app w') = screen (app w) ∧
  mgr w' = mgr w ∧ pending_reads w' = pending_reads w ∧
  isKeyManagerOpen (app w')
  = (if hasApiKey (app w) then isKeyManagerOpen (app w) else true).
Proof.
  intros Hrun.
  destruct (hasApiKey (app w)) eqn:Hhas.
  2:{ unfold handleStartAutomation in Hrun. rewrite Hhas in Hrun. by injection Hrun as <-. }
  destruct (JS.truthy (topic (app w))) eqn:Htopic.
  2:{ unfold handleStartAutomation in Hrun. rewrite Hhas, Htopic in Hrun.
      by injection Hrun as <-. }
  destruct (run_outcome prov w w' Hhas Htopic Hrun) as (w1 & Hq & Hp & Hend).
  pose proof (f_equal topic Hp) as H1. pose proof (f_equal count Hp) as H2.
  pose proof (f_equal ratio Hp) as H3. pose proof (f_equal referenceImages Hp) as H4.
  pose proof (f_equal screen Hp) as H5. pose proof (f_equal isKeyManagerOpen Hp) as H6.
  simpl in H1, H2, H3, H4, H5, H6.
  destruct Hq as (_ & Hm & Hr & _).
  destruct Hend as [[e ->] | [post ->]]; [|done].
  unfold catch. by destruct (entity_not_found e).
Qed.

Lemma X24_run_keeps_inputs_witness :
  ∃ w',
    handleStartAutomation Examples.prov_two (Examples.ready "k") = Done w' ∧
    topic (app w') = "time management" ∧ count (app w') = 5%Z.
Proof.
  destruct (handleStartAutomation Examples.prov_two (Examples.ready "k")) as [w'|v] eqn:E;
    [|vm_compute in E; discriminate].
  exists w'. split; [done|].
  destruct (X24_run_keeps_inputs Examples.prov_two (Examples.ready "k") w' E)
    as (Ht & Hc & _).
  by split.
Defined.

(** X25.  A credential test sends the candidate of the input field and
    nothing else: one call, with that candidate, when the field is not
    empty, whatever is stored or in the environment; and no call at all
    when it is empty.  In every case the state of the application other
    than the flag [hasApiKey] is left as it was. *)
Theorem X25_test_sends_candidate prov w :
  issued (events_since w (handleTest prov w))
  = (if JS.truthy (apiKey (mgr w)) then [ReqTest (apiKey (mgr w))] else []) ∧
  app_set_hasApiKey true (app (handleTest prov w)) = app_set_hasApiKey true (app w).
Proof.
  unfold handleTest. destruct (JS.truthy (apiKey (mgr w))) eqn:Hk; cbn [negb].
  2:{ split; [|done]. unfold events_since. cbn [trace setStatus setMessage with_mgr].
      by rewrite drop_all. }
  unfold generateContent. cbv zeta.
  set (w1 := log _ (log _ (tick (setStatus st_testing w)))).
  assert (trace w1 = trace w ++ [EvIssue (calls w) (ReqTest (apiKey (mgr w)));
                                 EvSettle (calls w) (prov (calls w) (ReqTest (apiKey (mgr w))))])
    as Htr by (simpl; by rewrite <- app_assoc).
  assert (∀ k m, let w2 := onKeyUpdated (localStorage_setItem k
                               (setMessage m (setStatus st_success w1))) in
                 issued (events_since w w2) = [ReqTest (apiKey (mgr w))] ∧
                 app_set_hasApiKey true (app w2) = app_set_hasApiKey true (app w)) as Hok.
  { intros k m. split; [|done]. unfold events_since.
    unfold onKeyUpdated, checkApiKey, localStorage_setItem, setHasApiKey, setMessage,
      setStatus, with_app, with_mgr, with_storage, log. cbn [trace]. rewrite Htr.
    by rewrite <- !app_assoc, drop_app_length. }
  assert (∀ e, issued (events_since w (handleTest_catch e w1)) = [ReqTest (apiKey (mgr w))] ∧
               app_set_hasApiKey true (app (handleTest_catch e w1))
               = app_set_hasApiKey true (app w)) as Hcatch.
  { intros e. unfold handleTest_catch. destruct (is_overloaded _); [apply Hok|].
    split; [|done]. unfold events_since.
    unfold setMessage, setStatus, with_mgr. cbn [trace]. rewrite Htr.
    by rewrite drop_app_length. }
  destruct (prov _ _) as [r|e]; [|apply Hcatch].
  destruct (JS.truthy_opt (text r)); [apply Hok|apply Hcatch].
Qed.
